(** * Match-data aggregation and caching layer: the cricket service

    A shallow embedding of the credential pool, the throttle gate, the
    region refresh functions, the public query surface and the match
    enricher, with the properties of the specification stated and settled
    against it.

    Conventions.
    - Wall-clock readings ([Date.now()]) are integers of milliseconds, [Z].
      Every function that reads the clock takes the reading as an argument.
    - A JavaScript [Map] with string keys is a [gmap string _]; an array is a
      [list]; [null]/[undefined] object references are [option].
    - Module-level mutable variables are fields of explicit state records
      that the functions take and return. *)

From Stdlib Require Import ZArith Lia Bool Ascii.
From stdpp Require Import gmap strings list sorting.

Open Scope Z_scope.

(** ** Key pool manager *)

Module KeyPool.

(** [{ blockedUntil: timestamp | null }] *)
Record keyInfo : Type := KeyInfo { blockedUntil : option Z }.

(** [apiKeys], [currentKeyIndex], [keyRateLimitMap] *)
Record pool : Type := Pool {
  apiKeys : list string;
  currentKeyIndex : nat;
  keyRateLimitMap : gmap string keyInfo
}.

(** [16 * 60 * 1000], the default [blockDuration] of [markKeyAsRateLimited];
    no caller passes another one. *)
Definition BLOCK_DURATION : Z := 16 * 60 * 1000.

(** [keyInfo && keyInfo.blockedUntil && now < keyInfo.blockedUntil]: a
    missing entry, a [null] and the number [0] are falsy. *)
Definition isBlocked (m : gmap string keyInfo) (now : Z) (k : string) : bool :=
  match m !! k with
  | Some (KeyInfo (Some b)) => negb (b =? 0) && (now <? b)
  | _ => false
  end.

(** The state the pool has after [initializeApiKeys] split the configured
    string into [keys]: every key is entered with [blockedUntil: null]. *)
Definition initPool (keys : list string) : pool :=
  Pool keys 0
       (foldl (fun m k => <[k := KeyInfo None]> m) ∅ keys).

(** The [while (attempts < apiKeys.length)] loop of [getApiKey]; [fuel] is
    the number of iterations left, [apiKeys.length - attempts].  It returns
    the cursor it stopped at and the key it found, if any.  A cursor outside
    the array reads [undefined] in the source (an unblocked non-key); the
    cursor is kept below the length by [markKeyAsRateLimited] and by this
    loop, see [wf_getApiKey]. *)
Fixpoint scanKeys (keys : list string) (m : gmap string keyInfo) (now : Z)
    (idx : nat) (fuel : nat) : nat * option string :=
  match fuel with
  | O => (idx, None)
  | S fuel' =>
      match keys !! idx with
      | Some k =>
          if isBlocked m now k
          then scanKeys keys m now ((idx + 1) mod length keys)%nat fuel'
          else (idx, Some k)
      | None => (idx, None)
      end
  end.

(** [getApiKey]: [None] is the source's [null] (empty pool). When every key
    is blocked the key under the cursor is returned anyway. *)
Definition getApiKey (p : pool) (now : Z) : pool * option string :=
  match apiKeys p with
  | [] => (p, None)
  | _ =>
      let '(idx, found) :=
        scanKeys (apiKeys p) (keyRateLimitMap p) now
                 (currentKeyIndex p) (length (apiKeys p)) in
      let key := match found with
                 | Some k => Some k
                 | None => apiKeys p !! idx
                 end in
      (Pool (apiKeys p) idx (keyRateLimitMap p), key)
  end.

(** [markKeyAsRateLimited(key)] at clock reading [now]. *)
Definition markKeyAsRateLimited (p : pool) (key : string) (now : Z) : pool :=
  Pool (apiKeys p)
       ((currentKeyIndex p + 1) mod length (apiKeys p))%nat
       (<[key := KeyInfo (Some (now + BLOCK_DURATION))]> (keyRateLimitMap p)).

(** The cursor stays inside the array. *)
Definition wf (p : pool) : Prop :=
  (currentKeyIndex p < length (apiKeys p))%nat.

(** The operations on the pool after startup, each at the clock reading it
    observes ([initializeApiKeys] runs before any of them). *)
Inductive op : Type :=
  | OpGet (now : Z)
  | OpMark (key : string) (now : Z).

Definition opTime (o : op) : Z :=
  match o with OpGet t => t | OpMark _ t => t end.

Definition applyOp (p : pool) (o : op) : pool :=
  match o with
  | OpGet now => fst (getApiKey p now)
  | OpMark k now => markKeyAsRateLimited p k now
  end.

Definition runOps (p : pool) (ops : list op) : pool := foldl applyOp p ops.

(** Every configured key is blocked at [now]. *)
Definition allBlocked (p : pool) (now : Z) : Prop :=
  Forall (fun k => isBlocked (keyRateLimitMap p) now k = true) (apiKeys p).

(** [k]'s entry blocks it at least until [t]. *)
Definition blockedAtLeastUntil (p : pool) (k : string) (t : Z) : Prop :=
  exists b, keyRateLimitMap p !! k = Some (KeyInfo (Some b)) /\ t <= b.

End KeyPool.

(** ** Throttle gate *)

Module Throttle.

Definition THROTTLE_DELAY : Z := 10000.

(** The part of [throttleApiCall] before its [await]: with the clock at
    [now], [Some waitTime] when the caller is put to sleep for [waitTime]
    milliseconds, [None] when it goes straight to the update of
    [lastApiCallTime]. *)
Definition waitTime (lastApiCallTime now : Z) : option Z :=
  let timeSinceLastCall := now - lastApiCallTime in
  if timeSinceLastCall <? THROTTLE_DELAY
  then Some (THROTTLE_DELAY - timeSinceLastCall)
  else None.

(** The clock reading from which the timer of a caller that entered at
    [now] may fire ([setTimeout] never fires early). *)
Definition dueTime (lastApiCallTime now : Z) : Z :=
  match waitTime lastApiCallTime now with
  | Some w => now + w
  | None => now
  end.

End Throttle.

(** ** JavaScript strings, as far as the service uses them *)

Module JsString.

(** [toLowerCase] on the ASCII letters. *)
Definition lowerAscii (c : ascii) : ascii :=
  let n := nat_of_ascii c in
  if ((65 <=? n) && (n <=? 90))%nat then ascii_of_nat (n + 32) else c.

Fixpoint toLowerCase (s : string) : string :=
  match s with
  | EmptyString => EmptyString
  | String c s' => String (lowerAscii c) (toLowerCase s')
  end.

(** [hay.includes(needle)] *)
Fixpoint includes (needle hay : string) : bool :=
  String.prefix needle hay ||
  match hay with
  | EmptyString => false
  | String _ hay' => includes needle hay'
  end.

(** Truthiness of a possibly missing string: [undefined], [null] and the
    empty string are falsy. *)
Definition truthyStr (o : option string) : bool :=
  match o with
  | Some s => negb (String.eqb s "")
  | None => false
  end.

(** [a || b] on possibly missing strings. *)
Definition orStr (a b : option string) : option string :=
  if truthyStr a then a else b.

End JsString.

(** ** Transport errors and their classification *)

(** What the service reads of a caught error: [error.message],
    [error.code], [error.response?.status],
    [error.response?.data?.reason]. *)
Record jsError : Type := JsError {
  message : option string;
  code : option string;
  responseStatus : option Z;
  responseReason : option string
}.

Definition plainError (msg : string) : jsError :=
  JsError (Some msg) None None None.

(** [s.toLowerCase().includes('blocked') || ...includes('limit') ||
    ...includes('exceeded')] *)
Definition mentionsRateLimit (s : string) : bool :=
  let l := JsString.toLowerCase s in
  JsString.includes "blocked" l || JsString.includes "limit" l
  || JsString.includes "exceeded" l.

(** [error.message || error.response?.data?.reason || ''] *)
Definition errorMessage (e : jsError) : string :=
  match JsString.orStr (message e) (responseReason e) with
  | Some s => if JsString.truthyStr (Some s) then s else ""
  | None => ""
  end.

(** The [isRateLimited] test of the [catch] blocks. *)
Definition isRateLimitedError (e : jsError) : bool :=
  mentionsRateLimit (errorMessage e) ||
  match responseStatus e with Some st => st =? 429 | None => false end.

(** ** JavaScript values and objects *)

(** The scalar values found in the fields of upstream objects. Numbers are
    never computed with, only tested for truthiness and copied; they are
    integers here. *)
Inductive jsval : Type :=
  | JUndefined
  | JNull
  | JBool (b : bool)
  | JNum (n : Z)
  | JStr (s : string).

#[global] Instance jsval_eq_dec : EqDecision jsval.
Proof. solve_decision. Defined.

Definition truthy (v : jsval) : bool :=
  match v with
  | JUndefined | JNull => false
  | JBool b => b
  | JNum n => negb (n =? 0)
  | JStr s => negb (String.eqb s "")
  end.

(** [a || b] *)
Definition orVal (a b : jsval) : jsval := if truthy a then a else b.

(** A flat object: its own properties. A property may be present with the
    value [undefined]. *)
Abbreviation obj := (gmap string jsval).

(** [o.f] *)
Definition prop (o : obj) (f : string) : jsval := default JUndefined (o !! f).

(** [{...a, ...b}]: the properties of [b] win. *)
Definition spread (a b : obj) : obj := b ∪ a.

(** [o.name] when it is a non-empty string, the only names the enricher
    handles ([toLowerCase] is called on every truthy name; the provider's
    schema has strings there). *)
Definition nameOf (o : obj) : option string :=
  match prop o "name" with
  | JStr s => if String.eqb s "" then None else Some s
  | _ => None
  end.

(** An array element that is either a string or an object. *)
Inductive jsItem : Type :=
  | ItemStr (s : string)
  | ItemObj (o : obj).

(** ** Upstream payloads *)

(** An element of a [score] array: its scalar fields ([r], [w], [o],
    [inning]) and, in some payload shapes, [batsmen] and [bowlers]. *)
Record scoreInning : Type := ScoreInning {
  si_fields : obj;
  batsmen : option (list jsItem);
  bowlers : option (list jsItem)
}.

(** A match of the upstream list, with the fields the refreshes read.
    [matchStarted] and [matchEnded] are compared with [=== true] and
    [=== false]: [None] stands for a missing or non-boolean value.
    [score] is [None] when it is missing or not an array. *)
Record matchInfo : Type := MatchInfo {
  match_id : string;
  matchStarted : option bool;
  matchEnded : option bool;
  score : option (list scoreInning);
  dateTimeGMT : option string;
  date : option string
}.

(** The envelope [{ status, reason, data }] of every endpoint. [pdata] is
    [None] when [data] is missing or has not the shape of the endpoint. *)
Record payload (D : Type) : Type := Payload {
  status : jsval;
  reason : jsval;
  pdata : option D
}.
Arguments Payload {D} _ _ _.
Arguments status {D} _.
Arguments reason {D} _.
Arguments pdata {D} _.

(** [matchData.data] of the match-info endpoint: its scalar fields
    ([hasSquad], [tossWinner], ...) and the arrays the enricher reads.
    The pass-through structures ([stats], [commentary]) are left out. *)
Record matchInfoData : Type := MatchInfoData {
  mi_fields : obj;
  mi_score : option (list scoreInning);
  mi_players : option (list jsItem);
  mi_playerInfo : option (list jsItem);
  mi_teams : option (list jsval)
}.

(** A team of the squad endpoint: [{ players: [...] }]. *)
Record squadTeam : Type := SquadTeam { st_players : option (list obj) }.

(** An entry of an inning's [batting] array: [entry.batsman] and the scalar
    fields [dismissal], [r], [b], [4s], [6s], [sr]. *)
Record battingEntry : Type := BattingEntry {
  batsman : option obj;
  be_fields : obj
}.

(** An entry of an inning's [bowling] array: [entry.bowler] and the scalar
    fields [name], [o], [r], [w], [m], [eco]. *)
Record bowlingEntry : Type := BowlingEntry {
  bowler : option obj;
  bw_fields : obj
}.

(** An inning of a scorecard: scalar fields [team], [totalRuns],
    [totalWickets], [totalOvers], and the two arrays. *)
Record inning : Type := Inning {
  in_fields : obj;
  batting : option (list battingEntry);
  bowling : option (list bowlingEntry)
}.

(** [scorecardData.data] of the scorecard endpoints. *)
Record scorecardDoc : Type := ScorecardDoc {
  scorecard : option (list inning)
}.

(** [response.data] of an upstream call; [BodyEmpty] is a falsy body. *)
Inductive httpBody : Type :=
  | BodyEmpty
  | BodyMatches (p : payload (list matchInfo))
  | BodyInfo (p : payload matchInfoData)
  | BodySquad (p : payload (list squadTeam))
  | BodyScorecard (p : payload scorecardDoc).

(** How an [axios.get] settles: a response, or a thrown error. *)
Inductive httpOutcome : Type :=
  | HttpOk (body : httpBody)
  | HttpErr (e : jsError).

(** ** What the enricher produces *)

(** The entries of [currentBatsmen] and [dismissedBatsmen]. *)
Record batsmanData : Type := BatsmanData {
  bd_name : string;
  bd_runs : jsval;
  bd_balls : jsval;
  bd_dismissal : jsval
}.

(** The entries of [currentBowlers]. *)
Record bowlerData : Type := BowlerData {
  bo_name : jsval;
  bo_overs : jsval;
  bo_runs : jsval;
  bo_wickets : jsval
}.

(** The object [organizeBattingData] returns. *)
Record battingData : Type := BattingData {
  battingTeam : jsval;
  bowlingTeam : jsval;
  currentBatsmen : list batsmanData;
  nextBatsman : option string;
  dismissedBatsmen : list batsmanData;
  currentBowlers : list bowlerData;
  totalRuns : jsval;
  totalWickets : jsval;
  totalOvers : jsval
}.

(** The object [extractSquadData] returns. *)
Record squadData : Type := SquadData {
  team1Squad : list obj;
  team2Squad : list obj;
  team1PlayingXI : list obj;
  team2PlayingXI : list obj;
  squadPlayers : list obj
}.

(** The fields [enhancedData.data] adds to [matchData.data]. *)
Record enrichment : Type := Enrichment {
  en_team1Squad : list obj;
  en_team2Squad : list obj;
  en_team1PlayingXI : list obj;
  en_team2PlayingXI : list obj;
  en_players : list jsItem;
  en_battingData : option battingData;
  en_tossWinner : jsval;
  en_tossChoice : jsval;
  en_matchWinner : jsval
}.

(** What [getMatchDetails] returns and caches: the match-info payload,
    enhanced or bare. *)
Record matchDetail : Type := MatchDetail {
  md_matchData : payload matchInfoData;
  md_enhanced : option enrichment
}.

Section Classification.

(** The time value [new Date(s)] has for a string, [None] for an invalid
    date (whose time value is [NaN]). The parser belongs to the engine. *)
Context (parseDate : string -> option Z).

(** [new Date(a.dateTimeGMT || a.date || 0)] *)
Definition matchDate (a : matchInfo) : option Z :=
  match JsString.orStr (dateTimeGMT a) (date a) with
  | Some s => if JsString.truthyStr (Some s) then parseDate s else Some 0
  | None => Some 0
  end.

(** The comparator [(a, b) => dateB - dateA]; a [NaN] difference counts as
    [+0] for [Array.prototype.sort]. *)
Definition compareByDateDesc (a b : matchInfo) : Z :=
  match matchDate a, matchDate b with
  | Some dateA, Some dateB => dateB - dateA
  | _, _ => 0
  end.

(** [Array.prototype.sort] is a stable sort: for a consistent comparator
    its result is the one of this insertion sort. (With an invalid date the
    comparator above is not consistent, and the language leaves the order
    to the engine; like the engine's search for runs, the insertion sort
    leaves a list as it stands when each element compares as not after the
    next.) *)
Fixpoint insertSorted {A} (cmp : A -> A -> Z) (x : A) (l : list A) : list A :=
  match l with
  | [] => [x]
  | y :: l' => if cmp x y <=? 0 then x :: y :: l' else y :: insertSorted cmp x l'
  end.

Fixpoint sortBy {A} (cmp : A -> A -> Z) (l : list A) : list A :=
  match l with
  | [] => []
  | x :: l' => insertSorted cmp x (sortBy cmp l')
  end.

(** The date a match is sorted by, when its date string is valid. *)
Definition hasValidDate (m : matchInfo) : Prop := is_Some (matchDate m).
Definition dateKey (m : matchInfo) : Z := default 0 (matchDate m).

(** [a] is not older than [b]. *)
Definition notOlder (a b : matchInfo) : Prop := dateKey b <= dateKey a.

(** [match.score && Array.isArray(match.score) && match.score.length > 0] *)
Definition hasScore (m : matchInfo) : bool :=
  match score m with
  | Some (_ :: _) => true
  | _ => false
  end.

Definition isTrue (b : option bool) : bool :=
  match b with Some true => true | _ => false end.

Definition isFalse (b : option bool) : bool :=
  match b with Some false => true | _ => false end.

(** The filter of [updateCurrentMatchesCache]. *)
Definition isLiveOrCompletedWithScore (m : matchInfo) : bool :=
  let isLive := isTrue (matchStarted m) && isFalse (matchEnded m) in
  let isCompletedWithScore :=
    isTrue (matchStarted m) && isTrue (matchEnded m) && hasScore m in
  isLive || isCompletedWithScore.

(** [sortedLive]: filter, sort by date descending, [slice(0, 10)]. *)
Definition sortedLive (allMatches : list matchInfo) : list matchInfo :=
  take 10 (sortBy compareByDateDesc
             (List.filter isLiveOrCompletedWithScore allMatches)).

(** [upcomingMatches]: filter on [matchStarted === false], [slice(0, 20)]. *)
Definition upcomingMatches (allMatches : list matchInfo) : list matchInfo :=
  take 20 (List.filter (fun m => isFalse (matchStarted m)) allMatches).

End Classification.

(** ** The Current region as the specification states it

    Written from the words of the specification, to be compared with
    [sortedLive]: which matches are wanted, and the date/time they are
    ordered by. A match has started when its [matchStarted] is [true]; it
    has ended when its [matchEnded] is [true] and has not when it is
    [false]. *)

Module Stated.

Section Stated.

Context (parseDate : string -> option Z).

(** (started and not ended) or (started and ended and a non-empty score
    array) *)
Definition wanted (m : matchInfo) : Prop :=
  (matchStarted m = Some true /\ matchEnded m = Some false) \/
  (matchStarted m = Some true /\ matchEnded m = Some true /\
   exists inning rest, score m = Some (inning :: rest)).

#[global] Instance wanted_dec m : Decision (wanted m).
Proof.
  unfold wanted.
  destruct (matchStarted m) as [[|]|];
    [|right; intros [[? _]|[? _]]; discriminate ..].
  destruct (matchEnded m) as [[|]|].
  - destruct (score m) as [[|inning rest]|].
    + right. intros [[_ ?]|(_ & _ & ? & ? & ?)]; discriminate.
    + left. right. eauto.
    + right. intros [[_ ?]|(_ & _ & ? & ? & ?)]; discriminate.
  - left. left. done.
  - right. intros [[_ ?]|(_ & ? & _)]; discriminate.
Defined.

(** The date/time string of a match: its [dateTimeGMT], or its [date] when
    it has no [dateTimeGMT]; an empty string counts as none. *)
Definition dateText (m : matchInfo) : option string :=
  match dateTimeGMT m with
  | Some (String c s) => Some (String c s)
  | _ =>
      match date m with
      | Some (String c s) => Some (String c s)
      | _ => None
      end
  end.

(** The date/time of a match: the time value of its date/time string, none
    when that string is not a date; a match without a date/time string
    counts as dated at the epoch. *)
Definition dateOf (m : matchInfo) : option Z :=
  match dateText m with
  | Some s => parseDate s
  | None => Some 0
  end.

Definition dated (m : matchInfo) : Prop := is_Some (dateOf m).

(** Both matches have a date/time, and [a]'s is not before [b]'s. *)
Definition notBefore (a b : matchInfo) : Prop :=
  exists ta tb, dateOf a = Some ta /\ dateOf b = Some tb /\ tb <= ta.

End Stated.

End Stated.

(** ** The match enricher: pure parts *)

Module Enricher.

Import JsString.

(** An object literal, from its properties. *)
Definition object (props : list (string * jsval)) : obj := list_to_map props.

(** [formatPlayers]: the seven fields kept of a squad player. *)
Definition formatPlayer (player : obj) : obj :=
  object [("name", prop player "name");
          ("id", prop player "id");
          ("role", prop player "role");
          ("battingStyle", prop player "battingStyle");
          ("bowlingStyle", prop player "bowlingStyle");
          ("country", prop player "country");
          ("image", orVal (prop player "playerImg") JNull)]%string.

Definition formatPlayers (players : list obj) : list obj := map formatPlayer players.

(** [extractSquadData], on a payload whose [data] is an array of teams:
    [data[0] || {}], [data[1] || {}], [team.players || []]. *)
Definition extractSquadData (teams : list squadTeam) : squadData :=
  let playersOf (i : nat) :=
    match teams !! i with
    | Some t => default [] (st_players t)
    | None => []
    end in
  let team1Players := playersOf 0%nat in
  let team2Players := playersOf 1%nat in
  SquadData (formatPlayers team1Players)
            (formatPlayers team2Players)
            (formatPlayers (take 11 team1Players))
            (formatPlayers (take 11 team2Players))
            (formatPlayers team1Players ++ formatPlayers team2Players).

(** The objects among the items whose [name] is truthy
    ([typeof x === 'object' && x.name]). *)
Definition namedObjects (items : list jsItem) : list obj :=
  omap (fun it => match it with
                  | ItemObj o => if truthy (prop o "name") then Some o else None
                  | ItemStr _ => None
                  end) items.

Definition scoreBatsman (batsman : obj) : obj :=
  object [("name", prop batsman "name");
          ("runs", prop batsman "r");
          ("balls", prop batsman "b");
          ("fours", prop batsman "4s");
          ("sixes", prop batsman "6s");
          ("strikeRate", prop batsman "sr");
          ("role", JStr "Batsman");
          ("image", orVal (orVal (prop batsman "image") (prop batsman "img")) JNull)]%string.

Definition scoreBowler (bowler : obj) : obj :=
  object [("name", prop bowler "name");
          ("overs", prop bowler "o");
          ("runs", prop bowler "r");
          ("wickets", prop bowler "w");
          ("maidens", prop bowler "m");
          ("economy", prop bowler "econ");
          ("role", JStr "Bowler");
          ("image", orVal (orVal (prop bowler "image") (prop bowler "img")) JNull)]%string.

(** [extractPlayersFromScore(matchData.data.score || [])] *)
Definition extractPlayersFromScore (scoreArray : option (list scoreInning)) : list obj :=
  flat_map (fun inning =>
              map scoreBatsman (namedObjects (default [] (batsmen inning))) ++
              map scoreBowler (namedObjects (default [] (bowlers inning))))
           (default [] scoreArray).

Definition scorecardBatsman (battingEntry : battingEntry) : option obj :=
  match batsman battingEntry with
  | Some b =>
      if truthy (prop b "name") then
        Some (object [("name", prop b "name");
                      ("id", prop b "id");
                      ("runs", prop (be_fields battingEntry) "r");
                      ("balls", prop (be_fields battingEntry) "b");
                      ("fours", prop (be_fields battingEntry) "4s");
                      ("sixes", prop (be_fields battingEntry) "6s");
                      ("strikeRate", prop (be_fields battingEntry) "sr");
                      ("role", JStr "Batsman");
                      ("image", JNull)]%string)
      else None
  | None => None
  end.

Definition scorecardBowler (bowlingEntry : bowlingEntry) : option obj :=
  match bowler bowlingEntry with
  | Some b =>
      if truthy (prop b "name") then
        Some (object [("name", prop b "name");
                      ("id", prop b "id");
                      ("overs", prop (bw_fields bowlingEntry) "o");
                      ("runs", prop (bw_fields bowlingEntry) "r");
                      ("wickets", prop (bw_fields bowlingEntry) "w");
                      ("maidens", prop (bw_fields bowlingEntry) "m");
                      ("economy", prop (bw_fields bowlingEntry) "eco");
                      ("role", JStr "Bowler");
                      ("image", JNull)]%string)
      else None
  | None => None
  end.

(** The innings of a scorecard payload: [scorecardData.data.scorecard || []]
    when [scorecardData] and its [data] are present. *)
Definition inningsOf (scorecardData : option (payload scorecardDoc)) : list inning :=
  match scorecardData with
  | Some p => match pdata p with
              | Some doc => default [] (scorecard doc)
              | None => []
              end
  | None => []
  end.

(** [extractPlayersFromScorecard] *)
Definition extractPlayersFromScorecard
    (scorecardData : option (payload scorecardDoc)) : list obj :=
  flat_map (fun inning =>
              omap scorecardBatsman (default [] (batting inning)) ++
              omap scorecardBowler (default [] (bowling inning)))
           (inningsOf scorecardData).

(** *** The player merge *)

(** [allPlayersMap], a [Map] from lower-cased names to player objects:
    the entries, and the keys in insertion order. *)
Record playerMap : Type := PlayerMap {
  entries : gmap string obj;
  order : list string
}.

Definition emptyMap : playerMap := PlayerMap ∅ [].

(** [map.set(key, value)]: a new key goes last, a known key keeps its
    place. *)
Definition mapSet (key : string) (value : obj) (m : playerMap) : playerMap :=
  PlayerMap (<[key := value]> (entries m))
            (match entries m !! key with
             | Some _ => order m
             | None => order m ++ [key]
             end).

(** [Array.from(map.values())] *)
Definition mapValues (m : playerMap) : list obj :=
  omap (fun key => entries m !! key) (order m).

(** Squad source: [allPlayersMap.set(name.toLowerCase(), { ...player })]. *)
Definition addSquadPlayer (m : playerMap) (player : obj) : playerMap :=
  match nameOf player with
  | Some name => mapSet (toLowerCase name) player m
  | None => m
  end.

(** Scorecard source: a new player is added; for a known one,
    [{ ...existing, ...player, image: existing.image || player.image }]. *)
Definition addScorecardPlayer (m : playerMap) (player : obj) : playerMap :=
  match nameOf player with
  | Some name =>
      let key := toLowerCase name in
      match entries m !! key with
      | None => mapSet key player m
      | Some existing =>
          mapSet key
            (<["image" := orVal (prop existing "image") (prop player "image")]>
               (spread existing player)) m
      end
  | None => m
  end.

(** Live-score source: a new player is added; for a known one,
    [{ ...existing, ...player }]. *)
Definition addScorePlayer (m : playerMap) (player : obj) : playerMap :=
  match nameOf player with
  | Some name =>
      let key := toLowerCase name in
      match entries m !! key with
      | None => mapSet key player m
      | Some existing => mapSet key (spread existing player) m
      end
  | None => m
  end.

(** [typeof player === 'string' ? player
      : (player.name || player.playerName || player.player)] *)
Definition matchDataPlayerName (player : jsItem) : jsval :=
  match player with
  | ItemStr s => JStr s
  | ItemObj o => orVal (orVal (prop o "name") (prop o "playerName")) (prop o "player")
  end.

(** Match-info source: only players whose key is not in the map yet. *)
Definition addMatchDataPlayer (m : playerMap) (player : jsItem) : playerMap :=
  match matchDataPlayerName player with
  | JStr playerName =>
      if negb (String.eqb playerName "") &&
         negb (String.eqb playerName "Unknown Player")
      then
        let key := toLowerCase playerName in
        match entries m !! key with
        | None =>
            mapSet key
              (match player with
               | ItemStr _ => object [("name"%string, JStr playerName)]
               | ItemObj o => o
               end) m
        | Some _ => m
        end
      else m
  | _ => m
  end.

(** The four passes, in the order of the source: squad, scorecard, live
    score, match info. *)
Definition mergePlayers (playersFromSquad playersFromScorecard playersFromScore : list obj)
    (playersFromMatchData : list jsItem) : playerMap :=
  let m1 := foldl addSquadPlayer emptyMap playersFromSquad in
  let m2 := foldl addScorecardPlayer m1 playersFromScorecard in
  let m3 := foldl addScorePlayer m2 playersFromScore in
  foldl addMatchDataPlayer m3 playersFromMatchData.

(** The key a player object is merged under, if it has a name. *)
Definition keyOf (player : obj) : option string :=
  toLowerCase <$> nameOf player.

(** The merge seen from one key: what the scorecard pass and the live-score
    pass make of the entry under the key of [player]. *)
Definition mergeScorecard (existing : option obj) (player : obj) : option obj :=
  Some (match existing with
        | None => player
        | Some existing =>
            <["image" := orVal (prop existing "image") (prop player "image")]>
              (spread existing player)
        end).

Definition mergeScore (existing : option obj) (player : obj) : option obj :=
  Some (match existing with
        | None => player
        | Some existing => spread existing player
        end).

(** The records of a source that are merged under [key]. *)
Definition recordsOf (key : string) (players : list obj) : list obj :=
  filter (fun p => keyOf p = Some key) players.

(** *** The current batting state *)

(** [entry.dismissal], tested for truthiness. *)
Definition isDismissed (entry : battingEntry) : bool :=
  truthy (prop (be_fields entry) "dismissal").

(** [batting.some(entry => entry.batsman && !entry.dismissal)] *)
Definition hasActiveBatsman (inn : inning) : bool :=
  existsb (fun entry => match batsman entry with
                        | Some _ => negb (isDismissed entry)
                        | None => false
                        end)
          (default [] (batting inn)).

(** The position of [currentInning] in the scorecard: the first inning with
    a batter who is not dismissed, else the last inning. (The source finds
    the inning and then takes [scorecard.indexOf] of it: the innings of a
    parsed payload are distinct objects, so this is the position found.) *)
Definition currentInningIndex (scorecard : list inning) : nat :=
  match list_find (fun inn => hasActiveBatsman inn = true) scorecard with
  | Some (i, _) => i
  | None => (length scorecard - 1)%nat
  end.

(** The [batsmanData] of an entry that has [entry.batsman] and
    [entry.batsman.name]; [None] for the entries [forEach] skips. *)
Definition batsmanDataOf (entry : battingEntry) : option batsmanData :=
  match batsman entry with
  | Some b =>
      match nameOf b with
      | Some name =>
          Some (BatsmanData name
                  (orVal (prop (be_fields entry) "r") (JNum 0))
                  (orVal (prop (be_fields entry) "b") (JNum 0))
                  (orVal (prop (be_fields entry) "dismissal") JNull))
      | None => None
      end
  | None => None
  end.

(** The first squad member with a name that is not in [allBattedNames]. *)
Fixpoint nextBatsmanOf (allBattedNames : gset string) (teamSquad : list obj)
    : option string :=
  match teamSquad with
  | [] => None
  | player :: rest =>
      match nameOf player with
      | Some playerName =>
          if bool_decide (toLowerCase playerName ∈ allBattedNames)
          then nextBatsmanOf allBattedNames rest
          else Some playerName
      | None => nextBatsmanOf allBattedNames rest
      end
  end.

Definition bowlerDataOf (entry : bowlingEntry) : bowlerData :=
  BowlerData
    (orVal (orVal (match bowler entry with
                   | Some b => prop b "name"
                   | None => JUndefined
                   end)
                  (prop (bw_fields entry) "name"))
           (JStr ""))
    (orVal (prop (bw_fields entry) "o") (JNum 0))
    (orVal (prop (bw_fields entry) "r") (JNum 0))
    (orVal (prop (bw_fields entry) "w") (JNum 0)).

(** [matchData.data.score?.[i]?.[f]] *)
Definition scoreField (info : matchInfoData) (i : nat) (f : string) : jsval :=
  match mi_score info with
  | Some sc => match sc !! i with
               | Some line => prop (si_fields line) f
               | None => JUndefined
               end
  | None => JUndefined
  end.

(** [organizeBattingData(scorecardData, squadData, matchData)]; [None] is
    the source's [null]. *)
Definition organizeBattingData (scorecardData : option (payload scorecardDoc))
    (squad : option squadData) (info : matchInfoData) : option battingData :=
  let scorecard := inningsOf scorecardData in
  let idx := currentInningIndex scorecard in
  match scorecard !! idx with
  | None => None
  | Some currentInning =>
      let batting := default [] (batting currentInning) in
      let bowling := default [] (bowling currentInning) in
      let teams := default [] (mi_teams info) in
      let teamName :=
        orVal (orVal (prop (in_fields currentInning) "team")
                     (default JUndefined (teams !! idx)))
              (JStr "") in
      let bowlingTeam :=
        orVal (orVal (default JUndefined
                        (List.find (fun t => bool_decide (t <> teamName)) teams))
                     (default JUndefined (teams !! 1%nat)))
              (JStr "") in
      let currentBatsmen :=
        omap batsmanDataOf (List.filter (fun e => negb (isDismissed e)) batting) in
      let dismissedBatsmen :=
        omap batsmanDataOf (List.filter isDismissed batting) in
      let allBattedNames : gset string :=
        list_to_set (map (fun d => toLowerCase (bd_name d))
                         (omap batsmanDataOf batting)) in
      let teamSquad :=
        match squad with
        | Some sq => if decide (idx = 0%nat) then team1Squad sq else team2Squad sq
        | None => []
        end in
      let currentBowlers :=
        List.filter (fun b => truthy (bo_name b))
                    (map bowlerDataOf (take 2 bowling)) in
      let total (f g : string) :=
        orVal (orVal (prop (in_fields currentInning) f) (scoreField info idx g))
              (JNum 0) in
      Some (BattingData teamName bowlingTeam
              (take 2 currentBatsmen)
              (nextBatsmanOf allBattedNames teamSquad)
              (take 5 dismissedBatsmen)
              currentBowlers
              (total "totalRuns" "r")
              (total "totalWickets" "w")
              (total "totalOvers" "o"))
  end.

End Enricher.

(** ** Cache store and service state *)

(** [{ data, timestamp }], an entry of [cache.matchDetails]. *)
Record detailEntry : Type := DetailEntry {
  de_data : matchDetail;
  de_timestamp : Z
}.

(** The [cache] object. [current] and [upcoming] are [null] or
    [{ data: [...] }]. *)
Record cacheState : Type := CacheState {
  current : option (list matchInfo);
  upcoming : option (list matchInfo);
  matchDetails : gmap string detailEntry;
  lastFetchCurrent : option Z;
  lastFetchUpcoming : option Z;
  isUpdatingCurrent : bool;
  isUpdatingUpcoming : bool
}.

(** The module-level variables of the service: the key pool, the throttle
    timestamp and the cache. (The series cache is kept apart, see
    [Series.state].) *)
Record world : Type := World {
  keys : KeyPool.pool;
  lastApiCallTime : Z;
  cache : cacheState
}.

Definition emptyCache : cacheState :=
  CacheState None None ∅ None None false false.

(** The state at module load, with the configured keys. *)
Definition initWorld (configured : list string) : world :=
  World (KeyPool.initPool configured) 0 emptyCache.

Definition setKeys (p : KeyPool.pool) (w : world) : world :=
  World p (lastApiCallTime w) (cache w).

Definition setLastApiCallTime (t : Z) (w : world) : world :=
  World (keys w) t (cache w).

Definition setCache (c : cacheState) (w : world) : world :=
  World (keys w) (lastApiCallTime w) c.

(** The two list regions. *)
Inductive region : Type := Current | Upcoming.

#[global] Instance region_eq_dec : EqDecision region.
Proof. solve_decision. Defined.

Definition regionData (r : region) (c : cacheState) : option (list matchInfo) :=
  match r with Current => current c | Upcoming => upcoming c end.

Definition isUpdating (r : region) (c : cacheState) : bool :=
  match r with Current => isUpdatingCurrent c | Upcoming => isUpdatingUpcoming c end.

(** [cache.isUpdatingCurrent = b] / [cache.isUpdatingUpcoming = b] *)
Definition setUpdating (r : region) (b : bool) (c : cacheState) : cacheState :=
  match r with
  | Current =>
      CacheState (current c) (upcoming c) (matchDetails c)
                 (lastFetchCurrent c) (lastFetchUpcoming c) b (isUpdatingUpcoming c)
  | Upcoming =>
      CacheState (current c) (upcoming c) (matchDetails c)
                 (lastFetchCurrent c) (lastFetchUpcoming c) (isUpdatingCurrent c) b
  end.

(** [cache.current = { data }; cache.lastFetch.current = Date.now()] and the
    same for the other region. *)
Definition storeRegion (r : region) (l : list matchInfo) (now : Z)
    (c : cacheState) : cacheState :=
  match r with
  | Current =>
      CacheState (Some l) (upcoming c) (matchDetails c)
                 (Some now) (lastFetchUpcoming c)
                 (isUpdatingCurrent c) (isUpdatingUpcoming c)
  | Upcoming =>
      CacheState (current c) (Some l) (matchDetails c)
                 (lastFetchCurrent c) (Some now)
                 (isUpdatingCurrent c) (isUpdatingUpcoming c)
  end.

(** The two assignments as updates of the service state. *)
Definition setFlag (r : region) (b : bool) (w : world) : world :=
  setCache (setUpdating r b (cache w)) w.

Definition storeMatches (r : region) (l : list matchInfo) (now : Z) (w : world)
    : world :=
  setCache (storeRegion r l now (cache w)) w.

(** [cache.matchDetails.set(matchId, { data, timestamp: Date.now() })] *)
Definition storeDetail (matchId : string) (d : matchDetail) (now : Z)
    (c : cacheState) : cacheState :=
  CacheState (current c) (upcoming c)
             (<[matchId := DetailEntry d now]> (matchDetails c))
             (lastFetchCurrent c) (lastFetchUpcoming c)
             (isUpdatingCurrent c) (isUpdatingUpcoming c).

Definition storeDetailW (matchId : string) (d : matchDetail) (now : Z)
    (w : world) : world :=
  setCache (storeDetail matchId d now (cache w)) w.

(** ** Asynchronous functions

    An [async] function is a tree of synchronous steps on the service state
    and of suspension points. Between two suspension points a function runs
    alone (one thread, no preemption); at a suspension point any other task
    may run. *)

Inductive prog (R : Type) : Type :=
  | Ret (r : R)
  | Throw (e : jsError)
  (** a synchronous step: reads the state and the clock, writes the state *)
  | Sync {X : Type} (f : world -> Z -> world * X) (k : X -> prog R)
  (** [await] of a promise that is already settled: one turn of the queue *)
  | AwaitTick (k : prog R)
  (** [await new Promise(resolve => setTimeout(resolve, ms))] *)
  | AwaitTimer (ms : Z) (k : prog R)
  (** [await axios.get(url, { params: { apikey, id } })], before the
      outcome is turned into a value or an exception *)
  | AwaitHttp (url : string) (apikey : string) (id : option string)
              (k : httpOutcome -> prog R).

Arguments Ret {R} _.
Arguments Throw {R} _.
Arguments Sync {R X} _ _.
Arguments AwaitTick {R} _.
Arguments AwaitTimer {R} _ _.
Arguments AwaitHttp {R} _ _ _ _.

Fixpoint bind {A B} (p : prog A) (f : A -> prog B) : prog B :=
  match p with
  | Ret a => f a
  | Throw e => Throw e
  | Sync g k => Sync g (fun x => bind (k x) f)
  | AwaitTick k => AwaitTick (bind k f)
  | AwaitTimer ms k => AwaitTimer ms (bind k f)
  | AwaitHttp url key id k => AwaitHttp url key id (fun out => bind (k out) f)
  end.

(** [try { p } catch (error) { h error }] *)
Fixpoint tryCatch {A} (p : prog A) (h : jsError -> prog A) : prog A :=
  match p with
  | Ret a => Ret a
  | Throw e => h e
  | Sync g k => Sync g (fun x => tryCatch (k x) h)
  | AwaitTick k => AwaitTick (tryCatch k h)
  | AwaitTimer ms k => AwaitTimer ms (tryCatch k h)
  | AwaitHttp url key id k => AwaitHttp url key id (fun out => tryCatch (k out) h)
  end.

(** [try { p } finally { fin }], for a synchronous [fin] that neither
    returns nor throws: a state update. *)
Fixpoint tryFinally {A} (p : prog A) (fin : world -> world) : prog A :=
  match p with
  | Ret a => Sync (fun w _ => (fin w, tt)) (fun _ => Ret a)
  | Throw e => Sync (fun w _ => (fin w, tt)) (fun _ => Throw e)
  | Sync g k => Sync g (fun x => tryFinally (k x) fin)
  | AwaitTick k => AwaitTick (tryFinally k fin)
  | AwaitTimer ms k => AwaitTimer ms (tryFinally k fin)
  | AwaitHttp url key id k => AwaitHttp url key id (fun out => tryFinally (k out) fin)
  end.

(** Sequencing is written [x ← p; q] and [p ;; q]. *)
#[global] Instance prog_ret : MRet prog := @Ret.
#[global] Instance prog_bind : MBind prog := fun A B f p => bind p f.

(** [Date.now()] *)
Definition dateNow : prog Z := Sync (fun w now => (w, now)) Ret.

(** Reading and updating module-level variables. *)
Definition getW {X} (f : world -> X) : prog X := Sync (fun w _ => (w, f w)) Ret.
Definition modW (f : world -> world) : prog unit :=
  Sync (fun w _ => (f w, tt)) Ret.

(** [await f()] for an [async] function [f]: the caller continues one turn
    of the queue after [f] has settled. *)
Definition awaitCall {A} (p : prog A) : prog A :=
  bind p (fun a => AwaitTick (Ret a)).

(** Every synchronous step of [p], on every path, leaves [proj] of the
    service state as it is. *)
Fixpoint preserves {R X} (proj : world -> X) (p : prog R) : Prop :=
  match p with
  | Ret _ | Throw _ => True
  | Sync f k =>
      (forall w now, proj (fst (f w now)) = proj w) /\
      forall x, preserves proj (k x)
  | AwaitTick k | AwaitTimer _ k => preserves proj k
  | AwaitHttp _ _ _ k => forall out, preserves proj (k out)
  end.

(** ** Running tasks *)

(** Where a task stands after a synchronous run. *)
Inductive susp (R : Type) : Type :=
  | SDone (r : R)
  | SFail (e : jsError)
  | STick (k : prog R)
  | STimer (due : Z) (k : prog R)
  | SHttp (url : string) (apikey : string) (id : option string)
          (k : httpOutcome -> prog R).

Arguments SDone {R} _.
Arguments SFail {R} _.
Arguments STick {R} _.
Arguments STimer {R} _ _.
Arguments SHttp {R} _ _ _ _.

(** Runs [p] from state [w] with the clock at [now] up to its next
    suspension point or its end. *)
Fixpoint runSync {R} (p : prog R) (w : world) (now : Z) : world * susp R :=
  match p with
  | Ret r => (w, SDone r)
  | Throw e => (w, SFail e)
  | Sync f k => let '(w', x) := f w now in runSync (k x) w' now
  | AwaitTick k => (w, STick k)
  | AwaitTimer ms k => (w, STimer (now + ms) k)
  | AwaitHttp url key id k => (w, SHttp url key id k)
  end.

(** What wakes a suspended task: a turn of the queue or a timer firing with
    the clock at [now], or the outcome of its upstream call. *)
Inductive event : Type :=
  | EvWake (now : Z)
  | EvResponse (now : Z) (out : httpOutcome).

Definition eventTime (ev : event) : Z :=
  match ev with EvWake t => t | EvResponse t _ => t end.

(** The continuation an event resumes, if the event is the one the task
    waits for; a timer does not fire before it is due. *)
Definition resume {R} (s : susp R) (ev : event) : option (prog R) :=
  match s, ev with
  | STick k, EvWake _ => Some k
  | STimer due k, EvWake now => if due <=? now then Some k else None
  | SHttp _ _ _ k, EvResponse _ out => Some (k out)
  | _, _ => None
  end.

(** One step of a task. *)
Definition stepTask {R} (s : susp R) (w : world) (ev : event)
    : option (world * susp R) :=
  match resume s ev with
  | Some k => Some (runSync k w (eventTime ev))
  | None => None
  end.

(** ** The service functions *)

(** What the exported functions return: [undefined], [{ data: [...] }] or
    a match detail. *)
Inductive retval : Type :=
  | RUndefined
  | RList (l : list matchInfo)
  | RDetail (d : matchDetail).

(** [getApiKey()] and [markKeyAsRateLimited(key)] on the module state. *)
Definition getApiKeyP : prog (option string) :=
  Sync (fun w now =>
          let '(p, k) := KeyPool.getApiKey (keys w) now in (setKeys p w, k))
       Ret.

Definition markKeyAsRateLimitedP (key : string) : prog unit :=
  Sync (fun w now =>
          (setKeys (KeyPool.markKeyAsRateLimited (keys w) key now) w, tt))
       Ret.

(** [lastApiCallTime = Date.now()] *)
Definition stampCall : prog unit :=
  now ← dateNow;
  modW (setLastApiCallTime now).

(** [throttleApiCall] *)
Definition throttleApiCall : prog unit :=
  now ← dateNow;
  last ← getW lastApiCallTime;
  match Throttle.waitTime last now with
  | Some waitTime => AwaitTimer waitTime (Ret tt)
  | None => Ret tt
  end ;;
  stampCall.

(** What the key-rotation loop does with the outcome of one attempt:
    a response ends the loop; a rate-limited error marks the key, takes the
    next one, sleeps a second and goes on with [retry]; another error is
    thrown. *)
Definition onOutcome
    (retry : string -> option jsError -> prog (string * option httpBody * option jsError))
    (apiKey : string) (lastError : option jsError) (out : httpOutcome)
    : prog (string * option httpBody * option jsError) :=
  match out with
  | HttpOk body => Ret (apiKey, Some body, lastError)
  | HttpErr error =>
      if isRateLimitedError error then
        markKeyAsRateLimitedP apiKey ;;
        next ← getApiKeyP;
        match next with
        | None => Throw (plainError "All API keys are rate limited")
        | Some apiKey' => AwaitTimer 1000 (retry apiKey' (Some error))
        end
      else Throw error
  end.

(** The key-rotation loop around one upstream call
    ([for (let attempt = 0; attempt < maxKeyAttempts; attempt++)]): [fuel]
    is [maxKeyAttempts - attempt]. It ends with the key in use, the response
    if one arrived, and [lastError]. *)
Fixpoint fetchWithRotation (url : string) (id : option string) (fuel : nat)
    (apiKey : string) (lastError : option jsError)
    : prog (string * option httpBody * option jsError) :=
  match fuel with
  | O => Ret (apiKey, None, lastError)
  | S fuel' =>
      AwaitHttp url apiKey id (fun out =>
        onOutcome (fetchWithRotation url id fuel') apiKey lastError out)
  end.

(** The matches of a body that passes
    [response.data && response.data.status === 'success' &&
     response.data.data && Array.isArray(response.data.data)]. *)
Definition successMatches (body : httpBody) : option (list matchInfo) :=
  match body with
  | BodyMatches p =>
      if decide (status p = JStr "success") then pdata p else None
  | _ => None
  end.

Definition bodyStatus (body : httpBody) : jsval :=
  match body with
  | BodyEmpty => JUndefined
  | BodyMatches p => status p
  | BodyInfo p => status p
  | BodySquad p => status p
  | BodyScorecard p => status p
  end.

Definition bodyReason (body : httpBody) : jsval :=
  match body with
  | BodyEmpty => JUndefined
  | BodyMatches p => reason p
  | BodyInfo p => reason p
  | BodySquad p => reason p
  | BodyScorecard p => reason p
  end.

(** [response.data && response.data.status === 'failure'] with a reason
    that mentions a rate limit ([reason = response.data.reason || '']). *)
Definition failureIsRateLimited (body : httpBody) : bool :=
  match body with
  | BodyEmpty => false
  | _ =>
      bool_decide (bodyStatus body = JStr "failure") &&
      match orVal (bodyReason body) (JStr "") with
      | JStr reason => mentionsRateLimit reason
      | _ => false
      end
  end.

(** The [ReferenceError] of a [catch] block that reads [apiKey], a [let] of
    the [try] block. *)
Definition referenceError : jsError :=
  JsError (Some "apiKey is not defined") None None None.

(** The [TypeError] of reading [matchData.status] on a missing body. *)
Definition typeError : jsError :=
  JsError (Some "Cannot read properties of undefined") None None None.

Definition MATCH_DETAILS_CACHE_DURATION : Z := 5 * 60 * 1000.

(** [makeApiCall(url, { id: matchId })] of [getMatchDetails]: every call
    starts with the [apiKey] chosen at the top of [getMatchDetails]. *)
Definition makeApiCall (apiKey : string) (url : string) (matchId : string)
    : prog httpBody :=
  maxKeyAttempts ← getW (fun w => length (KeyPool.apiKeys (keys w)));
  '(_, response, lastError) ←
    fetchWithRotation url (Some matchId) maxKeyAttempts apiKey None;
  match response with
  | Some body => Ret body
  | None =>
      Throw (default (plainError "Failed to fetch after trying all keys")
                     lastError)
  end.

(** [matchInfoResponse.data] read as a match-info payload; [None] when the
    body is missing. A body of another shape is a payload without [data]. *)
Definition asMatchData (body : httpBody) : option (payload matchInfoData) :=
  match body with
  | BodyEmpty => None
  | BodyInfo p => Some p
  | _ => Some (Payload (bodyStatus body) (bodyReason body) None)
  end.

(** The squad step: attempted when [matchData.data.hasSquad] is truthy,
    never fatal. *)
Definition fetchSquad (apiKey matchId : string) (info : matchInfoData)
    : prog (option squadData) :=
  if truthy (prop (mi_fields info) "hasSquad") then
    tryCatch
      (awaitCall throttleApiCall ;;
       squadResponse ← awaitCall (makeApiCall apiKey "/match_squad" matchId);
       match squadResponse with
       | BodySquad p =>
           match pdata p with
           | Some teams => Ret (Some (Enricher.extractSquadData teams))
           | None => Ret None
           end
       | _ => Ret None
       end)
      (fun _ => Ret None)
  else Ret None.

(** One scorecard step: [scorecardData] when the body and its [data] are
    present, never fatal. *)
Definition fetchScorecard (apiKey matchId url : string)
    : prog (option (payload scorecardDoc)) :=
  tryCatch
    (awaitCall throttleApiCall ;;
     scorecardResponse ← awaitCall (makeApiCall apiKey url matchId);
     match scorecardResponse with
     | BodyScorecard p =>
         match pdata p with
         | Some _ => Ret (Some p)
         | None => Ret None
         end
     | _ => Ret None
     end)
    (fun _ => Ret None).

(** [enhancedData.data]'s added fields, from what was fetched. *)
Definition enhance (info : matchInfoData) (squad : option squadData)
    (scorecardData : option (payload scorecardDoc)) : enrichment :=
  let playersFromScore := Enricher.extractPlayersFromScore (mi_score info) in
  let playersFromScorecard := Enricher.extractPlayersFromScorecard scorecardData in
  let playersFromSquad :=
    match squad with Some sq => squadPlayers sq | None => [] end in
  let rawPlayers :=
    match mi_players info with
    | Some l => l
    | None => default [] (mi_playerInfo info)
    end in
  let allPlayers :=
    Enricher.mapValues
      (Enricher.mergePlayers playersFromSquad playersFromScorecard
                             playersFromScore rawPlayers) in
  let squadList (f : squadData -> list obj) :=
    match squad with Some sq => f sq | None => [] end in
  Enrichment
    (squadList team1Squad) (squadList team2Squad)
    (squadList team1PlayingXI) (squadList team2PlayingXI)
    (match allPlayers with
     | [] => rawPlayers
     | _ => map ItemObj allPlayers
     end)
    (Enricher.organizeBattingData scorecardData squad info)
    (orVal (prop (mi_fields info) "tossWinner") JNull)
    (orVal (prop (mi_fields info) "tossChoice") JNull)
    (orVal (prop (mi_fields info) "matchWinner") JNull).

(** [cache.matchDetails.set(matchId, { data, timestamp: Date.now() })] and
    [return data]. *)
Definition cacheAndReturn (matchId : string) (d : matchDetail) : prog retval :=
  now ← dateNow;
  modW (storeDetailW matchId d now) ;;
  Ret (RDetail d).

(** The [TypeError] of reading [substring] on [undefined]. *)
Definition substringError : jsError :=
  JsError (Some "Cannot read properties of undefined (reading 'substring')")
          None None None.

(** The [scoreSample] entry of the debug log that precedes the merge:
    [matchData.data.score
       ? JSON.stringify(matchData.data.score[0]).substring(0, 200)
       : 'no score'].
    An array is truthy also when it is empty: [score[0]] is then
    [undefined], [JSON.stringify(undefined)] is [undefined], and reading
    [substring] of it throws. A payload without [score] ([None]) is logged
    as ['no score']. The log stands outside the inner [try] blocks, after
    the squad and scorecard calls. *)
Definition scoreSample (info : matchInfoData) : prog unit :=
  match mi_score info with
  | Some [] => Throw substringError
  | _ => Ret tt
  end.

(** The [try] block of [getMatchDetails] after a cache miss, up to the
    record that is about to be cached: the enhanced one when the match-info
    payload is a success with data (the debug log comes between the
    scorecard calls and the merge), else the bare payload. *)
Definition fetchDetail (matchId : string) : prog matchDetail :=
  awaitCall throttleApiCall ;;
  apiKey ← getApiKeyP;
  match apiKey with
  | None => Throw (plainError "CRICKET_API_KEY is not configured")
  | Some apiKey =>
      matchInfoResponse ← awaitCall (makeApiCall apiKey "/match_info" matchId);
      match asMatchData matchInfoResponse with
      | None => Throw typeError
      | Some matchData =>
          match decide (status matchData = JStr "success"), pdata matchData with
          | left _, Some info =>
              squad ← fetchSquad apiKey matchId info;
              scorecard1 ← fetchScorecard apiKey matchId "/match_scorecard";
              scorecardData ←
                match scorecard1 with
                | Some sc => Ret (Some sc)
                | None => fetchScorecard apiKey matchId "/matchScorecard"
                end;
              scoreSample info ;;
              Ret (MatchDetail matchData (Some (enhance info squad scorecardData)))
          | _, _ => Ret (MatchDetail matchData None)
          end
      end
  end.

(** The [try] block of [getMatchDetails]: a cached entry, fresh or stale,
    is returned as it is; else the record is fetched, cached and
    returned. *)
Definition getMatchDetailsBody (matchId : string) : prog retval :=
  cached ← getW (fun w => matchDetails (cache w) !! matchId);
  now ← dateNow;
  match cached with
  | Some c =>
      if now - de_timestamp c <? MATCH_DETAILS_CACHE_DURATION
      then Ret (RDetail (de_data c))
      else Ret (RDetail (de_data c))
  | None =>
      d ← fetchDetail matchId;
      cacheAndReturn matchId d
  end.

(** The [catch] block of [getMatchDetails]. *)
Definition getMatchDetailsCatch (matchId : string) (error : jsError) : prog retval :=
  cached ← getW (fun w => matchDetails (cache w) !! matchId);
  match cached with
  | Some c => Ret (RDetail (de_data c))
  | None => Throw error
  end.

Definition getMatchDetails (matchId : string) : prog retval :=
  tryCatch (getMatchDetailsBody matchId) (getMatchDetailsCatch matchId).

(** The points a call of [getMatchDetails] can stand at: the result of the
    call, and of every step from there, in whatever state the rest of the
    service has left by then. *)
Inductive detailReach (matchId : string) : susp retval -> Prop :=
  | reach_call w now w' s :
      runSync (getMatchDetails matchId) w now = (w', s) ->
      detailReach matchId s
  | reach_step s w ev w' s' :
      detailReach matchId s ->
      stepTask s w ev = Some (w', s') ->
      detailReach matchId s'.

(** The rest of a call that is still fetching: what is left of
    [fetchDetail], then the caching, in the [try] of [getMatchDetails]. *)
Definition detailCont (matchId : string) (k : prog matchDetail) : prog retval :=
  tryCatch (bind k (cacheAndReturn matchId)) (getMatchDetailsCatch matchId).

Definition fetching (matchId : string) (s : susp retval) : Prop :=
  match s with
  | SDone _ | SFail _ => False
  | STick p | STimer _ p =>
      exists k, p = detailCont matchId k /\
                preserves (fun w => matchDetails (cache w)) k
  | SHttp _ _ _ kk =>
      exists k, kk = (fun out => detailCont matchId (k out)) /\
                forall out, preserves (fun w => matchDetails (cache w)) (k out)
  end.

Section Service.

Context (parseDate : string -> option Z).

(** What each region keeps of the upstream list. *)
Definition classify (r : region) (allMatches : list matchInfo) : list matchInfo :=
  match r with
  | Current => sortedLive parseDate allMatches
  | Upcoming => upcomingMatches allMatches
  end.

(** [return cache.current || { data: [] }] *)
Definition cachedOrEmpty (r : region) : prog retval :=
  getW (fun w => RList (default [] (regionData r (cache w)))).

(** The [catch] block of the refreshes. On a rate-limited error it reads
    [apiKey], which is declared by [let] inside the [try] block and is not
    in scope here: a [ReferenceError] is thrown. *)
Definition refreshCatch (r : region) (error : jsError) : prog retval :=
  if isRateLimitedError error
  then Throw referenceError
  else cachedOrEmpty r.

(** From the response to the [return]. *)
Definition processResponse (r : region) (apiKey : string) (body : httpBody)
    : prog retval :=
  match successMatches body with
  | Some allMatches =>
      let kept := classify r allMatches in
      now ← dateNow;
      modW (storeMatches r kept now) ;;
      Ret (RList kept)
  | None =>
      if failureIsRateLimited body
      then markKeyAsRateLimitedP apiKey ;; cachedOrEmpty r
      else cachedOrEmpty r
  end.

(** After the key-rotation loop: [if (!response) throw lastError || ...]. *)
Definition afterFetch (r : region)
    (res : string * option httpBody * option jsError) : prog retval :=
  let '(apiKey, response, lastError) := res in
  match response with
  | None =>
      Throw (default (plainError "Failed to fetch matches after trying all keys")
                     lastError)
  | Some body => processResponse r apiKey body
  end.

(** The [try] block after [throttleApiCall]. *)
Definition fetchAndStore (r : region) : prog retval :=
  apiKey ← getApiKeyP;
  match apiKey with
  | None => Throw (plainError "CRICKET_API_KEY is not configured")
  | Some apiKey =>
      maxKeyAttempts ← getW (fun w => length (KeyPool.apiKeys (keys w)));
      res ← fetchWithRotation "/matches" None maxKeyAttempts apiKey None;
      afterFetch r res
  end.

(** [try { ... } catch (error) { ... } finally { cache.isUpdatingX = false }] *)
Definition guarded (r : region) (body : prog retval) : prog retval :=
  tryFinally (tryCatch body (refreshCatch r)) (setFlag r false).

(** [updateCurrentMatchesCache] and [updateUpcomingMatchesCache]: the same
    text but for the flag, the region and the classification. *)
Definition updateMatchesCache (r : region) : prog retval :=
  busy ← getW (fun w => isUpdating r (cache w));
  if (busy : bool) then Ret RUndefined
  else
    guarded r
      (modW (setFlag r true) ;;
       awaitCall throttleApiCall ;;
       fetchAndStore r).

Definition updateCurrentMatchesCache : prog retval := updateMatchesCache Current.
Definition updateUpcomingMatchesCache : prog retval := updateMatchesCache Upcoming.

(** The points at which a refresh is suspended, in program order: in the
    throttle's timer; in the turn of the queue after the throttle; in an upstream
    call (with [fuel] attempts left after it); in the one-second pause before
    the next attempt. Each is the rest of [updateMatchesCache] from there. *)
Definition atGate (r : region) : prog retval :=
  guarded r (awaitCall stampCall ;; fetchAndStore r).

Definition pastGate (r : region) : prog retval :=
  guarded r (fetchAndStore r).

Definition onResponse (r : region) (fuel : nat) (apiKey : string)
    (lastError : option jsError) (out : httpOutcome) : prog retval :=
  guarded r
    (res ← onOutcome (fetchWithRotation "/matches" None fuel) apiKey lastError out;
     afterFetch r res).

Definition nextAttempt (r : region) (fuel : nat) (apiKey : string)
    (lastError : option jsError) : prog retval :=
  guarded r
    (res ← fetchWithRotation "/matches" None fuel apiKey lastError;
     afterFetch r res).

Inductive refreshing (r : region) : susp retval -> Prop :=
  | AtGateTimer due :
      refreshing r (STimer due (atGate r))
  | AtGateTick :
      refreshing r (STick (pastGate r))
  | AtFetch fuel apiKey lastError :
      refreshing r (SHttp "/matches" apiKey None (onResponse r fuel apiKey lastError))
  | AtBackoff due fuel apiKey lastError :
      refreshing r (STimer due (nextAttempt r fuel apiKey lastError)).

(** The matches an event brings, when it is a response that passes the
    success test of the refreshes. *)
Definition eventMatches (ev : event) : option (list matchInfo) :=
  match ev with
  | EvResponse _ (HttpOk body) => successMatches body
  | _ => None
  end.

(** A task that has returned or thrown. *)
Definition finished {R} (s : susp R) : Prop :=
  match s with
  | SDone _ | SFail _ => True
  | _ => False
  end.

(** A task run alone: the events that wake it, in order. [None] when an
    event is not the one the task waits for. *)
Fixpoint runTask {R} (s : susp R) (w : world) (evs : list event)
    : option (world * susp R) :=
  match evs with
  | [] => Some (w, s)
  | ev :: evs' =>
      match stepTask s w ev with
      | Some (w', s') => runTask s' w' evs'
      | None => None
      end
  end.

(** A call of a refresh at clock [now] in state [w], then woken by [evs]. *)
Definition refreshRun (r : region) (w : world) (now : Z) (evs : list event)
    : option (world * susp retval) :=
  let '(w1, s1) := runSync (updateMatchesCache r) w now in
  runTask s1 w1 evs.

(** The on-demand refresh of the public queries:
    [try { const result = await update(); return result || { data: [] } }
     catch (error) { return { data: [] } }]. *)
Definition orEmpty (result : retval) : retval :=
  match result with
  | RUndefined => RList []
  | _ => result
  end.

Definition onDemand (update : prog retval) : prog retval :=
  tryCatch
    (result ← awaitCall update;
     Ret (orEmpty result))
    (fun _ => Ret (RList [])).

(** [getCurrentMatches] and [getUpcomingMatches] *)
Definition getMatches (r : region) : prog retval :=
  cached ← getW (fun w => regionData r (cache w));
  match cached with
  | Some (m :: l) => Ret (RList (m :: l))
  | _ => onDemand (updateMatchesCache r)
  end.

Definition getCurrentMatches : prog retval := getMatches Current.
Definition getUpcomingMatches : prog retval := getMatches Upcoming.

(** ** The running service: tasks interleaved on one thread *)

(** The exported functions a task may be a call of. *)
Inductive call : Type :=
  | UpdateCache (r : region)
  | GetMatches (r : region)
  | GetMatchDetails (matchId : string).

Definition callProg (c : call) : prog retval :=
  match c with
  | UpdateCache r => updateMatchesCache r
  | GetMatches r => getMatches r
  | GetMatchDetails matchId => getMatchDetails matchId
  end.

(** Where a public query stands when the refresh it awaits stands at [s]:
    suspended with it, or, once the refresh has settled, one turn of the
    queue away from its own return. *)
Definition onDemandSusp (s : susp retval) : susp retval :=
  match s with
  | SDone result => STick (Ret (orEmpty result))
  | SFail _ => SDone (RList [])
  | STick k => STick (onDemand k)
  | STimer due k => STimer due (onDemand k)
  | SHttp url key id k => SHttp url key id (fun out => onDemand (k out))
  end.

(** A task is REFRESHING region [r] when it is a call of the refresh of
    [r], directly or through the public query, and is suspended inside the
    [try] block. *)
Definition inFlight (r : region) (t : call * susp retval) : Prop :=
  match t with
  | (UpdateCache r', s) => r' = r /\ refreshing r s
  | (GetMatches r', s) =>
      r' = r /\ exists core, refreshing r core /\ s = onDemandSusp core
  | (GetMatchDetails _, _) => False
  end.

(** The two busy flags. *)
Definition flags (c : cacheState) : bool * bool :=
  (isUpdatingCurrent c, isUpdatingUpcoming c).

(** A task that will never touch the busy flags again. *)
Definition flagsLeftAlone (s : susp retval) : Prop :=
  match s with
  | SDone _ | SFail _ => True
  | STick k | STimer _ k => preserves (fun w => flags (cache w)) k
  | SHttp _ _ _ k => forall out, preserves (fun w => flags (cache w)) (k out)
  end.

(** The places a task of each kind can stand at. *)
Definition taskInv (t : call * susp retval) : Prop :=
  match t with
  | (UpdateCache r, s) => refreshing r s \/ finished s
  | (GetMatches r, s) =>
      (exists core, refreshing r core /\ s = onDemandSusp core) \/
      (exists v, s = STick (Ret v)) \/ finished s
  | (GetMatchDetails _, s) => flagsLeftAlone s
  end.

(** An upstream call as the provider sees it: endpoint, credential and the
    clock reading at which it was issued. *)
Record upstreamCall : Type := UpstreamCall {
  uc_url : string;
  uc_apikey : string;
  uc_time : Z
}.

(** The service state, the clock, the tasks started so far (each with the
    point it stands at), and the upstream calls issued so far. *)
Record system : Type := System {
  sys_world : world;
  sys_clock : Z;
  sys_tasks : list (call * susp retval);
  sys_calls : list upstreamCall
}.

(** What happens next: a function is called, or a suspended task is woken. *)
Inductive action : Type :=
  | Invoke (c : call) (now : Z)
  | Deliver (i : nat) (ev : event).

Definition actionTime (a : action) : Z :=
  match a with Invoke _ now => now | Deliver _ ev => eventTime ev end.

(** The upstream call a task has just issued, if it stands at one. *)
Definition issued (s : susp retval) (now : Z) : list upstreamCall :=
  match s with
  | SHttp url key _ _ => [UpstreamCall url key now]
  | _ => []
  end.

(** One step of the service; [None] when the action is not possible (the
    clock would go back, no such task, or not the event the task awaits). *)
Definition sysStep (s : system) (a : action) : option system :=
  if actionTime a <? sys_clock s then None
  else
    match a with
    | Invoke c now =>
        let '(w', t) := runSync (callProg c) (sys_world s) now in
        Some (System w' now (sys_tasks s ++ [(c, t)])
                     (sys_calls s ++ issued t now))
    | Deliver i ev =>
        match sys_tasks s !! i with
        | Some (c, t) =>
            match stepTask t (sys_world s) ev with
            | Some (w', t') =>
                Some (System w' (eventTime ev)
                             (<[i := (c, t')]> (sys_tasks s))
                             (sys_calls s ++ issued t' (eventTime ev)))
            | None => None
            end
        | None => None
        end
    end.

Fixpoint sysRun (s : system) (acts : list action) : option system :=
  match acts with
  | [] => Some s
  | a :: acts' =>
      match sysStep s a with
      | Some s' => sysRun s' acts'
      | None => None
      end
  end.

(** Task number [i] of the service is REFRESHING region [r]. *)
Definition refreshingAt (s : system) (r : region) (i : nat) : Prop :=
  exists t, sys_tasks s !! i = Some t /\ inFlight r t.

(** The busy flag of a region is set exactly while one task is REFRESHING
    it, and no second task is. *)
Definition flagGuards (s : system) (r : region) : Prop :=
  if isUpdating r (cache (sys_world s))
  then exists i, refreshingAt s r i /\ forall j, refreshingAt s r j -> j = i
  else forall j, ~ refreshingAt s r j.

Definition sysInv (s : system) : Prop :=
  Forall taskInv (sys_tasks s) /\ forall r, flagGuards s r.

(** The service with state [w] and no task yet, at clock [t]. *)
Definition idleSystem (w : world) (t : Z) : system := System w t [] [].

End Service.

(** ** Loading the keys *)

Module KeyInit.

Import KeyPool.

(** The white space [trim] strips, among the ASCII characters: tab, line
    feed, vertical tab, form feed, carriage return and space. The configured
    string is taken to be ASCII. *)
Definition isWhiteSpace (c : ascii) : bool :=
  let n := nat_of_ascii c in
  ((9 <=? n) && (n <=? 13) || (n =? 32))%nat.

Fixpoint trimStart (s : string) : string :=
  match s with
  | EmptyString => EmptyString
  | String c s' => if isWhiteSpace c then trimStart s' else s
  end.

Fixpoint trimEnd (s : string) : string :=
  match s with
  | EmptyString => EmptyString
  | String c s' =>
      match trimEnd s' with
      | EmptyString => if isWhiteSpace c then EmptyString else String c EmptyString
      | t => String c t
      end
  end.

(** [s.trim()] *)
Definition trim (s : string) : string := trimEnd (trimStart s).

(** [s.split(sep)] for a separator of one character: the pieces between
    the separators, one empty piece for the empty string. *)
Fixpoint split (sep : ascii) (s : string) : list string :=
  match s with
  | EmptyString => [EmptyString]
  | String c s' =>
      if Ascii.eqb c sep then EmptyString :: split sep s'
      else match split sep s' with
           | piece :: rest => String c piece :: rest
           | [] => [String c EmptyString]
           end
  end.

(** [keysString.split(',').map(key => key.trim())
      .filter(key => key.length > 0)] *)
Definition parseKeys (keysString : string) : list string :=
  List.filter (fun key => (0 <? String.length key)%nat)
              (map trim (split "," keysString)).

(** The key pool together with [keysInitialized]. *)
Record keyState : Type := KeyState {
  kpool : pool;
  keysInitialized : bool
}.

(** The module-level initial values: [apiKeys = []], [currentKeyIndex = 0],
    [keyRateLimitMap = new Map()], [keysInitialized = false]. *)
Definition atLoad : keyState := KeyState (Pool [] 0 ∅) false.

(** [apiKeys.forEach(key => keyRateLimitMap.set(key, { blockedUntil: null }))] *)
Definition resetLimits (m : gmap string keyInfo) (keys : list string)
    : gmap string keyInfo :=
  foldl (fun m k => <[k := KeyInfo None]> m) m keys.

(** [initializeApiKeys()], with [env] the value of
    [process.env.CRICKET_API_KEY] ([None] when it is not set). The key list
    is assigned before it is tested for emptiness; the cursor is never
    reset. *)
Definition initializeApiKeys (env : option string) (s : keyState) : keyState :=
  if keysInitialized s then s
  else
    let keysString := default "" env in
    if String.eqb keysString "" then s
    else
      let keys := parseKeys keysString in
      match keys with
      | [] =>
          KeyState (Pool [] (currentKeyIndex (kpool s))
                         (keyRateLimitMap (kpool s)))
                   false
      | _ =>
          KeyState (Pool keys (currentKeyIndex (kpool s))
                         (resetLimits (keyRateLimitMap (kpool s)) keys))
                   true
      end.

(** [reinitializeApiKeys()] *)
Definition reinitializeApiKeys (env : option string) (s : keyState) : keyState :=
  initializeApiKeys env (KeyState (kpool s) false).

(** A key that [parseKeys] gives back as it is: not empty, without a comma,
    without white space at either end. *)
Fixpoint hasChar (c : ascii) (s : string) : bool :=
  match s with
  | EmptyString => false
  | String c' s' => Ascii.eqb c' c || hasChar c s'
  end.

Definition cleanKey (key : string) : Prop :=
  key <> EmptyString /\ hasChar "," key = false /\ trim key = key.

End KeyInit.

(** ** The periodic update *)

Module Updater.

Import KeyPool.

(** [apiKeys.every(key => ...)] of the interval callback: the test of
    [getApiKey], on every key. *)
Definition allKeysBlocked (p : pool) (now : Z) : bool :=
  forallb (isBlocked (keyRateLimitMap p) now) (apiKeys p).

(** [Math.ceil((blockedUntil - now) / 60000)] *)
Definition remainingMinutes (blockedUntil now : Z) : Z :=
  - ((now - blockedUntil) / 60000).

(** What the interval callback does at a tick: it skips the update and logs
    the minutes that remain, or throws a [TypeError] (reading
    [keyInfo.blockedUntil] of the entry of no key), or goes on to
    [Promise.all([updateCurrentMatchesCache(), updateUpcomingMatchesCache()])],
    which calls the two refreshes, Current first. *)
Inductive tickOutcome : Type :=
  | TickSkip (minutes : Z)
  | TickTypeError
  | TickRefresh.

Definition periodicTick (p : pool) (now : Z) : tickOutcome :=
  if allKeysBlocked p now then
    match List.find (isBlocked (keyRateLimitMap p) now) (apiKeys p) with
    | Some firstBlockedKey =>
        match keyRateLimitMap p !! firstBlockedKey with
        | Some (KeyInfo (Some blockedUntil)) =>
            TickSkip (remainingMinutes blockedUntil now)
        | Some (KeyInfo None) => TickSkip (remainingMinutes 0 now)
        | None => TickTypeError
        end
    | None => TickTypeError
    end
  else TickRefresh.

End Updater.

(** ** Clearing and inspecting the cache *)

(** [clearCache()]: the two lists, the details and the fetch times are
    dropped; the busy flags stay. *)
Definition clearCache (w : world) : world :=
  setCache (CacheState None None ∅ None None
                       (isUpdatingCurrent (cache w))
                       (isUpdatingUpcoming (cache w))) w.

(** [seriesCache]: the cached answer of the series endpoint, as it came, and
    its time. *)
Record seriesCacheState : Type := SeriesCache {
  sc_data : option httpBody;
  sc_timestamp : option Z
}.

Module Status.

Import KeyPool.

(** An element of [apiKeys.keys] in the status. [isBlocked] is the value of
    [keyInfo && keyInfo.blockedUntil && now < keyInfo.blockedUntil], not
    always a boolean. A time is reported as an ISO string: [Some t] stands
    for the string of the time value [t], [None] for [null]. *)
Record keyStatus : Type := KeyStatus {
  ks_index : nat;
  ks_key : string;
  ks_isBlocked : jsval;
  ks_blockedUntil : option Z;
  ks_isCurrent : bool
}.

Record regionStatus : Type := RegionStatus {
  hasData : bool;
  dataLength : nat;
  lastFetch : option Z
}.

Record cacheStatus : Type := CacheStatus {
  st_current : regionStatus;
  st_upcoming : regionStatus;
  st_cachedMatches : nat;
  st_cacheDuration : string;
  st_seriesHasData : bool;
  st_seriesLastFetch : option Z;
  st_isUpdating : bool;
  st_total : nat;
  st_currentIndex : nat;
  st_keys : list keyStatus;
  st_lastCallTime : option Z;
  st_throttleDelay : string
}.

(** [t ? new Date(t).toISOString() : null]: the number [0] is falsy. *)
Definition isoOf (t : option Z) : option Z :=
  match t with
  | Some 0 => None
  | _ => t
  end.

(** [key.substring(0, 10) + '...'] *)
Definition mask (key : string) : string :=
  String.append (String.substring 0 10 key) "...".

(** The value of [keyInfo && keyInfo.blockedUntil && now < keyInfo.blockedUntil]. *)
Definition isBlockedValue (m : gmap string keyInfo) (now : Z) (key : string)
    : jsval :=
  match m !! key with
  | None => JUndefined
  | Some (KeyInfo None) => JNull
  | Some (KeyInfo (Some b)) => if b =? 0 then JNum 0 else JBool (now <? b)
  end.

Definition keyStatusOf (p : pool) (now : Z) (index : nat) (key : string)
    : keyStatus :=
  KeyStatus index (mask key)
    (isBlockedValue (keyRateLimitMap p) now key)
    (isoOf (match keyRateLimitMap p !! key with
            | Some keyInfo => blockedUntil keyInfo
            | None => None
            end))
    (bool_decide (index = currentKeyIndex p)).

Definition regionStatusOf (data : option (list matchInfo)) (fetched : option Z)
    : regionStatus :=
  RegionStatus (bool_decide (is_Some data))
               (match data with Some l => length l | None => 0%nat end)
               (isoOf fetched).

(** [getCacheStatus()] with the clock at [now]. *)
Definition getCacheStatus (w : world) (series : seriesCacheState) (now : Z)
    : cacheStatus :=
  CacheStatus
    (regionStatusOf (current (cache w)) (lastFetchCurrent (cache w)))
    (regionStatusOf (upcoming (cache w)) (lastFetchUpcoming (cache w)))
    (size (matchDetails (cache w)))
    "5 minutes"
    (bool_decide (is_Some (sc_data series)))
    (isoOf (sc_timestamp series))
    (isUpdatingCurrent (cache w) || isUpdatingUpcoming (cache w))
    (length (apiKeys (keys w)))
    (currentKeyIndex (keys w))
    (imap (keyStatusOf (keys w) now) (apiKeys (keys w)))
    (isoOf (Some (lastApiCallTime w)))
    "10s".

End Status.

(** ** Throttled error logging *)

Module ErrorLog.

(** [error?.code === 'ECONNRESET' || error?.message?.includes('ECONNRESET')];
    [None] is a missing error. *)
Definition isConnectionReset (error : option jsError) : bool :=
  match error with
  | Some e =>
      match code e with
      | Some c => String.eqb c "ECONNRESET"
      | None => false
      end ||
      match message e with
      | Some m => JsString.includes "ECONNRESET" m
      | None => false
      end
  | None => false
  end.

(** [errorLogThrottle.shouldLog(key, error)] with the clock at [now], on
    [errorLogThrottle.lastLogged]; [key] is not the name of a property that
    every object has. *)
Definition shouldLog (key : string) (error : option jsError) (now : Z)
    (lastLogged : gmap string Z) : gmap string Z * bool :=
  if isConnectionReset error then (lastLogged, false)
  else
    let lastLog := default 0 (lastLogged !! key) in
    if 300000 <? now - lastLog
    then (<[key := now]> lastLogged, true)
    else (lastLogged, false).

(** A call of [shouldLog]. *)
Record logCall : Type := LogCall {
  lc_key : string;
  lc_error : option jsError;
  lc_now : Z
}.

(** The calls of a sequence that are told to log, each with its key and
    its time, in order. *)
Fixpoint logged (calls : list logCall) (lastLogged : gmap string Z)
    : list (string * Z) :=
  match calls with
  | [] => []
  | c :: calls' =>
      let '(lastLogged', yes) :=
        shouldLog (lc_key c) (lc_error c) (lc_now c) lastLogged in
      (if yes then [(lc_key c, lc_now c)] else []) ++ logged calls' lastLogged'
  end.

End ErrorLog.

(** ** Tasks among other tasks *)

(** The points a task that stands at [s0] can come to, whatever state the
    rest of the service leaves it between two of its steps. *)
Inductive reaches {R} (s0 : susp R) : susp R -> Prop :=
  | reaches_here : reaches s0 s0
  | reaches_step s w ev w' s' :
      reaches s0 s ->
      stepTask s w ev = Some (w', s') ->
      reaches s0 s'.

(** The upstream calls a task run alone issues while [evs] wake it. *)
Fixpoint taskCalls (s : susp retval) (w : world) (evs : list event)
    : option (list upstreamCall) :=
  match evs with
  | [] => Some []
  | ev :: evs' =>
      match stepTask s w ev with
      | Some (w', s') =>
          option_map (app (issued s' (eventTime ev))) (taskCalls s' w' evs')
      | None => None
      end
  end.

(** The events of [n] attempts that all fail: each error arrives at its
    time, then the pause before the next attempt ends. *)
Definition failedAttempts (errs : list (Z * jsError * Z)) : list event :=
  flat_map (fun '(t, e, t') => [EvResponse t (HttpErr e); EvWake t']) errs.

(** ** The attempts of a refresh *)

Section RefreshPoints.

Context (parseDate : string -> option Z).

(** Where a refresh of [r] stands, with the number of upstream calls it may
    still issue, at most: [n], one for each configured key, before its
    first attempt; then one for each attempt left. It ends with
    [undefined], with a list, or with the [ReferenceError] of its [catch]
    block. *)
Inductive attempts (r : region) (n : nat) : susp retval -> nat -> Prop :=
  | att_gate_timer due :
      attempts r n (STimer due (atGate parseDate r)) n
  | att_gate_tick :
      attempts r n (STick (pastGate parseDate r)) n
  | att_fetch fuel apiKey lastError :
      attempts r n
        (SHttp "/matches" apiKey None (onResponse parseDate r fuel apiKey lastError))
        fuel
  | att_backoff due fuel apiKey lastError :
      attempts r n (STimer due (nextAttempt parseDate r fuel apiKey lastError)) fuel
  | att_skipped :
      attempts r n (SDone RUndefined) 0
  | att_returned l :
      attempts r n (SDone (RList l)) 0
  | att_thrown :
      attempts r n (SFail referenceError) 0.

(** The upstream calls of a refresh called at [now] and woken by [evs]. *)
Definition refreshCalls (r : region) (w : world) (now : Z) (evs : list event)
    : option (list upstreamCall) :=
  let '(w1, s1) := runSync (updateMatchesCache parseDate r) w now in
  option_map (app (issued s1 now)) (taskCalls s1 w1 evs).

End RefreshPoints.

(** A turn of the queue or a timer, not a response. *)
Definition isWake (ev : event) : bool :=
  match ev with
  | EvWake _ => true
  | EvResponse _ _ => false
  end.

(** The outcome of an upstream call that counts as evidence of a rate
    limit for a refresh: a thrown error that is classified so, or an answer
    with the status [failure] and a reason that mentions a limit. *)
Definition rateLimitEvidence (out : httpOutcome) : bool :=
  match out with
  | HttpOk body => failureIsRateLimited body
  | HttpErr e => isRateLimitedError e
  end.

(** An error is classified as a rate limit. *)
Definition rateLimited (a : Z * jsError * Z) : Prop :=
  isRateLimitedError (snd (fst a)) = true.

(** ** The merged players, as a whole *)

(** The key a match-info player is merged under, when it has a usable
    name. *)
Definition itemKey (player : jsItem) : option string :=
  match Enricher.matchDataPlayerName player with
  | JStr playerName =>
      if negb (String.eqb playerName "") &&
         negb (String.eqb playerName "Unknown Player")
      then Some (JsString.toLowerCase playerName)
      else None
  | _ => None
  end.

(** The map is well kept: its keys are listed once each, in the order they
    came, and the player stored under a key has a name with that key, or no
    name. *)
Definition wellKeyed (m : Enricher.playerMap) : Prop :=
  NoDup (Enricher.order m) /\
  (forall key, key ∈ Enricher.order m <-> is_Some (Enricher.entries m !! key)) /\
  (forall key o, Enricher.entries m !! key = Some o ->
     Enricher.keyOf o = Some key \/ Enricher.keyOf o = None).

(** A player is stored under [key]. *)
Definition hasKey (m : Enricher.playerMap) (key : string) : Prop :=
  is_Some (Enricher.entries m !! key).

(** ** The detail fetch, up to the match-info answer *)

(** Every path of [p] ends in a result that satisfies [P] or in a throw of
    an error that satisfies [Q]. *)
Fixpoint ends {R} (P : R -> Prop) (Q : jsError -> Prop) (p : prog R) : Prop :=
  match p with
  | Ret r => P r
  | Throw e => Q e
  | Sync _ k => forall x, ends P Q (k x)
  | AwaitTick k | AwaitTimer _ k => ends P Q k
  | AwaitHttp _ _ _ k => forall out, ends P Q (k out)
  end.

(** The same for a task where it stands. *)
Definition endsFrom {R} (P : R -> Prop) (Q : jsError -> Prop) (s : susp R)
    : Prop :=
  match s with
  | SDone r => P r
  | SFail e => Q e
  | STick k | STimer _ k => ends P Q k
  | SHttp _ _ _ k => forall out, ends P Q (k out)
  end.

(** No path of [p] ends in a throw. *)
Definition neverThrows {R} (p : prog R) : Prop :=
  ends (fun _ => True) (fun _ => False) p.

(** The end of [makeApiCall]: the response, or the last error thrown. *)
Definition responseOr (res : string * option httpBody * option jsError)
    : prog httpBody :=
  let '(_, response, lastError) := res in
  match response with
  | Some body => Ret body
  | None =>
      Throw (default (plainError "Failed to fetch after trying all keys")
                     lastError)
  end.

(** [fetchDetail] from the match-info response on. *)
Definition afterInfo (apiKey matchId : string) (matchInfoResponse : httpBody)
    : prog matchDetail :=
  match asMatchData matchInfoResponse with
  | None => Throw typeError
  | Some matchData =>
      match decide (status matchData = JStr "success"), pdata matchData with
      | left _, Some info =>
          squad ← fetchSquad apiKey matchId info;
          scorecard1 ← fetchScorecard apiKey matchId "/match_scorecard";
          scorecardData ←
            match scorecard1 with
            | Some sc => Ret (Some sc)
            | None => fetchScorecard apiKey matchId "/matchScorecard"
            end;
          scoreSample info ;;
          Ret (MatchDetail matchData (Some (enhance info squad scorecardData)))
      | _, _ => Ret (MatchDetail matchData None)
      end
  end.

(** [fetchDetail] after the throttle. *)
Definition afterThrottle (matchId : string) : prog matchDetail :=
  apiKey ← getApiKeyP;
  match apiKey with
  | None => Throw (plainError "CRICKET_API_KEY is not configured")
  | Some apiKey =>
      matchInfoResponse ← awaitCall (makeApiCall apiKey "/match_info" matchId);
      afterInfo apiKey matchId matchInfoResponse
  end.

(** The points at which a call of [getMatchDetails] is suspended before the
    match-info endpoint has answered, in program order: in the throttle's
    timer; in the turn of the queue after the throttle; in the match-info
    call (with [fuel] attempts left after it, [apiKey] the key chosen at
    the start and [key] the one in use); in the pause before the next
    attempt. Each is the rest of [getMatchDetails] from there. *)
Definition infoGate (matchId : string) : prog retval :=
  detailCont matchId (awaitCall stampCall ;; afterThrottle matchId).

Definition infoPastGate (matchId : string) : prog retval :=
  detailCont matchId (afterThrottle matchId).

Definition infoResponse (matchId : string) (fuel : nat) (apiKey key : string)
    (lastError : option jsError) (out : httpOutcome) : prog retval :=
  detailCont matchId
    (matchInfoResponse ←
       awaitCall
         (res ← onOutcome (fetchWithRotation "/match_info" (Some matchId) fuel)
                          key lastError out;
          responseOr res);
     afterInfo apiKey matchId matchInfoResponse).

Definition infoNextAttempt (matchId : string) (fuel : nat) (apiKey key : string)
    (lastError : option jsError) : prog retval :=
  detailCont matchId
    (matchInfoResponse ←
       awaitCall
         (res ← fetchWithRotation "/match_info" (Some matchId) fuel key lastError;
          responseOr res);
     afterInfo apiKey matchId matchInfoResponse).

Inductive fetchingInfo (matchId : string) : susp retval -> Prop :=
  | InfoGateTimer due :
      fetchingInfo matchId (STimer due (infoGate matchId))
  | InfoGateTick :
      fetchingInfo matchId (STick (infoPastGate matchId))
  | InfoFetch fuel apiKey key lastError :
      fetchingInfo matchId
        (SHttp "/match_info" key (Some matchId)
               (infoResponse matchId fuel apiKey key lastError))
  | InfoBackoff due fuel apiKey key lastError :
      fetchingInfo matchId
        (STimer due (infoNextAttempt matchId fuel apiKey key lastError)).

(** An upstream answer, as opposed to an error, a timer or a turn of the
    queue. *)
Definition isAnswer (ev : event) : bool :=
  match ev with
  | EvResponse _ (HttpOk _) => true
  | _ => false
  end.

(** The records a call can end with once the match-info endpoint has
    answered [p]: the payload as it is, or with the added fields. *)
Definition recordOf (p : payload matchInfoData) (d : matchDetail) : Prop :=
  md_matchData d = p /\
  match pdata p with
  | Some info =>
      if decide (status p = JStr "success")
      then exists squad scorecardData,
             md_enhanced d = Some (enhance info squad scorecardData)
      else md_enhanced d = None
  | None => md_enhanced d = None
  end.

(** The payloads at which the debug log of the enhancement throws: a
    success with data whose [score] is an empty array. *)
Definition emptyScore (p : payload matchInfoData) : bool :=
  bool_decide (status p = JStr "success") &&
  match pdata p with
  | Some info =>
      match mi_score info with
      | Some [] => true
      | _ => false
      end
  | None => false
  end.

(** A call that is past the match-info answer and still suspended: the
    rest of its fetch leaves the detail cache alone and ends in a record
    that satisfies [P] or in a throw of an error that satisfies [Q]. *)
Definition enhancing (matchId : string) (P : matchDetail -> Prop)
    (Q : jsError -> Prop) (s : susp retval) : Prop :=
  match s with
  | SDone _ | SFail _ => False
  | STick p | STimer _ p =>
      exists k, p = detailCont matchId k /\
                preserves (fun w => matchDetails (cache w)) k /\
                ends P Q k
  | SHttp _ _ _ kk =>
      exists k, kk = (fun out => detailCont matchId (k out)) /\
                forall out,
                  preserves (fun w => matchDetails (cache w)) (k out) /\
                  ends P Q (k out)
  end.

(** ** The series list *)

Module Series.

(** [seriesCache.CACHE_DURATION] *)
Definition CACHE_DURATION : Z := 5 * 60 * 1000.

(** The state [getSeriesList] works on: the service state and the series
    cache. *)
Definition state : Type := world * seriesCacheState.

(** Asynchronous functions on that state: as [prog], with the synchronous
    steps on the larger state. *)
Inductive sprog (R : Type) : Type :=
  | SRet (r : R)
  | SThrow (e : jsError)
  | SSync {X : Type} (f : state -> Z -> state * X) (k : X -> sprog R)
  | SAwaitTick (k : sprog R)
  | SAwaitTimer (ms : Z) (k : sprog R)
  | SAwaitHttp (url : string) (apikey : string) (id : option string)
               (k : httpOutcome -> sprog R).

Arguments SRet {R} _.
Arguments SThrow {R} _.
Arguments SSync {R X} _ _.
Arguments SAwaitTick {R} _.
Arguments SAwaitTimer {R} _ _.
Arguments SAwaitHttp {R} _ _ _ _.

Fixpoint sbind {A B} (p : sprog A) (f : A -> sprog B) : sprog B :=
  match p with
  | SRet a => f a
  | SThrow e => SThrow e
  | SSync g k => SSync g (fun x => sbind (k x) f)
  | SAwaitTick k => SAwaitTick (sbind k f)
  | SAwaitTimer ms k => SAwaitTimer ms (sbind k f)
  | SAwaitHttp url key id k => SAwaitHttp url key id (fun out => sbind (k out) f)
  end.

(** [try { p } catch (error) { h error }] *)
Fixpoint stryCatch {A} (p : sprog A) (h : jsError -> sprog A) : sprog A :=
  match p with
  | SRet a => SRet a
  | SThrow e => h e
  | SSync g k => SSync g (fun x => stryCatch (k x) h)
  | SAwaitTick k => SAwaitTick (stryCatch k h)
  | SAwaitTimer ms k => SAwaitTimer ms (stryCatch k h)
  | SAwaitHttp url key id k =>
      SAwaitHttp url key id (fun out => stryCatch (k out) h)
  end.

#[global] Instance sprog_ret : MRet sprog := @SRet.
#[global] Instance sprog_bind : MBind sprog := fun A B f p => sbind p f.

(** A function of the service used by [getSeriesList]: its steps leave the
    series cache alone. *)
Fixpoint lift {R} (p : prog R) : sprog R :=
  match p with
  | Ret r => SRet r
  | Throw e => SThrow e
  | Sync f k =>
      SSync (fun st now => let '(w', x) := f (fst st) now in ((w', snd st), x))
            (fun x => lift (k x))
  | AwaitTick k => SAwaitTick (lift k)
  | AwaitTimer ms k => SAwaitTimer ms (lift k)
  | AwaitHttp url key id k => SAwaitHttp url key id (fun out => lift (k out))
  end.

(** Where a task stands after a synchronous run. *)
Inductive ssusp (R : Type) : Type :=
  | SsDone (r : R)
  | SsFail (e : jsError)
  | SsTick (k : sprog R)
  | SsTimer (due : Z) (k : sprog R)
  | SsHttp (url : string) (apikey : string) (id : option string)
           (k : httpOutcome -> sprog R).

Arguments SsDone {R} _.
Arguments SsFail {R} _.
Arguments SsTick {R} _.
Arguments SsTimer {R} _ _.
Arguments SsHttp {R} _ _ _ _.

Fixpoint srunSync {R} (p : sprog R) (st : state) (now : Z) : state * ssusp R :=
  match p with
  | SRet r => (st, SsDone r)
  | SThrow e => (st, SsFail e)
  | SSync f k => let '(st', x) := f st now in srunSync (k x) st' now
  | SAwaitTick k => (st, SsTick k)
  | SAwaitTimer ms k => (st, SsTimer (now + ms) k)
  | SAwaitHttp url key id k => (st, SsHttp url key id k)
  end.




(** Every synchronous step of [p] leaves the series cache as it is. *)
Fixpoint keepsSeries {R} (p : sprog R) : Prop :=
  match p with
  | SRet _ | SThrow _ => True
  | SSync f k =>
      (forall st now, snd (fst (f st now)) = snd st) /\
      forall x, keepsSeries (k x)
  | SAwaitTick k | SAwaitTimer _ k => keepsSeries k
  | SAwaitHttp _ _ _ k => forall out, keepsSeries (k out)
  end.

(** [seriesCache.data && seriesCache.timestamp &&
     (Date.now() - seriesCache.timestamp) < seriesCache.CACHE_DURATION]:
    the cached answer when it is served without a fetch. *)
Definition freshSeries (sc : seriesCacheState) (now : Z) : option httpBody :=
  match sc_data sc, sc_timestamp sc with
  | Some data, Some timestamp =>
      if negb (timestamp =? 0) && (now - timestamp <? CACHE_DURATION)
      then Some data
      else None
  | _, _ => None
  end.

(** The [try] block from the throttle to the response: the key-rotation
    loop on the series endpoint. *)
Definition fetchSeries : sprog httpBody :=
  lift (awaitCall throttleApiCall) ;;
  apiKey ← lift getApiKeyP;
  match apiKey with
  | None => SThrow (plainError "CRICKET_API_KEY is not configured")
  | Some apiKey =>
      maxKeyAttempts ← lift (getW (fun w => length (KeyPool.apiKeys (keys w))));
      '(_, response, lastError) ←
        lift (fetchWithRotation "/series" None maxKeyAttempts apiKey None);
      match response with
      | Some body => SRet body
      | None =>
          SThrow (default (plainError "Failed to fetch series") lastError)
      end
  end.

(** From the response to the [return]: an answer with the status [success]
    is stored with the time; any other answer is returned as it is; a
    missing body has no [status] to read. *)
Definition storeAndReturn (body : httpBody) : sprog httpBody :=
  match body with
  | BodyEmpty => SThrow typeError
  | _ =>
      if decide (bodyStatus body = JStr "success") then
        SSync (fun st now => ((fst st, SeriesCache (Some body) (Some now)), tt))
              (fun _ => SRet body)
      else SRet body
  end.

(** The [catch] block. *)
Definition seriesCatch (error : jsError) : sprog httpBody :=
  SSync (fun st _ => (st, sc_data (snd st)))
        (fun cached => match cached with
                       | Some data => SRet data
                       | None => SThrow error
                       end).

(** The rest of a call that is fetching. *)
Definition seriesCont (k : sprog httpBody) : sprog httpBody :=
  stryCatch (sbind k storeAndReturn) seriesCatch.

(** [getSeriesList] *)
Definition getSeriesList : sprog httpBody :=
  stryCatch
    (SSync (fun st now => (st, freshSeries (snd st) now))
           (fun fresh =>
              match fresh with
              | Some data => SRet data
              | None => sbind fetchSeries storeAndReturn
              end))
    seriesCatch.


(** A call that is still fetching: what is left of [fetchSeries], then the
    store, in the [try] of [getSeriesList]. *)
Definition seriesFetching (s : ssusp httpBody) : Prop :=
  match s with
  | SsDone _ | SsFail _ => False
  | SsTick p | SsTimer _ p => exists k, p = seriesCont k /\ keepsSeries k
  | SsHttp _ _ _ kk =>
      exists k, kk = (fun out => seriesCont (k out)) /\
                forall out, keepsSeries (k out)
  end.

(** The series cache holds [v], an answer with the status [success], stored
    at [now]. *)
Definition storedAt (sc : seriesCacheState) (v : httpBody) (now : Z) : Prop :=
  bodyStatus v = JStr "success" /\ sc = SeriesCache (Some v) (Some now).

End Series.

(** ** Sample inputs *)

Module Samples.

(** A stand-in for the engine's date parser: a string of decimal digits is
    read as a number of milliseconds, any other string is an invalid
    date. *)
Fixpoint parseDigits (acc : Z) (s : string) : option Z :=
  match s with
  | EmptyString => Some acc
  | String c s' =>
      let n := Z.of_nat (nat_of_ascii c) in
      if (48 <=? n) && (n <=? 57)
      then parseDigits (10 * acc + (n - 48)) s'
      else None
  end.

Definition parseDate (s : string) : option Z := parseDigits 0 s.

(** [{ status: 'success', data: [...] }] *)
Definition successBody (l : list matchInfo) : httpBody :=
  BodyMatches (Payload (JStr "success") JUndefined (Some l)).

(** [{ matchStarted: true, matchEnded: false }] and
    [{ matchStarted: false }] *)
Definition startedMatch : matchInfo :=
  MatchInfo "m1" (Some true) (Some false) None None None.

Definition notStartedMatch : matchInfo :=
  MatchInfo "m2" (Some false) None None None None.

(** Three live matches in upstream order: dated 100, with a date string
    that is not a date, dated 200. *)
Definition olderMatch : matchInfo :=
  MatchInfo "old" (Some true) (Some false) None (Some "100") None.

Definition undatedMatch : matchInfo :=
  MatchInfo "tba" (Some true) (Some false) None (Some "TBA") None.

Definition newerMatch : matchInfo :=
  MatchInfo "new" (Some true) (Some false) None (Some "200") None.

(** 25 matches that have not started, named A, B, C, ... *)
Definition twentyFiveNotStarted : list matchInfo :=
  map (fun i => MatchInfo (String (ascii_of_nat (65 + i)) "")
                          (Some false) (Some false) None None None)
      (seq 0 25).

(** A Current cache that holds ten entries, fetched at clock 1000. *)
Definition tenEntries : list matchInfo :=
  map (fun i => MatchInfo (String (ascii_of_nat (97 + i)) "")
                          (Some true) (Some false) None None None)
      (seq 0 10).

Definition staleWorld : world :=
  World (KeyPool.initPool ["A"]%string) 1000
        (CacheState (Some tenEntries) None ∅ (Some 1000) None false false).

(** A connection reset, as axios reports it. *)
Definition connectionReset : jsError :=
  JsError (Some "read ECONNRESET") (Some "ECONNRESET") None None.

(** A batting entry: the batter's name and how he got out ([None]: he is
    still in). *)
Definition battingOf (name : string) (dismissal : option string) : battingEntry :=
  BattingEntry
    (Some (Enricher.object [("name", JStr name)]%string))
    (Enricher.object
       ([("r"%string, JNum 10); ("b"%string, JNum 12)] ++
        match dismissal with
        | Some d => [("dismissal"%string, JStr d)]
        | None => []
        end)).

Definition scorecardOf (innings : list inning) : option (payload scorecardDoc) :=
  Some (Payload (JStr "success") JUndefined (Some (ScorecardDoc (Some innings)))).

Definition bareInfo : matchInfoData :=
  MatchInfoData ∅ None None None (Some [JStr "India"; JStr "Australia"]).

(** An inning in which six batters are out, b1 first and b6 last, and b7
    and b8 are in. *)
Definition sixOut : inning :=
  Inning (Enricher.object [("team", JStr "India")]%string)
    (Some [battingOf "b1" (Some "bowled"); battingOf "b2" (Some "caught");
           battingOf "b3" (Some "lbw"); battingOf "b4" (Some "run out");
           battingOf "b5" (Some "caught"); battingOf "b6" (Some "stumped");
           battingOf "b7" None; battingOf "b8" None]%string)
    (Some []).

(** An inning in which three batters are in (one of them retired hurt
    without a dismissal) and one is out. *)
Definition threeIn : inning :=
  Inning (Enricher.object [("team", JStr "India")]%string)
    (Some [battingOf "a1" None; battingOf "a2" (Some "bowled");
           battingOf "a3" None; battingOf "a4" None]%string)
    (Some []).

(** A squad player, then the same player in a scorecard (50 runs) and in
    the live score (55 runs, no image). *)
Definition squadKohli : obj :=
  Enricher.object
    [("name"%string, JStr "Virat Kohli"); ("id"%string, JStr "p1");
     ("role"%string, JStr "WK-Batsman");
     ("battingStyle"%string, JStr "Right Handed Bat");
     ("bowlingStyle"%string, JStr "Right-arm medium");
     ("country"%string, JStr "India");
     ("playerImg"%string, JStr "kohli.png")].

Definition kohliSquad : list obj := Enricher.formatPlayers [squadKohli].

Definition kohliScorecard : list obj :=
  Enricher.extractPlayersFromScorecard
    (scorecardOf
       [Inning ∅
          (Some [BattingEntry
                   (Some (Enricher.object
                            [("name"%string, JStr "Virat Kohli");
                             ("id"%string, JStr "p1")]))
                   (Enricher.object
                      [("r"%string, JNum 50); ("b"%string, JNum 30)])])
          None]).

Definition kohliScore : list obj :=
  Enricher.extractPlayersFromScore
    (Some [ScoreInning ∅
             (Some [ItemObj (Enricher.object
                               [("name"%string, JStr "Virat Kohli");
                                ("r"%string, JNum 55);
                                ("b"%string, JNum 33)])])
             None]).

(** A call of [getMatchDetails("m1")] on a cold cache, woken once: it
    stands at its match-info call. *)
Definition detailAtFetch : susp retval :=
  let '(w1, s1) := runSync (getMatchDetails "m1") (initWorld ["A"]%string) 1000000 in
  match stepTask s1 w1 (EvWake 1000000) with
  | Some (_, s2) => s2
  | None => s1
  end.

(** The state in which another call has cached a record for m1
    meanwhile. *)
Definition knownDetail : matchDetail :=
  MatchDetail (Payload (JStr "success") JUndefined None) None.

Definition cachedWorld : world :=
  storeDetailW "m1" knownDetail 1000200
    (setLastApiCallTime 1000000 (initWorld ["A"]%string)).

End Samples.

(** A call of [getMatchDetails("m1")] on a cold cache, followed to its end:
    the call; the turn of the queue after the throttle, which issues the
    match-info call; the answer, a success with data and no squad; then the
    two scorecard endpoints, each behind the throttle, each failing. *)
Module MoreSamples.

Definition detailCall : world * susp retval :=
  runSync (getMatchDetails "m1") (initWorld ["A"]%string) 1000000.

Definition detailAsked : world * susp retval :=
  default detailCall
    (runTask (snd detailCall) (fst detailCall) [EvWake 1000000]).

Definition answered : payload matchInfoData :=
  Payload (JStr "success") JUndefined (Some Samples.bareInfo).

Definition detailAnswered : world * susp retval :=
  default detailAsked
    (stepTask (snd detailAsked) (fst detailAsked)
       (EvResponse 1000500 (HttpOk (BodyInfo answered)))).

Definition afterAnswer : list event :=
  [EvWake 1000500; EvWake 1010000; EvWake 1010000;
   EvResponse 1010300 (HttpErr Samples.connectionReset);
   EvWake 1020000; EvWake 1020000;
   EvResponse 1020300 (HttpErr Samples.connectionReset)].

Definition detailEnd : world * susp retval :=
  default detailAnswered
    (runTask (snd detailAnswered) (fst detailAnswered) afterAnswer).

(** Two calls of [getMatchDetails("m1")] that overlap on a cold cache. The
    match-info endpoint answers the first with a success; the first goes on
    to the two scorecard endpoints, each behind the throttle. The second
    call is made while the first waits for the second scorecard endpoint:
    it misses the cache and sleeps at the throttle. The scorecard call
    fails, and the first call stores its record and returns it. Then the
    second call wakes, asks the match-info endpoint, and is answered with
    [{ status: 'failure', reason: ... }]; it is one turn of the queue away
    from going on with that answer. Every answer comes within half a
    second. *)
Definition failureAnswer : payload matchInfoData :=
  Payload (JStr "failure") (JStr "hits today exceeded hits limit") None.

Definition overlappingCalls : list action :=
  [Invoke (GetMatchDetails "m1") 1000000;
   Deliver 0 (EvWake 1000000);
   Deliver 0 (EvResponse 1000500 (HttpOk (BodyInfo answered)));
   Deliver 0 (EvWake 1000500);
   Deliver 0 (EvWake 1010000);
   Deliver 0 (EvWake 1010000);
   Deliver 0 (EvResponse 1010300 (HttpErr Samples.connectionReset));
   Deliver 0 (EvWake 1020000);
   Deliver 0 (EvWake 1020000);
   Invoke (GetMatchDetails "m1") 1020100;
   Deliver 0 (EvResponse 1020300 (HttpErr Samples.connectionReset));
   Deliver 1 (EvWake 1030000);
   Deliver 1 (EvWake 1030000);
   Deliver 1 (EvResponse 1030400 (HttpOk (BodyInfo failureAnswer)))]%string.

(** The same call when the answer is a success whose [score] is an empty
    array, as the provider sends it for a match without a score yet: up to
    the last scorecard call, and to its end. *)
Definition emptyScoreAnswer : payload matchInfoData :=
  Payload (JStr "success") JUndefined
    (Some (MatchInfoData ∅ (Some []) None None
                         (Some [JStr "India"; JStr "Australia"]))).

Definition emptyScoreAnswered : world * susp retval :=
  default detailAsked
    (stepTask (snd detailAsked) (fst detailAsked)
       (EvResponse 1000500 (HttpOk (BodyInfo emptyScoreAnswer)))).

Definition emptyScoreLast : world * susp retval :=
  default emptyScoreAnswered
    (runTask (snd emptyScoreAnswered) (fst emptyScoreAnswered)
       (removelast afterAnswer)).

Definition emptyScoreEnd : world * susp retval :=
  default emptyScoreLast
    (stepTask (snd emptyScoreLast) (fst emptyScoreLast)
       (EvResponse 1020300 (HttpErr Samples.connectionReset))).




End MoreSamples.

(** * Properties *)

Import KeyPool.

Section KeyPoolFacts.

Lemma scanKeys_found keys m now idx fuel idx' k :
  scanKeys keys m now idx fuel = (idx', Some k) ->
  keys !! idx' = Some k /\ isBlocked m now k = false.
Proof.
  revert idx. induction fuel as [|fuel IH]; intros idx; simpl; [congruence|].
  destruct (keys !! idx) as [k0|] eqn:Hk; [|congruence].
  destruct (isBlocked m now k0) eqn:Hb.
  - apply IH.
  - intros [= <- <-]. auto.
Qed.

(** When the scan gives up with fuel left for a whole lap, every position
    it visited holds a blocked key; the positions are [idx, idx+1, ...]
    modulo the length. *)
Lemma scanKeys_none_visits keys m now idx fuel idx' :
  (idx < length keys)%nat ->
  scanKeys keys m now idx fuel = (idx', None) ->
  idx' = ((idx + fuel) mod length keys)%nat /\
  forall j, (j < fuel)%nat ->
    exists k, keys !! ((idx + j) mod length keys)%nat = Some k /\
              isBlocked m now k = true.
Proof.
  revert idx. induction fuel as [|fuel IH]; intros idx Hlt; simpl.
  - intros [= <-]. split; [|intros j Hj; lia].
    rewrite Nat.add_0_r, Nat.mod_small; auto.
  - destruct (keys !! idx) as [k0|] eqn:Hk.
    2:{ apply lookup_ge_None in Hk. lia. }
    destruct (isBlocked m now k0) eqn:Hb; [|congruence].
    intros Hs.
    assert (Hn : length keys <> 0%nat) by lia.
    apply IH in Hs; [|by apply Nat.mod_upper_bound].
    destruct Hs as [-> Hall]. split.
    + rewrite Nat.Div0.add_mod_idemp_l. f_equal. lia.
    + intros [|j] Hj.
      * exists k0. rewrite Nat.add_0_r, Nat.mod_small; auto.
      * destruct (Hall j ltac:(lia)) as (k & Hk' & Hb').
        exists k. split; [|done].
        rewrite Nat.Div0.add_mod_idemp_l in Hk'.
        by replace (idx + S j)%nat with (idx + 1 + j)%nat by lia.
Qed.

Lemma scanKeys_none_all keys m now idx idx' :
  (idx < length keys)%nat ->
  scanKeys keys m now idx (length keys) = (idx', None) ->
  idx' = idx /\ Forall (fun k => isBlocked m now k = true) keys.
Proof.
  intros Hlt Hs. apply scanKeys_none_visits in Hs as [-> Hall]; [|done].
  split.
  - rewrite <- (Nat.mul_1_l (length keys)) at 1.
    rewrite Nat.Div0.mod_add. by apply Nat.mod_small.
  - apply Forall_lookup. intros i k Hi.
    pose proof (lookup_lt_Some _ _ _ Hi) as Hil.
    (* position [i] is visited at step [(i - idx) mod length] *)
    set (n := length keys) in *.
    destruct (Hall ((i + n - idx) mod n)%nat) as (k' & Hk' & Hb').
    { apply Nat.mod_upper_bound. lia. }
    rewrite Nat.Div0.add_mod_idemp_r in Hk'.
    replace (idx + (i + n - idx))%nat with (i + 1 * n)%nat in Hk' by lia.
    rewrite Nat.Div0.mod_add, Nat.mod_small in Hk' by lia.
    congruence.
Qed.

Lemma wf_getApiKey p now : wf p -> wf (fst (getApiKey p now)).
Proof.
  unfold wf, getApiKey. intros Hwf.
  destruct (apiKeys p) as [|k0 ks] eqn:Hks; [simpl in *; lia|].
  rewrite <- Hks in *.
  destruct (scanKeys _ _ _ _ _) as [idx [k|]] eqn:Hs; simpl.
  - apply scanKeys_found in Hs as [Hk _]. by apply lookup_lt_Some in Hk.
  - apply scanKeys_none_all in Hs as [-> _]; done.
Qed.

Lemma wf_markKeyAsRateLimited p k now :
  apiKeys p <> [] -> wf (markKeyAsRateLimited p k now).
Proof.
  unfold wf. simpl. intros Hne. apply Nat.mod_upper_bound.
  destruct (apiKeys p); simpl; [done | lia].
Qed.

(** The selection rule: a key handed out while it is blocked is handed out
    only because the whole pool is blocked. *)
Lemma getApiKey_blocked_all p now k :
  wf p ->
  snd (getApiKey p now) = Some k ->
  isBlocked (keyRateLimitMap p) now k = true ->
  allBlocked p now.
Proof.
  unfold wf, getApiKey, allBlocked. intros Hwf.
  destruct (apiKeys p) as [|k0 ks] eqn:Hks; [done|].
  rewrite <- Hks in *.
  destruct (scanKeys _ _ _ _ _) as [idx [k'|]] eqn:Hs; simpl.
  - apply scanKeys_found in Hs as [_ Hnb]. intros [= ->]. congruence.
  - apply scanKeys_none_all in Hs as [_ Hall]; [intros; exact Hall | done].
Qed.

Lemma getApiKey_map p now :
  keyRateLimitMap (fst (getApiKey p now)) = keyRateLimitMap p /\
  apiKeys (fst (getApiKey p now)) = apiKeys p.
Proof.
  unfold getApiKey. destruct (apiKeys p) eqn:Hks; [by simpl; rewrite ?Hks|].
  destruct (scanKeys _ _ _ _ _) as [idx found]. by simpl; rewrite ?Hks.
Qed.

Lemma blockedAtLeastUntil_applyOp p k t o :
  t <= opTime o + BLOCK_DURATION ->
  blockedAtLeastUntil p k t -> blockedAtLeastUntil (applyOp p o) k t.
Proof.
  intros Ht (b & Hb & Hle). destruct o as [now|k' now]; simpl in *.
  - exists b. by rewrite (proj1 (getApiKey_map p now)).
  - unfold blockedAtLeastUntil, markKeyAsRateLimited; simpl.
    destruct (decide (k' = k)) as [->|Hne].
    + eexists. rewrite lookup_insert_eq. split; [done | lia].
    + exists b. by rewrite lookup_insert_ne.
Qed.

Lemma blockedAtLeastUntil_runOps ops p k T :
  Forall (fun o => T <= opTime o) ops ->
  blockedAtLeastUntil p k (T + BLOCK_DURATION) ->
  blockedAtLeastUntil (runOps p ops) k (T + BLOCK_DURATION).
Proof.
  unfold runOps. revert p.
  induction ops as [|o ops IH]; intros p Hall Hb; simpl; [done|].
  inversion Hall; subst. apply IH; [done|].
  apply blockedAtLeastUntil_applyOp; [lia | done].
Qed.

Lemma wf_runOps ops p :
  apiKeys p <> [] -> wf p -> wf (runOps p ops) /\ apiKeys (runOps p ops) = apiKeys p.
Proof.
  unfold runOps. revert p.
  induction ops as [|o ops IH]; intros p Hne Hwf; simpl; [done|].
  destruct o as [now|k now]; simpl.
  - destruct (IH (fst (getApiKey p now))) as [H1 H2].
    + by rewrite (proj2 (getApiKey_map p now)).
    + by apply wf_getApiKey.
    + split; [done|]. by rewrite H2, (proj2 (getApiKey_map p now)).
  - destruct (IH (markKeyAsRateLimited p k now)) as [H1 H2];
      [done | by apply wf_markKeyAsRateLimited | done].
Qed.

End KeyPoolFacts.

(** Scenario of the specification: pool = [A, B]; A is marked rate-limited;
    the next selection returns B. *)
Example getApiKey_rotates_to_B :
  snd (getApiKey (markKeyAsRateLimited (initPool ["A"; "B"]%string) "A" 1000) 2000)
  = Some "B"%string.
Proof. vm_compute. reflexivity. Qed.

(** C1, as stated, fails: in a pool of two credentials, A marked at
    T = 1000 ms and B marked at 2000 ms, the selection at 3000 ms (long
    before T + 16 min) returns A although A is not the only credential. *)
Lemma getApiKey_returns_blocked_key_when_all_blocked :
  let p1 := markKeyAsRateLimited (initPool ["A"; "B"]%string) "A" 1000 in
  let p2 := runOps p1 [OpMark "B"%string 2000] in
  snd (getApiKey p2 3000) = Some "A"%string /\
  3000 < 1000 + BLOCK_DURATION /\
  apiKeys p2 = ["A"; "B"]%string.
Proof. vm_compute. repeat split; reflexivity. Qed.

(** C1 (amended): a credential marked rate-limited at time T (clock readings
    never below T afterwards) is not returned by [getApiKey] before
    T + 16 min, unless every credential of the pool is blocked at that
    moment, in which case the credential under the cursor is returned
    anyway. *)
Theorem getApiKey_respects_cooldown p k T ops now :
  wf p ->
  0 <= T ->
  Forall (fun o => T <= opTime o) ops ->
  now < T + BLOCK_DURATION ->
  snd (getApiKey (runOps (markKeyAsRateLimited p k T) ops) now) = Some k ->
  allBlocked (runOps (markKeyAsRateLimited p k T) ops) now.
Proof.
  intros Hwf HT Hops Hnow Hget.
  assert (Hne : apiKeys p <> []).
  { unfold wf in Hwf. destruct (apiKeys p); simpl in *; [lia | done]. }
  set (p1 := markKeyAsRateLimited p k T) in *.
  assert (Hb1 : blockedAtLeastUntil p1 k (T + BLOCK_DURATION)).
  { eexists. unfold p1; simpl. rewrite lookup_insert_eq. split; [done | lia]. }
  destruct (wf_runOps ops p1) as [Hwf2 _];
    [done | by apply wf_markKeyAsRateLimited |].
  apply (blockedAtLeastUntil_runOps ops) in Hb1 as (b & Hb & Hle); [|done].
  apply (getApiKey_blocked_all _ now k); [done | done |].
  unfold isBlocked. rewrite Hb.
  unfold BLOCK_DURATION in *.
  apply andb_true_intro. split.
  - apply negb_true_iff, Z.eqb_neq. lia.
  - apply Z.ltb_lt. lia.
Qed.

Lemma getApiKey_respects_cooldown_witness :
  allBlocked
    (runOps (markKeyAsRateLimited (initPool ["A"; "B"]%string) "A" 1000)
            [OpMark "B"%string 2000]) 3000.
Proof.
  apply (getApiKey_respects_cooldown (initPool ["A"; "B"]%string) "A"%string 1000
           [OpMark "B"%string 2000] 3000).
  - unfold wf. simpl. lia.
  - lia.
  - repeat constructor. simpl. lia.
  - unfold BLOCK_DURATION. lia.
  - vm_compute. reflexivity.
Defined.

(** Consequence: while some credential is free, the selection returns a
    free one, hence never the one that was marked. *)
Lemma getApiKey_free_key p now k' :
  wf p ->
  k' ∈ apiKeys p -> isBlocked (keyRateLimitMap p) now k' = false ->
  exists k, snd (getApiKey p now) = Some k /\
            isBlocked (keyRateLimitMap p) now k = false.
Proof.
  intros Hwf Hin Hfree. unfold wf, getApiKey in *.
  destruct (apiKeys p) as [|k0 ks] eqn:Hks; [simpl in *; lia|].
  rewrite <- Hks in *.
  destruct (scanKeys _ _ _ _ _) as [idx [k|]] eqn:Hs; simpl.
  - apply scanKeys_found in Hs as [_ Hnb]. eauto.
  - apply scanKeys_none_all in Hs as [_ Hall]; [|done].
    rewrite Forall_forall in Hall. specialize (Hall k' Hin). congruence.
Qed.

(** ** The throttle gate *)

Section ThrottleFacts.

Import Throttle.

(** A caller alone at the throttle gate: it passes at once when the last call is at
    least ten seconds old, else it sleeps until ten seconds after it; on
    waking it stamps the clock reading of that moment, whatever the stamp
    has become in between. *)
Lemma throttleApiCall_run w now :
  match runSync throttleApiCall w now with
  | (w', SDone _) =>
      lastApiCallTime w + THROTTLE_DELAY <= now /\
      w' = setLastApiCallTime now w
  | (w', STimer due k) =>
      w' = w /\ now < due /\ due = lastApiCallTime w + THROTTLE_DELAY /\
      forall w2 now2, runSync k w2 now2 = (setLastApiCallTime now2 w2, SDone tt)
  | _ => False
  end.
Proof.
  unfold throttleApiCall. cbn. unfold waitTime.
  destruct (now - lastApiCallTime w <? THROTTLE_DELAY) eqn:Hlt; cbn.
  - apply Z.ltb_lt in Hlt. unfold THROTTLE_DELAY in *.
    repeat split; try lia.
  - apply Z.ltb_ge in Hlt. split; [lia | done].
Qed.

(** Hence two passes that do not overlap are ten seconds apart: the second
    caller enters after the first has stamped [t1], and stamps [t2]. *)
Lemma throttle_sequential_spacing w t1 now w' s :
  lastApiCallTime w = t1 ->
  runSync throttleApiCall w now = (w', s) ->
  match s with
  | SDone _ => t1 + THROTTLE_DELAY <= lastApiCallTime w'
  | STimer due k =>
      forall now2, due <= now2 ->
        t1 + THROTTLE_DELAY <= lastApiCallTime (fst (runSync k w' now2))
  | _ => False
  end.
Proof.
  intros Ht1 Hrun. pose proof (throttleApiCall_run w now) as H.
  rewrite Hrun in H. destruct s as [[]| | |due k|]; try done.
  - destruct H as [Hle ->]. simpl. lia.
  - destruct H as (-> & _ & -> & Hk). intros now2 Hdue.
    rewrite Hk. simpl. lia.
Qed.

End ThrottleFacts.

(** C2: the throttle gate does not keep two overlapping callers apart. With the last
    upstream call stamped at 100 000 ms, the scheduler triggers both
    refreshes at 105 000 ms; each reads the stamp before the other has
    updated it and sleeps 5 000 ms; both wake at 110 000 ms, both stamp
    110 000 and both issue their upstream call at 110 000 ms: the two calls
    that passed the throttle gate are 0 ms apart, not 10 000. *)
Theorem throttle_gate_overlapping_callers (parseDate : string -> option Z) :
  option_map (fun s => (sys_calls s, lastApiCallTime (sys_world s)))
    (sysRun parseDate
       (idleSystem (setLastApiCallTime 100000 (initWorld ["A"]%string)) 100000)
       [Invoke (UpdateCache Current) 105000;
        Invoke (UpdateCache Upcoming) 105000;
        Deliver 0 (EvWake 110000); Deliver 1 (EvWake 110000);
        Deliver 0 (EvWake 110000); Deliver 1 (EvWake 110000)])
  = Some ([UpstreamCall "/matches" "A" 110000;
           UpstreamCall "/matches" "A" 110000], 110000).
Proof. vm_compute. reflexivity. Qed.

(** ** Sorting and classification *)

Section SortFacts.

Context {A : Type} (cmp : A -> A -> Z) (R : relation A) (P : A -> Prop).

(** On the elements that satisfy [P], the comparator decides [R]. *)
Hypothesis cmp_le : forall x y, P x -> P y -> cmp x y <= 0 -> R x y.
Hypothesis cmp_gt : forall x y, P x -> P y -> 0 < cmp x y -> R y x.

Lemma insertSorted_Permutation x (l : list A) : insertSorted cmp x l ≡ₚ x :: l.
Proof.
  induction l as [|y l IH]; simpl; [done|].
  destruct (cmp x y <=? 0); [done|].
  rewrite IH. apply Permutation_swap.
Qed.

Lemma sortBy_Permutation (l : list A) : sortBy cmp l ≡ₚ l.
Proof.
  induction l as [|x l IH]; simpl; [done|].
  by rewrite insertSorted_Permutation, IH.
Qed.

(** A list in which the comparator finds each element in order with the
    next is left as it stands. *)
Lemma sortBy_in_order (l : list A) :
  (forall i a b, l !! i = Some a -> l !! S i = Some b -> cmp a b <= 0) ->
  sortBy cmp l = l.
Proof.
  induction l as [|x l IH]; intros Hl; simpl; [done|].
  rewrite IH by (intros i a b; apply (Hl (S i))).
  destruct l as [|y l]; simpl; [done|].
  pose proof (Hl 0%nat x y eq_refl eq_refl) as Hxy.
  by destruct (Z.leb_spec (cmp x y) 0); [|lia].
Qed.

Lemma insertSorted_HdRel a x (l : list A) :
  R a x -> HdRel R a l -> HdRel R a (insertSorted cmp x l).
Proof.
  intros Hax Hl. destruct l as [|y l]; simpl; [by constructor|].
  destruct (cmp x y <=? 0); constructor; [done|]. by inversion Hl.
Qed.

Lemma insertSorted_Sorted x (l : list A) :
  P x -> Forall P l -> Sorted R l -> Sorted R (insertSorted cmp x l).
Proof.
  intros Hx HP Hs. induction l as [|y l IH]; simpl.
  - by repeat constructor.
  - inversion HP as [|? ? Hy HPl]; subst. inversion Hs as [|? ? Hsl Hhd]; subst.
    destruct (cmp x y <=? 0) eqn:Hc.
    + apply Z.leb_le in Hc. constructor; [done|]. constructor. by apply cmp_le.
    + apply Z.leb_gt in Hc. constructor; [by apply IH|].
      apply insertSorted_HdRel; [by apply cmp_gt | done].
Qed.

Lemma sortBy_Sorted (l : list A) : Forall P l -> Sorted R (sortBy cmp l).
Proof.
  induction l as [|x l IH]; simpl; intros HP; [constructor|].
  inversion HP; subst. apply insertSorted_Sorted; [done | | by apply IH].
  by rewrite sortBy_Permutation.
Qed.

End SortFacts.

Section ClassificationFacts.

Context (parseDate : string -> option Z).

Lemma isLiveOrCompletedWithScore_spec m :
  isLiveOrCompletedWithScore m = true <->
  (matchStarted m = Some true /\ matchEnded m = Some false) \/
  (matchStarted m = Some true /\ matchEnded m = Some true /\
   exists x l, score m = Some (x :: l)).
Proof.
  unfold isLiveOrCompletedWithScore, hasScore, isTrue, isFalse.
  destruct (matchStarted m) as [[]|], (matchEnded m) as [[]|],
    (score m) as [[|x l]|]; simpl; split;
    try (intros [[? ?]|(? & ? & ? & ? & ?)]; congruence);
    try discriminate; intros _;
    first [left; split; reflexivity | right; eauto].
Qed.

Lemma elem_of_List_filter {A} (f : A -> bool) (l : list A) x :
  x ∈ List.filter f l <-> x ∈ l /\ f x = true.
Proof. rewrite !list_elem_of_In. apply filter_In. Qed.

Lemma List_filter_sublist {A} (f : A -> bool) (l : list A) :
  List.filter f l `sublist_of` l.
Proof.
  induction l as [|x l IH]; simpl; [done|].
  destruct (f x); by constructor.
Qed.

Lemma List_filter_all {A} (f : A -> bool) (l : list A) :
  Forall (fun x => f x = true) l -> List.filter f l = l.
Proof.
  induction 1 as [|x l Hx _ IH]; simpl; [done|]. by rewrite Hx, IH.
Qed.

#[local] Instance notOlder_trans : Transitive (notOlder parseDate).
Proof. intros a b c. unfold notOlder. lia. Qed.

Lemma sortBy_date_StronglySorted (l : list matchInfo) :
  Forall (hasValidDate parseDate) l ->
  StronglySorted (notOlder parseDate) (sortBy (compareByDateDesc parseDate) l).
Proof.
  intros Hvalid. apply Sorted_StronglySorted; [apply _|].
  apply (sortBy_Sorted _ _ (hasValidDate parseDate)); [| |done].
  - intros x y [dx Hx] [dy Hy]. unfold compareByDateDesc, notOlder, dateKey.
    rewrite Hx, Hy. simpl. lia.
  - intros x y [dx Hx] [dy Hy]. unfold compareByDateDesc, notOlder, dateKey.
    rewrite Hx, Hy. simpl. lia.
Qed.

(** What [sortedLive] keeps of a list. *)
Lemma sortedLive_facts (allMatches : list matchInfo) :
  let live := List.filter isLiveOrCompletedWithScore allMatches in
  let kept := sortedLive parseDate allMatches in
  (forall m, m ∈ kept -> m ∈ allMatches /\ isLiveOrCompletedWithScore m = true) /\
  length kept = Nat.min 10 (length live) /\
  ((length live <= 10)%nat -> kept ≡ₚ live) /\
  (Forall (hasValidDate parseDate) live ->
     StronglySorted (notOlder parseDate) kept /\
     forall m k, m ∈ live -> m ∉ kept -> k ∈ kept ->
       dateKey parseDate m <= dateKey parseDate k).
Proof.
  intros live kept. unfold kept, sortedLive. fold live.
  set (sorted := sortBy (compareByDateDesc parseDate) live).
  assert (Hperm : sorted ≡ₚ live) by apply sortBy_Permutation.
  repeat split.
  - apply (elem_of_List_filter isLiveOrCompletedWithScore allMatches).
    fold live. rewrite <- Hperm. eapply elem_of_sublist; [done | apply sublist_take].
  - apply (elem_of_List_filter isLiveOrCompletedWithScore allMatches).
    fold live. rewrite <- Hperm. eapply elem_of_sublist; [done | apply sublist_take].
  - rewrite length_take. by rewrite Hperm.
  - intros Hle. rewrite take_ge; [done|]. by rewrite Hperm.
  - assert (Hs : StronglySorted (notOlder parseDate) sorted)
      by by apply sortBy_date_StronglySorted.
    rewrite <- (take_drop 10 sorted) in Hs.
    by apply StronglySorted_app_1_l in Hs.
  - intros m k Hm Hnot Hk.
    assert (Hs : StronglySorted (notOlder parseDate) sorted)
      by by apply sortBy_date_StronglySorted.
    rewrite <- (take_drop 10 sorted) in Hs.
    apply (StronglySorted_app_1_elem_of _ _ _ k m Hs Hk).
    rewrite <- Hperm, <- (take_drop 10 sorted), elem_of_app in Hm.
    by destruct Hm.
Qed.

(** The filter and the sort key of the code are the ones the specification
    states. *)
Lemma filter_wanted (l : list matchInfo) :
  filter Stated.wanted l = List.filter isLiveOrCompletedWithScore l.
Proof.
  induction l as [|m l IH]; [done|].
  rewrite filter_cons. cbn [List.filter]. rewrite IH.
  destruct (decide (Stated.wanted m)) as [Hm|Hm];
    destruct (isLiveOrCompletedWithScore m) eqn:Hc; try done.
  - apply isLiveOrCompletedWithScore_spec in Hm. congruence.
  - apply isLiveOrCompletedWithScore_spec in Hc. done.
Qed.

Lemma dateOf_matchDate (m : matchInfo) :
  Stated.dateOf parseDate m = matchDate parseDate m.
Proof.
  unfold Stated.dateOf, Stated.dateText, matchDate, JsString.orStr,
    JsString.truthyStr.
  by destruct (dateTimeGMT m) as [[|c s]|], (date m) as [[|c' s']|].
Qed.

Lemma StronglySorted_dated (l : list matchInfo) :
  Forall (Stated.dated parseDate) l ->
  StronglySorted (notOlder parseDate) l ->
  StronglySorted (Stated.notBefore parseDate) l.
Proof.
  intros Hd. induction 1 as [|a l Hs IH Hall]; [constructor|].
  inversion Hd as [|? ? [ta Ha] Hdl]; subst. constructor; [by apply IH|].
  apply Forall_forall. intros b Hb.
  pose proof (proj1 (Forall_forall _ _) Hall b Hb) as Hab.
  pose proof (proj1 (Forall_forall _ _) Hdl b Hb) as [tb Htb].
  exists ta, tb. repeat split; try done.
  unfold notOlder, dateKey in Hab.
  by rewrite <- !dateOf_matchDate, Ha, Htb in Hab.
Qed.

(** [sortedLive] against the specification: the wanted matches, the first
    ten of them in an order that is the one of the dates when all of them
    are dated. *)
Lemma sortedLive_stated (allMatches : list matchInfo) :
  let wanted := filter Stated.wanted allMatches in
  exists rest,
    sortedLive parseDate allMatches ++ rest ≡ₚ wanted /\
    length (sortedLive parseDate allMatches) = Nat.min 10 (length wanted) /\
    (Forall (Stated.dated parseDate) wanted ->
     StronglySorted (Stated.notBefore parseDate)
                    (sortedLive parseDate allMatches ++ rest)).
Proof.
  intros wanted. unfold wanted, sortedLive. rewrite filter_wanted.
  set (live := List.filter isLiveOrCompletedWithScore allMatches).
  set (sorted := sortBy (compareByDateDesc parseDate) live).
  assert (Hperm : sorted ≡ₚ live) by apply sortBy_Permutation.
  exists (drop 10 sorted). rewrite take_drop. repeat split.
  - done.
  - rewrite length_take. by rewrite Hperm.
  - intros Hd. apply StronglySorted_dated; [by rewrite Hperm|].
    apply sortBy_date_StronglySorted.
    eapply Forall_impl; [exact Hd|]. intros m [t Ht].
    exists t. by rewrite <- dateOf_matchDate.
Qed.

(** What [upcomingMatches] keeps of a list. *)
Lemma upcomingMatches_facts (allMatches : list matchInfo) :
  let notStarted := List.filter (fun m => isFalse (matchStarted m)) allMatches in
  let kept := upcomingMatches allMatches in
  kept = take 20 notStarted /\
  kept `sublist_of` allMatches /\
  (forall m, m ∈ kept -> m ∈ allMatches /\ matchStarted m = Some false) /\
  length kept = Nat.min 20 (length notStarted) /\
  ((length notStarted <= 20)%nat -> kept = notStarted).
Proof.
  intros notStarted kept. unfold kept, upcomingMatches. fold notStarted.
  repeat split.
  - etrans; [apply sublist_take | apply List_filter_sublist].
  - eapply (elem_of_List_filter _ allMatches).
    eapply elem_of_sublist; [done | apply sublist_take].
  - assert (Hm : m ∈ notStarted)
      by (eapply elem_of_sublist; [done | apply sublist_take]).
    apply elem_of_List_filter in Hm as [_ Hm].
    unfold isFalse in Hm. by destruct (matchStarted m) as [[]|].
  - apply length_take.
  - apply take_ge.
Qed.

End ClassificationFacts.

(** Most recent first; matches of the same date keep their upstream order;
    a match without [dateTimeGMT] is placed by its [date]. *)
Example sortedLive_orders_by_date :
  let started id dateTimeGMT date :=
    MatchInfo id (Some true) (Some false) None dateTimeGMT date in
  map match_id
    (sortedLive Samples.parseDate
       [started "a" (Some "300") None; started "b" (Some "100") None;
        started "c" (Some "200") None; started "d" (Some "300") None;
        started "e" None (Some "250")]%string)
  = ["a"; "d"; "e"; "c"; "b"]%string.
Proof. vm_compute. reflexivity. Qed.

(** ** Running sequenced and guarded programs *)

Section RunFacts.

Context {A B : Type}.

Lemma runSync_bind (p : prog A) (f : A -> prog B) w now :
  runSync (bind p f) w now =
  match runSync p w now with
  | (w', SDone a) => runSync (f a) w' now
  | (w', SFail e) => (w', SFail e)
  | (w', STick k) => (w', STick (bind k f))
  | (w', STimer due k) => (w', STimer due (bind k f))
  | (w', SHttp url key id k) => (w', SHttp url key id (fun out => bind (k out) f))
  end.
Proof.
  revert w. induction p as [a|e|X g k IH|k IH|ms k IH|url key id k IH];
    intros w; cbn; try reflexivity.
  destruct (g w now) as [w' x]. apply IH.
Qed.

Lemma runSync_tryCatch (p : prog A) (h : jsError -> prog A) w now :
  runSync (tryCatch p h) w now =
  match runSync p w now with
  | (w', SDone a) => (w', SDone a)
  | (w', SFail e) => runSync (h e) w' now
  | (w', STick k) => (w', STick (tryCatch k h))
  | (w', STimer due k) => (w', STimer due (tryCatch k h))
  | (w', SHttp url key id k) =>
      (w', SHttp url key id (fun out => tryCatch (k out) h))
  end.
Proof.
  revert w. induction p as [a|e|X g k IH|k IH|ms k IH|url key id k IH];
    intros w; cbn; try reflexivity.
  destruct (g w now) as [w' x]. apply IH.
Qed.

Lemma runSync_tryFinally (p : prog A) (fin : world -> world) w now :
  runSync (tryFinally p fin) w now =
  match runSync p w now with
  | (w', SDone a) => (fin w', SDone a)
  | (w', SFail e) => (fin w', SFail e)
  | (w', STick k) => (w', STick (tryFinally k fin))
  | (w', STimer due k) => (w', STimer due (tryFinally k fin))
  | (w', SHttp url key id k) =>
      (w', SHttp url key id (fun out => tryFinally (k out) fin))
  end.
Proof.
  revert w. induction p as [a|e|X g k IH|k IH|ms k IH|url key id k IH];
    intros w; cbn; try reflexivity.
  destruct (g w now) as [w' x]. apply IH.
Qed.

End RunFacts.

(** ** Steps that leave a part of the state alone *)

Section PreservesFacts.

Context {X : Type} (proj : world -> X).

Lemma preserves_bind {A B} (p : prog A) (f : A -> prog B) :
  preserves proj p -> (forall a, preserves proj (f a)) ->
  preserves proj (bind p f).
Proof.
  intros Hp Hf. induction p as [a|e|Y g k IH|k IH|ms k IH|url key id k IH];
    simpl in *; auto.
  destruct Hp as [Hg Hk]. split; [done|]. intros y. by apply IH.
Qed.

Lemma preserves_tryCatch {A} (p : prog A) (h : jsError -> prog A) :
  preserves proj p -> (forall e, preserves proj (h e)) ->
  preserves proj (tryCatch p h).
Proof.
  intros Hp Hh. induction p as [a|e|Y g k IH|k IH|ms k IH|url key id k IH];
    simpl in *; auto.
  destruct Hp as [Hg Hk]. split; [done|]. intros y. by apply IH.
Qed.

Lemma preserves_tryFinally {A} (p : prog A) (fin : world -> world) :
  preserves proj p -> (forall w, proj (fin w) = proj w) ->
  preserves proj (tryFinally p fin).
Proof.
  intros Hp Hfin. induction p as [a|e|Y g k IH|k IH|ms k IH|url key id k IH];
    simpl in *; auto.
  destruct Hp as [Hg Hk]. split; [done|]. intros y. by apply IH.
Qed.

(** A synchronous run of such a program leaves [proj] alone, and so will
    every continuation. *)
Lemma preserves_runSync {R} (p : prog R) w now :
  preserves proj p ->
  proj (fst (runSync p w now)) = proj w /\
  match snd (runSync p w now) with
  | SDone _ | SFail _ => True
  | STick k | STimer _ k => preserves proj k
  | SHttp _ _ _ k => forall out, preserves proj (k out)
  end.
Proof.
  revert w. induction p as [a|e|Y g k IH|k IH|ms k IH|url key id k IH];
    intros w Hp; simpl in *; auto.
  destruct Hp as [Hg Hk]. specialize (Hg w now).
  destruct (g w now) as [w1 y]. simpl in Hg.
  destruct (IH y w1 (Hk y)) as [H1 H2]. split; [congruence | done].
Qed.

End PreservesFacts.

(** The steps of the enricher and of the throttle write the key pool, the
    throttle stamp and, at the very end, the detail cache: whatever is read
    from the rest of the cache is left alone. *)
Section CachePreserved.

Context {X : Type} (g : cacheState -> X).

Let proj : world -> X := fun w => g (cache w).

Ltac prim := simpl; split; [intros; reflexivity | intros; exact I].

Lemma preserves_dateNow : preserves proj dateNow.
Proof. prim. Qed.

Lemma preserves_getW {Y} (f : world -> Y) : preserves proj (getW f).
Proof. prim. Qed.

Lemma preserves_stampCall : preserves proj stampCall.
Proof.
  unfold stampCall, mbind, prog_bind. apply preserves_bind; [prim|].
  intros now. prim.
Qed.

Lemma preserves_awaitCall {A} (p : prog A) :
  preserves proj p -> preserves proj (awaitCall p).
Proof. intros Hp. unfold awaitCall. by apply preserves_bind. Qed.

Lemma preserves_throttleApiCall : preserves proj throttleApiCall.
Proof.
  unfold throttleApiCall, mbind, prog_bind.
  apply preserves_bind; [prim|]. intros now.
  apply preserves_bind; [prim|]. intros last.
  apply preserves_bind; [|intros _; apply preserves_stampCall].
  by destruct (Throttle.waitTime last now).
Qed.

Lemma preserves_getApiKeyP : preserves proj getApiKeyP.
Proof.
  simpl. split; [|done]. intros w now.
  by destruct (KeyPool.getApiKey (keys w) now).
Qed.

Lemma preserves_markKeyAsRateLimitedP key :
  preserves proj (markKeyAsRateLimitedP key).
Proof. prim. Qed.

Lemma preserves_onOutcome retry apiKey lastError out :
  (forall k e, preserves proj (retry k e)) ->
  preserves proj (onOutcome retry apiKey lastError out).
Proof.
  intros Hretry. unfold onOutcome. destruct out as [body|e]; [done|].
  destruct (isRateLimitedError e); [|done].
  unfold mbind, prog_bind.
  apply preserves_bind; [apply preserves_markKeyAsRateLimitedP|]. intros _.
  apply preserves_bind; [apply preserves_getApiKeyP|].
  intros [k|]; [apply Hretry | done].
Qed.

Lemma preserves_fetchWithRotation url id fuel apiKey lastError :
  preserves proj (fetchWithRotation url id fuel apiKey lastError).
Proof.
  revert apiKey lastError. induction fuel as [|fuel IH]; intros apiKey lastError;
    cbn [fetchWithRotation preserves]; [done|].
  intros out. by apply preserves_onOutcome.
Qed.

Lemma preserves_makeApiCall apiKey url matchId :
  preserves proj (makeApiCall apiKey url matchId).
Proof.
  unfold makeApiCall, mbind, prog_bind.
  apply preserves_bind; [apply preserves_getW|]. intros n.
  apply preserves_bind; [apply preserves_fetchWithRotation|].
  intros [[k [body|]] lastError]; done.
Qed.

Lemma preserves_fetchSquad apiKey matchId info :
  preserves proj (fetchSquad apiKey matchId info).
Proof.
  unfold fetchSquad. destruct (truthy _); [|done].
  apply preserves_tryCatch; [|done]. unfold mbind, prog_bind.
  apply preserves_bind; [apply preserves_awaitCall, preserves_throttleApiCall|].
  intros _.
  apply preserves_bind; [apply preserves_awaitCall, preserves_makeApiCall|].
  intros [|p|p|p|p]; try done. by destruct (pdata p).
Qed.

Lemma preserves_fetchScorecard apiKey matchId url :
  preserves proj (fetchScorecard apiKey matchId url).
Proof.
  unfold fetchScorecard.
  apply preserves_tryCatch; [|done]. unfold mbind, prog_bind.
  apply preserves_bind; [apply preserves_awaitCall, preserves_throttleApiCall|].
  intros _.
  apply preserves_bind; [apply preserves_awaitCall, preserves_makeApiCall|].
  intros [|p|p|p|p]; try done. by destruct (pdata p).
Qed.

Lemma preserves_scoreSample info : preserves proj (scoreSample info).
Proof. unfold scoreSample. by destruct (mi_score info) as [[|? ?]|]. Qed.

Lemma preserves_afterInfo apiKey matchId body :
  preserves proj (afterInfo apiKey matchId body).
Proof.
  unfold afterInfo, mbind, prog_bind.
  destruct (asMatchData body) as [matchData|]; [|done].
  destruct (decide _); [|done]. destruct (pdata matchData) as [info|]; [|done].
  apply preserves_bind; [apply preserves_fetchSquad|]. intros squad.
  apply preserves_bind; [apply preserves_fetchScorecard|]. intros sc1.
  apply preserves_bind.
  - destruct sc1; [done | apply preserves_fetchScorecard].
  - intros scorecardData. apply preserves_bind; [apply preserves_scoreSample|done].
Qed.

Lemma preserves_fetchDetail matchId : preserves proj (fetchDetail matchId).
Proof.
  unfold fetchDetail, mbind, prog_bind.
  apply preserves_bind; [apply preserves_awaitCall, preserves_throttleApiCall|].
  intros _.
  apply preserves_bind; [apply preserves_getApiKeyP|]. intros [apiKey|]; [|done].
  apply preserves_bind; [apply preserves_awaitCall, preserves_makeApiCall|].
  intros body. destruct (asMatchData body) as [matchData|]; [|done].
  destruct (decide _); [|done]. destruct (pdata matchData) as [info|]; [|done].
  apply preserves_bind; [apply preserves_fetchSquad|]. intros squad.
  apply preserves_bind; [apply preserves_fetchScorecard|]. intros sc1.
  apply preserves_bind.
  - destruct sc1; [done | apply preserves_fetchScorecard].
  - intros scorecardData. apply preserves_bind; [apply preserves_scoreSample|done].
Qed.

End CachePreserved.

(** ** The refresh of a list region, step by step *)

Section RefreshFacts.

Context (parseDate : string -> option Z).

Lemma runSync_guarded r p w now :
  runSync (guarded r p) w now =
  match runSync p w now with
  | (w', SDone a) => (setFlag r false w', SDone a)
  | (w', SFail e) =>
      if isRateLimitedError e
      then (setFlag r false w', SFail referenceError)
      else (setFlag r false w',
            SDone (RList (default [] (regionData r (cache w')))))
  | (w', STick k) => (w', STick (guarded r k))
  | (w', STimer due k) => (w', STimer due (guarded r k))
  | (w', SHttp url key id k) =>
      (w', SHttp url key id (fun out => guarded r (k out)))
  end.
Proof.
  unfold guarded. rewrite runSync_tryFinally, runSync_tryCatch.
  destruct (runSync p w now) as [w' [a|e|k|due k|url key id k]]; try reflexivity.
  unfold refreshCatch. destruct (isRateLimitedError e); reflexivity.
Qed.

(** Calling a refresh: a no-op when the region is busy; else the flag is
    set and the task is suspended in [throttleApiCall]. *)
Lemma updateMatchesCache_invoke r w now :
  runSync (updateMatchesCache parseDate r) w now =
  if isUpdating r (cache w) then (w, SDone RUndefined)
  else
    match Throttle.waitTime (lastApiCallTime w) now with
    | Some wt => (setFlag r true w, STimer (now + wt) (atGate parseDate r))
    | None => (setLastApiCallTime now (setFlag r true w),
               STick (pastGate parseDate r))
    end.
Proof.
  unfold updateMatchesCache. cbn.
  destruct (isUpdating r (cache w)); cbn; [reflexivity|].
  destruct (Throttle.waitTime _ _); cbn; reflexivity.
Qed.

Lemma notConfigured_not_rateLimited :
  isRateLimitedError (plainError "CRICKET_API_KEY is not configured") = false.
Proof. vm_compute. reflexivity. Qed.

Lemma failedToFetch_not_rateLimited :
  isRateLimitedError
    (plainError "Failed to fetch matches after trying all keys") = false.
Proof. vm_compute. reflexivity. Qed.

Lemma allKeysLimited_rateLimited :
  isRateLimitedError (plainError "All API keys are rate limited") = true.
Proof. vm_compute. reflexivity. Qed.

(** One step of a refresh in flight, from any state the rest of the service
    may have left. A response that passes the success test is classified
    and stored, the flag is cleared and the stored list returned. Any other
    event either leaves the task in flight, the cache untouched, or ends the
    task with nothing but the flag changed in the cache. *)
Lemma refreshing_step r s w ev w' s' :
  refreshing parseDate r s ->
  stepTask s w ev = Some (w', s') ->
  match eventMatches ev with
  | Some allMatches =>
      s' = SDone (RList (classify parseDate r allMatches)) /\
      w' = setFlag r false
             (storeMatches r (classify parseDate r allMatches) (eventTime ev) w)
  | None =>
      (refreshing parseDate r s' /\ cache w' = cache w) \/
      (finished s' /\ cache w' = setUpdating r false (cache w))
  end.
Proof.
  intros Hs. unfold stepTask.
  destruct Hs as [due| |fuel apiKey lastError|due fuel apiKey lastError];
    destruct ev as [now|now out]; cbn [resume eventMatches eventTime]; try done.
  - (* the throttle's timer fires *)
    destruct (due <=? now); [|done]. cbn [eventTime].
    unfold atGate. rewrite runSync_guarded. cbn. intros [= <- <-].
    left. split; [apply AtGateTick | reflexivity].
  - (* past the throttle: a key is chosen and the first attempt issued *)
    unfold pastGate. rewrite runSync_guarded.
    unfold fetchAndStore. cbn.
    destruct (KeyPool.getApiKey (keys w) now) as [p' [k|]]; cbn.
    + destruct (length (KeyPool.apiKeys p')) as [|fuel]; cbn.
      * intros [= <- <-]. right. split; [done | reflexivity].
      * intros [= <- <-]. left. split; [apply AtFetch | reflexivity].
    + intros [= <- <-]. right. split; [done | reflexivity].
  - (* the outcome of an attempt *)
    unfold onResponse, mbind, prog_bind. rewrite runSync_guarded.
    rewrite runSync_bind. destruct out as [body|e]; cbn.
    + unfold processResponse.
      destruct (successMatches body) as [allMatches|]; cbn.
      * intros [= <- <-]. split; reflexivity.
      * destruct (failureIsRateLimited body); cbn;
          intros [= <- <-]; right; split; done.
    + destruct (isRateLimitedError e) eqn:He; cbn.
      * destruct (KeyPool.getApiKey _ now) as [p' [k|]]; cbn.
        -- intros [= <- <-]. left. split; [apply AtBackoff | reflexivity].
        -- intros [= <- <-]. right. split; [done | reflexivity].
      * rewrite He. intros [= <- <-]. right. split; [done | reflexivity].
  - (* the pause before the next attempt is over *)
    destruct (due <=? now); [|done]. cbn [eventTime].
    unfold nextAttempt, mbind, prog_bind. rewrite runSync_guarded, runSync_bind.
    destruct fuel as [|fuel]; cbn.
    + destruct (isRateLimitedError _); intros [= <- <-]; right; split; done.
    + intros [= <- <-]. left. split; [apply AtFetch | reflexivity].
Qed.

Lemma runTask_app {R} (s : susp R) w evs1 evs2 :
  runTask s w (evs1 ++ evs2) =
  match runTask s w evs1 with
  | Some (w', s') => runTask s' w' evs2
  | None => None
  end.
Proof.
  revert s w. induction evs1 as [|ev evs1 IH]; intros s w; simpl; [done|].
  destruct (stepTask s w ev) as [[w' s']|]; [apply IH | done].
Qed.

Lemma stepTask_finished {R} (s : susp R) w ev : finished s -> stepTask s w ev = None.
Proof. by destruct s, ev. Qed.

Lemma runTask_refreshing r s w evs w' s' :
  refreshing parseDate r s \/ finished s ->
  runTask s w evs = Some (w', s') ->
  refreshing parseDate r s' \/ finished s'.
Proof.
  revert s w. induction evs as [|ev evs IH]; intros s w Hs; simpl.
  - by intros [= <- <-].
  - destruct Hs as [Hs|Hs]; [|by rewrite stepTask_finished].
    destruct (stepTask s w ev) as [[w1 s1]|] eqn:Hstep; [|done].
    apply IH. pose proof (refreshing_step _ _ _ _ _ _ Hs Hstep) as H.
    destruct (eventMatches ev); [right; by destruct H as [-> _] | tauto].
Qed.

Lemma refreshRun_refreshing r w now evs w' s' :
  refreshRun parseDate r w now evs = Some (w', s') ->
  refreshing parseDate r s' \/ finished s'.
Proof.
  unfold refreshRun. rewrite updateMatchesCache_invoke.
  destruct (isUpdating r (cache w)).
  - apply runTask_refreshing. by right.
  - destruct (Throttle.waitTime _ _); apply runTask_refreshing; left; constructor.
Qed.

(** The step that receives a successful matches response ends the refresh
    with the classified list stored and returned. *)
Lemma refreshRun_success r w now evs ev allMatches w' s' :
  refreshRun parseDate r w now (evs ++ [ev]) = Some (w', s') ->
  eventMatches ev = Some allMatches ->
  s' = SDone (RList (classify parseDate r allMatches)) /\
  regionData r (cache w') = Some (classify parseDate r allMatches).
Proof.
  unfold refreshRun.
  destruct (runSync (updateMatchesCache parseDate r) w now) as [w1 s1] eqn:Hinv.
  rewrite runTask_app.
  destruct (runTask s1 w1 evs) as [[w2 s2]|] eqn:Hrun; [|done].
  assert (Hs2 : refreshing parseDate r s2 \/ finished s2).
  { apply (refreshRun_refreshing r w now evs w2). unfold refreshRun.
    by rewrite Hinv. }
  simpl. destruct (stepTask s2 w2 ev) as [[w3 s3]|] eqn:Hstep; [|done].
  intros [= <- <-] Hev.
  destruct Hs2 as [Hs2|Hs2]; [|by rewrite stepTask_finished in Hstep].
  pose proof (refreshing_step _ _ _ _ _ _ Hs2 Hstep) as H.
  rewrite Hev in H. destruct H as [-> ->]. split; [done|].
  by destruct r.
Qed.

(** C4, as amended: whenever a Current refresh receives a successful
    matches response, it stores (and returns) ten at most of the matches
    with (started and not ended) or (started and ended and non-empty
    score), all of them when they are ten or fewer; when each of those
    matches has a date/time (its date string is a date, or it has no date
    string and counts as dated at the epoch), the stored ones are in the
    order of the dates, most recent first, and none that is left out is more
    recent than one that is stored; of the raw list
    [{started: true, ended: false}, {started: false}] exactly the first is
    stored. *)
Theorem current_refresh_stores_live_matches
    w now evs t reason allMatches w' s' :
  refreshRun parseDate Current w now
    (evs ++ [EvResponse t
               (HttpOk (BodyMatches
                          (Payload (JStr "success") reason (Some allMatches))))])
  = Some (w', s') ->
  let wanted := filter Stated.wanted allMatches in
  exists kept rest,
    current (cache w') = Some kept /\
    s' = SDone (RList kept) /\
    kept ++ rest ≡ₚ wanted /\
    length kept = Nat.min 10 (length wanted) /\
    (Forall (Stated.dated parseDate) wanted ->
     StronglySorted (Stated.notBefore parseDate) (kept ++ rest)) /\
    (forall m1 m2,
       allMatches = [m1; m2] ->
       matchStarted m1 = Some true -> matchEnded m1 = Some false ->
       matchStarted m2 = Some false ->
       kept = [m1]).
Proof.
  intros Hrun wanted.
  destruct (refreshRun_success _ _ _ _ _ allMatches _ _ Hrun) as [-> Hstored].
  { reflexivity. }
  destruct (sortedLive_stated parseDate allMatches) as (rest & Hperm & Hlen & Hs).
  exists (sortedLive parseDate allMatches), rest.
  repeat split; try done.
  intros m1 m2 -> H1 H2 H3. unfold sortedLive. simpl.
  unfold isLiveOrCompletedWithScore. rewrite H1, H2, H3. reflexivity.
Qed.

(** C5: whenever an Upcoming refresh receives a successful matches response,
    it stores (and returns) the matches with [matchStarted = false], in
    the order of the upstream list, cut after the twentieth; of a raw list
    of 25 matches that have not started it keeps the first 20. *)
Theorem upcoming_refresh_stores_not_started w now evs ev allMatches w' s' :
  refreshRun parseDate Upcoming w now (evs ++ [ev]) = Some (w', s') ->
  eventMatches ev = Some allMatches ->
  let notStarted := List.filter (fun m => isFalse (matchStarted m)) allMatches in
  exists kept,
    upcoming (cache w') = Some kept /\
    s' = SDone (RList kept) /\
    kept = take 20 notStarted /\
    kept `sublist_of` allMatches /\
    (forall m, m ∈ kept -> m ∈ allMatches /\ matchStarted m = Some false) /\
    length kept = Nat.min 20 (length notStarted) /\
    ((length notStarted <= 20)%nat -> kept = notStarted) /\
    (Forall (fun m => matchStarted m = Some false) allMatches ->
     length allMatches = 25%nat ->
     kept = take 20 allMatches /\ length kept = 20%nat).
Proof.
  intros Hrun Hev notStarted.
  destruct (refreshRun_success _ _ _ _ _ _ _ _ Hrun Hev) as [-> Hstored].
  exists (upcomingMatches allMatches).
  destruct (upcomingMatches_facts allMatches) as (Heq & Hsub & Hin & Hlen & Hall).
  repeat split; try done.
  - by apply Hin.
  - by apply Hin.
  - rewrite Heq. f_equal. apply List_filter_all.
    eapply Forall_impl; [done|]. intros m Hm; simpl. by rewrite Hm.
  - rewrite Hlen.
    replace (List.filter (fun m => isFalse (matchStarted m)) allMatches)
      with allMatches; [lia|].
    symmetry. apply List_filter_all.
    eapply Forall_impl; [done|]. intros m Hm; simpl. by rewrite Hm.
Qed.

(** The public query serves a non-empty cached region as it is, without
    refreshing. *)
Lemma getMatches_cached r w now m l :
  regionData r (cache w) = Some (m :: l) ->
  runSync (getMatches parseDate r) w now = (w, SDone (RList (m :: l))).
Proof. intros H. unfold getMatches. cbn. rewrite H. reflexivity. Qed.

Lemma setUpdating_lists r b c :
  current (setUpdating r b c) = current c /\
  upcoming (setUpdating r b c) = upcoming c.
Proof. by destruct r. Qed.

Lemma runTask_keeps_lists r s w evs w' s' :
  refreshing parseDate r s \/ finished s ->
  runTask s w evs = Some (w', s') ->
  Forall (fun ev => eventMatches ev = None) evs ->
  current (cache w') = current (cache w) /\
  upcoming (cache w') = upcoming (cache w).
Proof.
  revert s w. induction evs as [|ev evs IH]; intros s w Hs; simpl.
  - by intros [= <- <-].
  - destruct Hs as [Hs|Hs]; [|by rewrite stepTask_finished].
    destruct (stepTask s w ev) as [[w1 s1]|] eqn:Hstep; [|done].
    intros Hrun Hall. inversion Hall as [|? ? Hev Hall']; subst.
    pose proof (refreshing_step _ _ _ _ _ _ Hs Hstep) as H.
    rewrite Hev in H.
    assert (Hs1 : refreshing parseDate r s1 \/ finished s1) by tauto.
    destruct (IH s1 w1 Hs1 Hrun Hall') as [-> ->].
    destruct H as [[_ ->]|[_ ->]]; [done | apply setUpdating_lists].
Qed.

(** C8: a refresh that never receives a successful response (its upstream
    calls end in transport errors or failure payloads) leaves both list
    regions as they were, and a non-empty cached region is what the public
    query then returns: with 10 stale entries in the Current cache and a
    transport error, [getCurrentMatches] returns the 10 entries. *)
Theorem failed_refresh_keeps_cached_lists r w now evs w' s' :
  refreshRun parseDate r w now evs = Some (w', s') ->
  Forall (fun ev => eventMatches ev = None) evs ->
  current (cache w') = current (cache w) /\
  upcoming (cache w') = upcoming (cache w) /\
  forall m l now',
    regionData r (cache w) = Some (m :: l) ->
    runSync (getMatches parseDate r) w' now' = (w', SDone (RList (m :: l))).
Proof.
  unfold refreshRun. rewrite updateMatchesCache_invoke. intros Hrun Hall.
  assert (Hlists : current (cache w') = current (cache w) /\
                   upcoming (cache w') = upcoming (cache w)).
  { destruct (isUpdating r (cache w)).
    - eapply (runTask_keeps_lists r) in Hrun; [done | by right | done].
    - destruct (Throttle.waitTime _ _);
        (eapply (runTask_keeps_lists r) in Hrun; [|left; constructor | done]);
        destruct Hrun as [-> ->]; apply setUpdating_lists. }
  destruct Hlists as [Hc Hu]. repeat split; [done | done |].
  intros m l now' Hcached. apply getMatches_cached.
  destruct r; simpl in *; congruence.
Qed.

End RefreshFacts.

(** ** One refresh at a time *)

Section MutualExclusion.

Context (parseDate : string -> option Z).

Lemma runSync_onDemand p w now :
  runSync (onDemand p) w now =
  let '(w', s) := runSync p w now in (w', onDemandSusp s).
Proof.
  unfold onDemand, awaitCall, mbind, prog_bind.
  rewrite runSync_tryCatch, !runSync_bind.
  by destruct (runSync p w now) as [w' [a|e|k|due k|url key id k]].
Qed.

Lemma stepTask_onDemandSusp core w ev :
  ~ finished core ->
  stepTask (onDemandSusp core) w ev =
  match stepTask core w ev with
  | Some (w', s') => Some (w', onDemandSusp s')
  | None => None
  end.
Proof.
  intros Hnf. unfold stepTask.
  destruct core as [a|e|k|due k|url key id k]; simpl in Hnf; try tauto;
    destruct ev as [now|now out]; cbn [resume onDemandSusp eventTime]; try done.
  - rewrite runSync_onDemand. by destruct (runSync k w now).
  - destruct (due <=? now); [|done].
    rewrite runSync_onDemand. by destruct (runSync k w now).
  - rewrite runSync_onDemand. by destruct (runSync (k out) w now).
Qed.

Lemma refreshing_not_finished r s : refreshing parseDate r s -> ~ finished s.
Proof. destruct 1; simpl; tauto. Qed.

Lemma onDemandSusp_not_tail r core v :
  refreshing parseDate r core -> onDemandSusp core <> STick (Ret v).
Proof. destruct 1; simpl; discriminate. Qed.

Lemma preserves_flags_getMatchDetails matchId :
  preserves (fun w => flags (cache w)) (getMatchDetails matchId).
Proof.
  unfold getMatchDetails. apply preserves_tryCatch.
  - unfold getMatchDetailsBody, mbind, prog_bind.
    apply preserves_bind; [apply (preserves_getW flags)|]. intros cached.
    apply preserves_bind; [apply (preserves_dateNow flags)|]. intros now.
    destruct cached as [c|]; [by destruct (_ <? _)|].
    apply preserves_bind; [apply (preserves_fetchDetail flags)|]. intros d.
    unfold cacheAndReturn, mbind, prog_bind.
    apply preserves_bind; [apply (preserves_dateNow flags)|]. intros now'.
    simpl. done.
  - intros e. unfold getMatchDetailsCatch, mbind, prog_bind.
    apply preserves_bind; [apply (preserves_getW flags)|].
    by intros [c|].
Qed.

Lemma flags_setUpdating_same r c c' :
  flags c' = flags c -> isUpdating r c' = isUpdating r c.
Proof. destruct r; unfold flags; simpl; congruence. Qed.

Lemma inFlight_region r r' t :
  inFlight parseDate r t -> inFlight parseDate r' t -> r = r'.
Proof. destruct t as [[r0|r0|id] s]; simpl; [| |done]; intros [<- _] [<- _]; done. Qed.

(** A step of any task: it stays REFRESHING with the flags as they are, or
    it leaves the [try] block and its flag is cleared, or it was not
    REFRESHING and touches no flag. *)
Lemma task_step c t w ev w' t' :
  taskInv parseDate (c, t) ->
  stepTask t w ev = Some (w', t') ->
  taskInv parseDate (c, t') /\
  (((forall r, ~ inFlight parseDate r (c, t)) /\
    (forall r, ~ inFlight parseDate r (c, t')) /\
    flags (cache w') = flags (cache w))
   \/
   exists r, inFlight parseDate r (c, t) /\
     ((inFlight parseDate r (c, t') /\ flags (cache w') = flags (cache w)) \/
      ((forall r', ~ inFlight parseDate r' (c, t')) /\
       flags (cache w') = flags (setUpdating r false (cache w))))).
Proof.
  destruct c as [r|r|matchId]; simpl.
  - (* a direct call of the refresh *)
    intros [Hs|Hs] Hstep; [|by rewrite stepTask_finished in Hstep].
    pose proof (refreshing_step _ _ _ _ _ _ _ Hs Hstep) as H.
    destruct (eventMatches ev) as [allMatches|].
    + destruct H as [-> ->]. split; [by right|]. right. exists r.
      split; [done|]. right. split; [|by destruct r].
      intros r' [_ Hr']. by apply refreshing_not_finished in Hr'.
    + destruct H as [[Hs' Hc]|[Hs' Hc]].
      * split; [by left|]. right. exists r. split; [done|]. left.
        by rewrite Hc.
      * split; [by right|]. right. exists r. split; [done|]. right.
        rewrite Hc. split; [|done].
        intros r' [_ Hr']. by apply refreshing_not_finished in Hr'.
  - (* a public query *)
    intros [(core & Hcore & ->)|[[v ->]|Hs]] Hstep;
      [| |by rewrite stepTask_finished in Hstep].
    + rewrite stepTask_onDemandSusp in Hstep
        by by eapply refreshing_not_finished.
      destruct (stepTask core w ev) as [[w1 s1]|] eqn:Hcstep; [|done].
      injection Hstep as <- <-.
      pose proof (refreshing_step _ _ _ _ _ _ _ Hcore Hcstep) as H.
      assert (Hdone : forall s1, finished s1 ->
                (exists v, onDemandSusp s1 = STick (Ret v)) \/
                finished (onDemandSusp s1)).
      { intros [a|e|k|due k|url key id k]; simpl; try done; eauto. }
      assert (Hout : forall s1, finished s1 ->
                forall r', ~ (r = r' /\ exists core,
                   refreshing parseDate r' core /\
                   onDemandSusp s1 = onDemandSusp core)).
      { intros [a|e|k|due k|url key id k] Hf r' (_ & core' & Hc' & Heq);
          simpl in Hf; try done; destruct Hc'; simpl in Heq; discriminate. }
      destruct (eventMatches ev) as [allMatches|].
      * destruct H as [-> ->]. split; [right; left; eauto|].
        right. exists r. split; [eauto|]. right.
        split; [by apply Hout | by destruct r].
      * destruct H as [[Hs' Hc]|[Hs' Hc]].
        -- split; [left; eauto|]. right. exists r. split; [eauto|]. left.
           rewrite Hc. eauto.
        -- split; [right; by apply Hdone|]. right. exists r.
           split; [eauto|]. right. rewrite Hc. split; [by apply Hout | done].
    + destruct ev as [now|now out]; [|done]. injection Hstep as <- <-.
      split; [by right; right|]. left. repeat split; try done.
      * intros r' (_ & core & Hcore & Heq).
        symmetry in Heq. by eapply onDemandSusp_not_tail in Heq.
      * intros r' (_ & core & Hcore & Heq). destruct Hcore; discriminate.
  - (* a call of the enricher *)
    intros Hs Hstep. unfold stepTask in Hstep.
    destruct (resume t ev) as [k|] eqn:Hres; [|done].
    injection Hstep as Hrun.
    assert (Hk : preserves (fun w => flags (cache w)) k).
    { destruct t as [a|e|k0|due k0|url key id k0], ev as [now|now out];
        simpl in *; try done.
      - congruence.
      - destruct (due <=? now); [congruence | done].
      - injection Hres as <-. apply Hs. }
    pose proof (preserves_runSync _ k w (eventTime ev) Hk) as [H1 H2].
    rewrite Hrun in H1, H2. simpl in H1, H2.
    split; [by destruct t'|]. left.
    repeat split; [intros ? [] | intros ? [] | done].
Qed.

Lemma getMatches_invoke r w now :
  runSync (getMatches parseDate r) w now =
  match regionData r (cache w) with
  | Some (m :: l) => (w, SDone (RList (m :: l)))
  | _ => runSync (onDemand (updateMatchesCache parseDate r)) w now
  end.
Proof.
  unfold getMatches, mbind, prog_bind. rewrite runSync_bind.
  cbn [getW runSync]. by destruct (regionData r (cache w)) as [[|m l]|].
Qed.

(** A call: the new task is REFRESHING only if its region was free, and
    then the flag is set; otherwise no flag changes. *)
Lemma task_invoke c w now w' t' :
  runSync (callProg parseDate c) w now = (w', t') ->
  taskInv parseDate (c, t') /\
  (((forall r, ~ inFlight parseDate r (c, t')) /\
    flags (cache w') = flags (cache w))
   \/
   exists r, isUpdating r (cache w) = false /\
     inFlight parseDate r (c, t') /\
     flags (cache w') = flags (setUpdating r true (cache w))).
Proof.
  destruct c as [r|r|matchId]; cbn [callProg taskInv inFlight].
  - rewrite updateMatchesCache_invoke.
    destruct (isUpdating r (cache w)) eqn:Hbusy.
    + intros [= <- <-]. split; [by right|]. left. split; [|done].
      intros r' [_ Hr']. by apply refreshing_not_finished in Hr'.
    + destruct (Throttle.waitTime _ _); intros [= <- <-];
        (split; [left; constructor|]); right; exists r;
        (split; [done|]); (split; [split; [done | constructor] | done]).
  - rewrite getMatches_invoke.
    assert (Hod : forall w' t',
      runSync (onDemand (updateMatchesCache parseDate r)) w now = (w', t') ->
      ((exists core, refreshing parseDate r core /\ t' = onDemandSusp core) \/
       (exists v, t' = STick (Ret v)) \/ finished t') /\
      (((forall r0, ~ (r = r0 /\ exists core,
            refreshing parseDate r0 core /\ t' = onDemandSusp core)) /\
        flags (cache w') = flags (cache w))
       \/
       exists r0, isUpdating r0 (cache w) = false /\
         (r = r0 /\ exists core,
            refreshing parseDate r0 core /\ t' = onDemandSusp core) /\
         flags (cache w') = flags (setUpdating r0 true (cache w)))).
    { clear w' t'. intros w' t'.
      rewrite runSync_onDemand, updateMatchesCache_invoke.
      destruct (isUpdating r (cache w)) eqn:Hbusy.
      - intros [= <- <-]. split; [right; left; eauto|]. left. split; [|done].
        intros r' (_ & core & Hcore & Heq). destruct Hcore; discriminate.
      - destruct (Throttle.waitTime _ _); intros [= <- <-].
        + split; [left; eexists; split; [apply AtGateTimer | reflexivity]|].
          right. exists r. split; [done|]. split; [split; [done|] | done].
          eexists; split; [apply AtGateTimer | reflexivity].
        + split; [left; eexists; split; [apply AtGateTick | reflexivity]|].
          right. exists r. split; [done|]. split; [split; [done|] | done].
          eexists; split; [apply AtGateTick | reflexivity]. }
    destruct (regionData r (cache w)) as [[|m l]|]; [apply Hod| |apply Hod].
    intros [= <- <-]. split; [by right; right|]. left. split; [|done].
    intros r' (_ & core & Hcore & Heq). destruct Hcore; discriminate.
  - intros Hrun.
    pose proof (preserves_runSync _ _ w now
                  (preserves_flags_getMatchDetails matchId)) as [H1 H2].
    rewrite Hrun in H1, H2. simpl in H1, H2.
    split; [by destruct t'|]. left. split; [intros ? [] | done].
Qed.

Lemma flagGuards_transfer s s' r :
  isUpdating r (cache (sys_world s')) = isUpdating r (cache (sys_world s)) ->
  (forall j, refreshingAt parseDate s' r j <-> refreshingAt parseDate s r j) ->
  flagGuards parseDate s r -> flagGuards parseDate s' r.
Proof.
  unfold flagGuards. intros -> Hiff.
  destruct (isUpdating r (cache (sys_world s))).
  - intros (i & Hi & Huniq). exists i. split; [by apply Hiff|].
    intros j Hj. by apply Huniq, Hiff.
  - intros Hnone j Hj. by apply (Hnone j), Hiff.
Qed.

Lemma isUpdating_flags r c c' : flags c' = flags c -> isUpdating r c' = isUpdating r c.
Proof. destruct r; unfold flags; simpl; congruence. Qed.

Lemma isUpdating_setUpdating r r' b c :
  isUpdating r (setUpdating r' b c) = if decide (r = r') then b else isUpdating r c.
Proof. by destruct r, r'. Qed.

(** The invariant is kept by every step of the service. *)
Lemma sysStep_inv s a s' :
  sysInv parseDate s -> sysStep parseDate s a = Some s' -> sysInv parseDate s'.
Proof.
  intros [Htasks Hflags]. unfold sysStep.
  destruct (actionTime a <? sys_clock s); [done|].
  destruct a as [c now|i ev].
  - (* a call *)
    destruct (runSync (callProg parseDate c) (sys_world s) now) as [w' t'] eqn:Hrun.
    intros [= <-]. apply task_invoke in Hrun as [Hinv Hcases].
    split; [apply Forall_app; split; [done | by constructor]|].
    assert (Hold : forall r j, (j < length (sys_tasks s))%nat ->
              (refreshingAt parseDate
                 (System w' now (sys_tasks s ++ [(c, t')])
                         (sys_calls s ++ issued t' now)) r j
               <-> refreshingAt parseDate s r j)).
    { intros r j Hj. unfold refreshingAt; simpl. by rewrite lookup_app_l. }
    assert (Hnew : forall j t,
              (sys_tasks s ++ [(c, t')]) !! j = Some t ->
              (j < length (sys_tasks s))%nat \/
              (j = length (sys_tasks s) /\ t = (c, t'))).
    { intros j t Hj. destruct (decide (j < length (sys_tasks s))%nat) as [|Hge];
        [by left|right].
      rewrite lookup_app_r in Hj by lia.
      destruct (j - length (sys_tasks s))%nat as [|n] eqn:Hn; simpl in Hj; [|done].
      split; [lia | congruence]. }
    intros r0. specialize (Hflags r0).
    destruct Hcases as [[Hnot Hfl]|(r & Hfree & Hin & Hfl)].
    + apply (flagGuards_transfer s); [by apply isUpdating_flags | | done].
      intros j. split.
      * intros (t & Hj & Ht). destruct (Hnew j t Hj) as [Hlt|[-> ->]].
        -- apply Hold; [done|]. by exists t.
        -- by apply Hnot in Ht.
      * intros (t & Hj & Ht). apply Hold; [by eapply lookup_lt_Some|]. by exists t.
    + destruct (decide (r0 = r)) as [->|Hne].
      * unfold flagGuards in *. simpl.
        rewrite (isUpdating_flags r _ _ Hfl), isUpdating_setUpdating.
        rewrite decide_True by done. rewrite Hfree in Hflags.
        exists (length (sys_tasks s)). split.
        -- exists (c, t'). split; [|done]. simpl.
           rewrite lookup_app_r by lia. by rewrite Nat.sub_diag.
        -- intros j (t & Hj & Ht). destruct (Hnew j t Hj) as [Hlt|[-> _]]; [|done].
           exfalso. apply (Hflags j). apply Hold; [done|]. by exists t.
      * apply (flagGuards_transfer s); [| |done].
        -- simpl. rewrite (isUpdating_flags r0 _ _ Hfl), isUpdating_setUpdating.
           by rewrite decide_False.
        -- intros j. split.
           ++ intros (t & Hj & Ht). destruct (Hnew j t Hj) as [Hlt|[-> ->]].
              ** apply Hold; [done|]. by exists t.
              ** exfalso. apply Hne. by eapply inFlight_region.
           ++ intros (t & Hj & Ht). apply Hold; [by eapply lookup_lt_Some|].
              by exists t.
  - (* an event for task [i] *)
    destruct (sys_tasks s !! i) as [[c t]|] eqn:Hi; [|done].
    destruct (stepTask t (sys_world s) ev) as [[w' t']|] eqn:Hstep; [|done].
    intros [= <-].
    assert (Hti : taskInv parseDate (c, t)).
    { rewrite Forall_lookup in Htasks. by eapply Htasks. }
    destruct (task_step _ _ _ _ _ _ Hti Hstep) as [Hinv Hcases].
    split; [by apply Forall_insert|].
    assert (Hlook : forall r j,
              refreshingAt parseDate
                (System w' (eventTime ev) (<[i := (c, t')]> (sys_tasks s))
                        (sys_calls s ++ issued t' (eventTime ev))) r j
              <-> (if decide (j = i) then inFlight parseDate r (c, t')
                   else refreshingAt parseDate s r j)).
    { intros r j. unfold refreshingAt; simpl. destruct (decide (j = i)) as [->|Hne].
      - rewrite list_lookup_insert_eq by by eapply lookup_lt_Some.
        split; [by intros (? & [= <-] & ?) | eauto].
      - by rewrite list_lookup_insert_ne. }
    assert (Hself : forall r, refreshingAt parseDate s r i <-> inFlight parseDate r (c, t)).
    { intros r. unfold refreshingAt. rewrite Hi.
      split; [by intros (? & [= <-] & ?) | eauto]. }
    intros r0. specialize (Hflags r0).
    destruct Hcases as [(Hnot & Hnot' & Hfl)|(r & Hin & [[Hin' Hfl]|[Hnot' Hfl]])].
    + apply (flagGuards_transfer s); [by apply isUpdating_flags | | done].
      intros j. rewrite Hlook. destruct (decide (j = i)) as [->|]; [|done].
      rewrite Hself. split; intros H; exfalso; [by apply Hnot' in H | by apply Hnot in H].
    + apply (flagGuards_transfer s); [by apply isUpdating_flags | | done].
      intros j. rewrite Hlook. destruct (decide (j = i)) as [->|]; [|done].
      rewrite Hself. split; intros H.
      * by rewrite (inFlight_region _ _ _ H Hin').
      * by rewrite (inFlight_region _ _ _ H Hin).
    + destruct (decide (r0 = r)) as [->|Hne].
      * unfold flagGuards in *. simpl.
        rewrite (isUpdating_flags r _ _ Hfl), isUpdating_setUpdating.
        rewrite decide_True by done.
        destruct (isUpdating r (cache (sys_world s))).
        -- destruct Hflags as (i0 & Hi0 & Huniq).
           assert (i0 = i) as -> by (symmetry; by apply Huniq, Hself).
           intros j Hj. apply Hlook in Hj.
           destruct (decide (j = i)) as [->|Hji]; [by apply Hnot' in Hj|].
           by apply Huniq in Hj.
        -- exfalso. apply (Hflags i). by apply Hself.
      * apply (flagGuards_transfer s); [| |done].
        -- simpl. rewrite (isUpdating_flags r0 _ _ Hfl), isUpdating_setUpdating.
           by rewrite decide_False.
        -- intros j. rewrite Hlook. destruct (decide (j = i)) as [->|]; [|done].
           rewrite Hself. split; intros H; exfalso.
           ++ by apply Hnot' in H.
           ++ apply Hne. by eapply inFlight_region.
Qed.

Lemma sysRun_inv acts s s' :
  sysInv parseDate s -> sysRun parseDate s acts = Some s' -> sysInv parseDate s'.
Proof.
  revert s. induction acts as [|a acts IH]; intros s Hinv; simpl.
  - by intros [= <-].
  - destruct (sysStep parseDate s a) as [s1|] eqn:Hstep; [|done].
    apply IH. by eapply sysStep_inv.
Qed.

Lemma idleSystem_inv w t :
  isUpdatingCurrent (cache w) = false ->
  isUpdatingUpcoming (cache w) = false ->
  sysInv parseDate (idleSystem w t).
Proof.
  intros Hc Hu. split; [constructor|].
  intros r. unfold flagGuards. simpl.
  assert (isUpdating r (cache w) = false) as -> by by destruct r.
  intros j (t0 & Hj & _). by destruct j.
Qed.

(** C3: in every state the service can reach from a start with both flags
    clear, whatever calls are made and however the tasks are interleaved,
    and for each list region: at most one task is REFRESHING it; its busy
    flag is set exactly while a task is; a call of the update function made
    meanwhile returns at once ([undefined]), changes nothing, issues no
    upstream call and leaves no work behind; a call made while the region
    is idle sets the flag before anything else happens; and the step by
    which a task stops REFRESHING, on any exit path, leaves the flag
    cleared. *)
Theorem one_refresh_per_region w t acts s :
  isUpdatingCurrent (cache w) = false ->
  isUpdatingUpcoming (cache w) = false ->
  sysRun parseDate (idleSystem w t) acts = Some s ->
  forall r,
    (forall i j,
       refreshingAt parseDate s r i -> refreshingAt parseDate s r j -> i = j) /\
    (isUpdating r (cache (sys_world s)) = true <->
     exists i, refreshingAt parseDate s r i) /\
    (forall i now s',
       refreshingAt parseDate s r i ->
       sysStep parseDate s (Invoke (UpdateCache r) now) = Some s' ->
       sys_world s' = sys_world s /\
       sys_calls s' = sys_calls s /\
       sys_tasks s' = sys_tasks s ++ [(UpdateCache r, SDone RUndefined)]) /\
    (forall now s',
       (forall i, ~ refreshingAt parseDate s r i) ->
       sysStep parseDate s (Invoke (UpdateCache r) now) = Some s' ->
       isUpdating r (cache (sys_world s')) = true /\
       refreshingAt parseDate s' r (length (sys_tasks s)) /\
       sys_calls s' = sys_calls s) /\
    (forall i ev s',
       refreshingAt parseDate s r i ->
       sysStep parseDate s (Deliver i ev) = Some s' ->
       ~ refreshingAt parseDate s' r i ->
       isUpdating r (cache (sys_world s')) = false).
Proof.
  intros Hc Hu Hrun r.
  assert (Hinv : sysInv parseDate s).
  { eapply sysRun_inv; [|done]. by apply idleSystem_inv. }
  pose proof (proj2 Hinv r) as Hg. unfold flagGuards in Hg.
  assert (Hflag : isUpdating r (cache (sys_world s)) = true <->
                  exists i, refreshingAt parseDate s r i).
  { destruct (isUpdating r (cache (sys_world s))).
    - destruct Hg as (i & Hi & _). split; eauto.
    - split; [done|]. intros [i Hi]. by apply Hg in Hi. }
  split; [|split; [done|split; [|split]]].
  - intros i j Hi Hj.
    destruct (isUpdating r (cache (sys_world s))); [|by apply Hg in Hi].
    destruct Hg as (i0 & _ & Huniq). by rewrite (Huniq i), (Huniq j).
  - intros i now s' Hi. unfold sysStep.
    destruct (_ <? _); [done|]. cbn [callProg].
    rewrite updateMatchesCache_invoke.
    rewrite (proj2 Hflag) by eauto. intros [= <-]. simpl.
    by rewrite app_nil_r.
  - intros now s' Hnone. unfold sysStep.
    destruct (_ <? _); [done|]. cbn [callProg].
    rewrite updateMatchesCache_invoke.
    destruct (isUpdating r (cache (sys_world s))) eqn:Hbusy.
    { destruct (proj1 Hflag eq_refl) as [i Hi]. by apply Hnone in Hi. }
    destruct (Throttle.waitTime _ _); intros [= <-];
      unfold refreshingAt; cbn [sys_world sys_tasks sys_calls issued];
      (split; [by destruct r|]);
      (split; [|by rewrite app_nil_r]);
      (eexists; split;
       [rewrite lookup_app_r by lia; rewrite Nat.sub_diag; reflexivity|]);
      (split; [done | constructor]).
  - intros i ev s' Hi Hstep Hnot.
    assert (Hinv' : sysInv parseDate s') by by eapply sysStep_inv.
    pose proof (proj2 Hinv' r) as Hg'. unfold flagGuards in Hg'.
    destruct (isUpdating r (cache (sys_world s'))) eqn:Hf'; [|done].
    exfalso. destruct Hg' as (i0 & Hi0 & _).
    destruct (decide (i0 = i)) as [->|Hne]; [done|].
    assert (Hi0s : refreshingAt parseDate s r i0).
    { revert Hstep Hi0. unfold sysStep, refreshingAt.
      destruct (_ <? _); [done|].
      destruct (sys_tasks s !! i) as [[c0 t0]|]; [|done].
      destruct (stepTask _ _ _) as [[w1 t1]|]; [|done].
      intros [= <-]; simpl. by rewrite list_lookup_insert_ne. }
    destruct (isUpdating r (cache (sys_world s))); [|by apply Hg in Hi].
    destruct Hg as (i1 & _ & Huniq).
    apply Hne. by rewrite (Huniq i0), (Huniq i).
Qed.

End MutualExclusion.

(** ** The player merge *)

Section MergeFacts.

Import Enricher.

Lemma entries_mapSet key value m k :
  entries (mapSet key value m) !! k =
  if decide (key = k) then Some value else entries m !! k.
Proof. unfold mapSet; simpl. apply lookup_insert. Qed.

Lemma addScorecardPlayer_lookup m player k :
  entries (addScorecardPlayer m player) !! k =
  if decide (keyOf player = Some k)
  then mergeScorecard (entries m !! k) player
  else entries m !! k.
Proof.
  unfold addScorecardPlayer, mergeScorecard.
  destruct (decide (keyOf player = Some k)) as [Hk|Hk]; unfold keyOf in Hk;
    destruct (nameOf player) as [name|]; simpl in Hk; try done.
  - injection Hk as <-.
    destruct (entries m !! _); rewrite entries_mapSet; by rewrite decide_True.
  - assert (JsString.toLowerCase name <> k) by congruence.
    destruct (entries m !! JsString.toLowerCase name);
      rewrite entries_mapSet; by rewrite decide_False.
Qed.

Lemma addScorePlayer_lookup m player k :
  entries (addScorePlayer m player) !! k =
  if decide (keyOf player = Some k)
  then mergeScore (entries m !! k) player
  else entries m !! k.
Proof.
  unfold addScorePlayer, mergeScore.
  destruct (decide (keyOf player = Some k)) as [Hk|Hk]; unfold keyOf in Hk;
    destruct (nameOf player) as [name|]; simpl in Hk; try done.
  - injection Hk as <-.
    destruct (entries m !! _); rewrite entries_mapSet; by rewrite decide_True.
  - assert (JsString.toLowerCase name <> k) by congruence.
    destruct (entries m !! JsString.toLowerCase name);
      rewrite entries_mapSet; by rewrite decide_False.
Qed.

(** Under one key, a pass is a fold over the records of that key. *)
Lemma scorecard_pass_lookup players m k :
  entries (foldl addScorecardPlayer m players) !! k =
  foldl mergeScorecard (entries m !! k) (recordsOf k players).
Proof.
  revert m. induction players as [|p players IH]; intros m; simpl; [done|].
  rewrite IH, addScorecardPlayer_lookup. unfold recordsOf.
  rewrite filter_cons. by destruct (decide (keyOf p = Some k)).
Qed.

Lemma score_pass_lookup players m k :
  entries (foldl addScorePlayer m players) !! k =
  foldl mergeScore (entries m !! k) (recordsOf k players).
Proof.
  revert m. induction players as [|p players IH]; intros m; simpl; [done|].
  rewrite IH, addScorePlayer_lookup. unfold recordsOf.
  rewrite filter_cons. by destruct (decide (keyOf p = Some k)).
Qed.

(** The match-info pass leaves every entry that exists as it is. *)
Lemma matchData_pass_lookup players m k :
  is_Some (entries m !! k) ->
  entries (foldl addMatchDataPlayer m players) !! k = entries m !! k.
Proof.
  revert m. induction players as [|p players IH]; intros m Hk; simpl; [done|].
  assert (Hstep : entries (addMatchDataPlayer m p) !! k = entries m !! k).
  { unfold addMatchDataPlayer.
    destruct (matchDataPlayerName p) as [| | | |playerName]; try done.
    destruct (_ && _); [|done].
    destruct (entries m !! JsString.toLowerCase playerName) eqn:Hex; [done|].
    rewrite entries_mapSet. destruct (decide _) as [<-|]; [|done].
    rewrite Hex in Hk. by destruct Hk. }
  rewrite IH; [done|]. by rewrite Hstep.
Qed.

Lemma addSquadPlayer_lookup m player k :
  entries (addSquadPlayer m player) !! k =
  if decide (keyOf player = Some k) then Some player else entries m !! k.
Proof.
  unfold addSquadPlayer.
  destruct (decide (keyOf player = Some k)) as [Hk|Hk]; unfold keyOf in Hk;
    destruct (nameOf player) as [name|]; simpl in Hk; try done.
  - injection Hk as <-. rewrite entries_mapSet. by rewrite decide_True.
  - rewrite entries_mapSet. rewrite decide_False; [done | congruence].
Qed.

(** Under one key the squad pass leaves the last squad record of that key. *)
Lemma squad_pass_lookup players m k :
  entries (foldl addSquadPlayer m players) !! k =
  match last (recordsOf k players) with
  | Some p => Some p
  | None => entries m !! k
  end.
Proof.
  revert m. induction players as [|p players IH]; intros m; simpl; [done|].
  rewrite IH, addSquadPlayer_lookup. unfold recordsOf. rewrite filter_cons.
  destruct (decide (keyOf p = Some k)); [|done].
  rewrite last_cons. by destruct (last _).
Qed.

Lemma prop_insert (o : obj) f v : prop (<[f := v]> o) f = v.
Proof. unfold prop. by rewrite lookup_insert_eq. Qed.

(** A non-empty image survives scorecard records. *)
Lemma mergeScorecard_keeps_image ps e :
  truthy (prop e "image") = true ->
  exists e', foldl mergeScorecard (Some e) ps = Some e' /\
             prop e' "image" = prop e "image".
Proof.
  revert e. induction ps as [|p ps IH]; intros e Himg; simpl; [eauto|].
  pose (e1 := (<["image"%string := orVal (prop e "image") (prop p "image")]>
                 (spread e p) : obj)).
  assert (H1 : prop e1 "image" = prop e "image").
  { unfold e1. rewrite prop_insert. unfold orVal. by rewrite Himg. }
  destruct (IH e1) as (e' & He' & Hi); [by rewrite H1|].
  exists e'. split; [exact He' | congruence].
Qed.

(** A field that no record carries is kept. *)
Lemma mergeScorecard_keeps_field ps e f :
  f <> "image"%string ->
  Forall (fun p : obj => p !! f = None) ps ->
  exists e', foldl mergeScorecard (Some e) ps = Some e' /\ e' !! f = e !! f.
Proof.
  intros Hf. revert e. induction ps as [|p ps IH]; intros e Hall; simpl; [eauto|].
  inversion Hall as [|? ? Hp Hps]; subst.
  pose (e1 := (<["image"%string := orVal (prop e "image") (prop p "image")]>
                 (spread e p) : obj)).
  assert (H1 : e1 !! f = e !! f).
  { unfold e1, spread. rewrite lookup_insert_ne by done.
    by rewrite lookup_union_r. }
  destruct (IH e1 Hps) as (e' & He' & Hk). exists e'.
  split; [exact He' | congruence].
Qed.

Lemma mergeScore_keeps_field ps e f :
  Forall (fun p : obj => p !! f = None) ps ->
  exists e', foldl mergeScore (Some e) ps = Some e' /\ e' !! f = e !! f.
Proof.
  revert e. induction ps as [|p ps IH]; intros e Hall; simpl; [eauto|].
  inversion Hall as [|? ? Hp Hps]; subst.
  destruct (IH (spread e p) Hps) as (e' & He' & Hk). exists e'.
  split; [exact He'|]. rewrite Hk. unfold spread. by rewrite lookup_union_r.
Qed.

(** A field takes the value of the last record of a pass that carries
    it. *)
Lemma mergeScore_last ps1 p ps2 st f v :
  p !! f = Some v ->
  Forall (fun q : obj => q !! f = None) ps2 ->
  exists e', foldl mergeScore st (ps1 ++ p :: ps2) = Some e' /\ e' !! f = Some v.
Proof.
  intros Hf Hrest. rewrite foldl_app. simpl.
  set (e1 := match foldl mergeScore st ps1 with
             | Some existing => spread existing p
             | None => p
             end).
  assert (H1 : e1 !! f = Some v).
  { unfold e1, spread. destruct (foldl mergeScore st ps1); [|done].
    by apply lookup_union_Some_l. }
  destruct (mergeScore_keeps_field ps2 e1 f Hrest) as (e' & He' & Hk).
  exists e'. split; [exact He' | congruence].
Qed.

Lemma mergeScorecard_last ps1 p ps2 st f v :
  p !! f = Some v -> f <> "image"%string ->
  Forall (fun q : obj => q !! f = None) ps2 ->
  exists e', foldl mergeScorecard st (ps1 ++ p :: ps2) = Some e' /\
             e' !! f = Some v.
Proof.
  intros Hf Hne Hrest. rewrite foldl_app. simpl.
  set (e1 := match foldl mergeScorecard st ps1 with
             | Some existing =>
                 <["image"%string :=
                     orVal (prop existing "image") (prop p "image")]>
                   (spread existing p)
             | None => p
             end).
  assert (H1 : e1 !! f = Some v).
  { unfold e1, spread. destruct (foldl mergeScorecard st ps1); [|done].
    rewrite lookup_insert_ne by done. by apply lookup_union_Some_l. }
  destruct (mergeScorecard_keeps_field ps2 e1 f Hne Hrest) as (e' & He' & Hk).
  exists e'. split; [exact He' | congruence].
Qed.

(** C6, as stated, fails: Virat Kohli is in the squad with the role
    WK-Batsman and the image kohli.png; the scorecard has him with 50 runs,
    the live score with 55 runs and no image. After the merge his role is
    the scorecard's generic Batsman, his image is [null], and his runs are
    the 55 of the later source. *)
Lemma merge_overwrites_squad_role_and_image :
  (fun sq => (prop sq "role", prop sq "image")) <$>
    last (recordsOf "virat kohli" Samples.kohliSquad)
  = Some (JStr "WK-Batsman", JStr "kohli.png") /\
  (fun e => prop e "runs") <$>
    last (recordsOf "virat kohli" Samples.kohliScorecard)
  = Some (JNum 50) /\
  (fun e => (prop e "role", prop e "image", prop e "runs")) <$>
    (entries (mergePlayers Samples.kohliSquad Samples.kohliScorecard
                           Samples.kohliScore []) !! "virat kohli"%string)
  = Some (JStr "Batsman", JNull, JNum 55).
Proof. vm_compute. repeat split; reflexivity. Qed.

(** C6 (amended): for a player of the squad source, with [sq] his squad
    record and [k] his lower-cased name: the scorecard pass keeps his squad
    image when it is not empty; the match-info pass changes nothing of his
    entry; a field (other than the image) that no scorecard or live-score
    record of his name carries keeps its squad value; and a field that such
    records carry takes the value of the last record that carries it, the
    live score after the scorecard. *)
Theorem merge_precedence playersFromSquad playersFromScorecard playersFromScore
    playersFromMatchData k sq :
  let m1 := foldl addSquadPlayer emptyMap playersFromSquad in
  let m2 := foldl addScorecardPlayer m1 playersFromScorecard in
  let m3 := foldl addScorePlayer m2 playersFromScore in
  let m4 := mergePlayers playersFromSquad playersFromScorecard
                         playersFromScore playersFromMatchData in
  last (recordsOf k playersFromSquad) = Some sq ->
  exists e2 e4,
    entries m1 !! k = Some sq /\
    entries m2 !! k = Some e2 /\
    entries m3 !! k = Some e4 /\
    entries m4 !! k = Some e4 /\
    (truthy (prop sq "image") = true -> prop e2 "image" = prop sq "image") /\
    (forall f, f <> "image"%string ->
       Forall (fun p : obj => p !! f = None)
              (recordsOf k playersFromScorecard ++ recordsOf k playersFromScore) ->
       e4 !! f = sq !! f) /\
    (forall before p after f v,
       recordsOf k playersFromScore = before ++ p :: after ->
       p !! f = Some v ->
       Forall (fun q : obj => q !! f = None) after ->
       e4 !! f = Some v) /\
    (forall before p after f v,
       recordsOf k playersFromScorecard = before ++ p :: after ->
       p !! f = Some v ->
       f <> "image"%string ->
       Forall (fun q : obj => q !! f = None) after ->
       Forall (fun q : obj => q !! f = None) (recordsOf k playersFromScore) ->
       e4 !! f = Some v).
Proof.
  intros m1 m2 m3 m4 Hsq.
  assert (H1 : entries m1 !! k = Some sq).
  { unfold m1. by rewrite squad_pass_lookup, Hsq. }
  assert (H2 : entries m2 !! k =
               foldl mergeScorecard (Some sq) (recordsOf k playersFromScorecard)).
  { unfold m2. by rewrite scorecard_pass_lookup, H1. }
  assert (H2' : exists e2, entries m2 !! k = Some e2).
  { rewrite H2. clear. generalize sq.
    induction (recordsOf k playersFromScorecard) as [|p ps IH]; intros e;
      simpl; eauto. }
  destruct H2' as [e2 He2].
  assert (H3 : entries m3 !! k =
               foldl mergeScore (Some e2) (recordsOf k playersFromScore)).
  { unfold m3. by rewrite score_pass_lookup, He2. }
  assert (H3' : exists e4, entries m3 !! k = Some e4).
  { rewrite H3. clear. generalize e2.
    induction (recordsOf k playersFromScore) as [|p ps IH]; intros e;
      simpl; eauto. }
  destruct H3' as [e4 He4].
  assert (H4 : entries m4 !! k = Some e4).
  { unfold m4, mergePlayers. fold m1. fold m2. fold m3.
    rewrite matchData_pass_lookup; [done | by rewrite He4]. }
  exists e2, e4. repeat split; try done.
  - intros Himg.
    destruct (mergeScorecard_keeps_image (recordsOf k playersFromScorecard) sq Himg)
      as (e' & He' & Hi). rewrite <- H2, He2 in He'. by injection He' as <-.
  - intros f Hf Hall. apply Forall_app in Hall as [Hsc Hs].
    destruct (mergeScorecard_keeps_field _ sq f Hf Hsc) as (e' & He' & Hk1).
    rewrite <- H2, He2 in He'. injection He' as <-.
    destruct (mergeScore_keeps_field _ e2 f Hs) as (e'' & He'' & Hk2).
    rewrite <- H3, He4 in He''. injection He'' as <-. congruence.
  - intros before p after f v Heq Hf Hafter.
    destruct (mergeScore_last before p after (Some e2) f v Hf Hafter)
      as (e' & He' & Hv).
    rewrite <- Heq, <- H3, He4 in He'. by injection He' as <-.
  - intros before p after f v Heq Hf Hne Hafter Hs.
    destruct (mergeScorecard_last before p after (Some sq) f v Hf Hne Hafter)
      as (e' & He' & Hv).
    rewrite <- Heq, <- H2, He2 in He'. injection He' as <-.
    destruct (mergeScore_keeps_field _ e2 f Hs) as (e'' & He'' & Hk2).
    rewrite <- H3, He4 in He''. injection He'' as <-. congruence.
Qed.

Lemma merge_precedence_witness :
  exists e4,
    entries (mergePlayers Samples.kohliSquad Samples.kohliScorecard
                          Samples.kohliScore []) !! "virat kohli"%string
    = Some e4 /\
    e4 !! "country"%string = Some (JStr "India") /\
    e4 !! "runs"%string = Some (JNum 55).
Proof.
  destruct (merge_precedence Samples.kohliSquad Samples.kohliScorecard
              Samples.kohliScore [] "virat kohli"%string
              (formatPlayer Samples.squadKohli))
    as (e2 & e4 & _ & _ & _ & H4 & _ & Hkeep & Hlast & _).
  { vm_compute. reflexivity. }
  exists e4. split; [exact H4|]. split.
  - rewrite (Hkeep "country"%string); [by vm_compute | done |].
    vm_compute. repeat constructor.
  - apply (Hlast []
             (scoreBatsman
                (object [("name"%string, JStr "Virat Kohli");
                         ("r"%string, JNum 55); ("b"%string, JNum 33)]))
             []).
    + vm_compute. reflexivity.
    + vm_compute. reflexivity.
    + constructor.
Defined.

End MergeFacts.

(** ** Match details: the last known good record *)

Section DetailFacts.

Abbreviation md w := (matchDetails (cache w)).

(** The [catch] block: the state is left as it is; the cached record is
    returned when there is one, else the error is thrown again. *)
Lemma getMatchDetailsCatch_run matchId e w now :
  runSync (getMatchDetailsCatch matchId e) w now =
  (w, match md w !! matchId with
      | Some c => SDone (RDetail (de_data c))
      | None => SFail e
      end).
Proof.
  unfold getMatchDetailsCatch. cbn. by destruct (md w !! matchId).
Qed.

(** One synchronous run of a call that is still fetching. *)
Lemma detailCont_run matchId k w now :
  preserves (fun w => md w) k ->
  match runSync (detailCont matchId k) w now with
  | (w', SDone v) =>
      (exists d, v = RDetail d /\
                 md w' = <[matchId := DetailEntry d now]> (md w)) \/
      (exists c, md w !! matchId = Some c /\ v = RDetail (de_data c) /\
                 md w' = md w)
  | (w', SFail e) => md w !! matchId = None /\ md w' = md w
  | (w', s') => fetching matchId s' /\ md w' = md w
  end.
Proof.
  intros Hk. unfold detailCont. rewrite runSync_tryCatch, runSync_bind.
  pose proof (preserves_runSync _ k w now Hk) as [H1 H2].
  destruct (runSync k w now) as [w1 [d|e|k'|due k'|url key id k']];
    simpl in H1, H2.
  - cbn. left. exists d. split; [done|]. by rewrite H1.
  - rewrite getMatchDetailsCatch_run. rewrite H1.
    destruct (md w !! matchId) as [c|]; [|done]. right. eauto.
  - split; [|done]. simpl. eauto.
  - split; [|done]. simpl. eauto.
  - split; [|done]. simpl. eauto.
Qed.

(** The call itself: a cached record, fresh or stale, is returned at once;
    on a miss the fetch starts. *)
Lemma getMatchDetails_invoke matchId w now :
  match md w !! matchId with
  | Some c => runSync (getMatchDetails matchId) w now
              = (w, SDone (RDetail (de_data c)))
  | None => runSync (getMatchDetails matchId) w now
            = runSync (detailCont matchId (fetchDetail matchId)) w now
  end.
Proof.
  unfold getMatchDetails, getMatchDetailsBody, detailCont.
  cbn [mbind prog_bind bind getW dateNow tryCatch runSync].
  destruct (md w !! matchId) as [c|]; [|reflexivity].
  by destruct (_ <? _).
Qed.

Lemma stepTask_fetching matchId s w ev w' s' :
  fetching matchId s ->
  stepTask s w ev = Some (w', s') ->
  exists k, preserves (fun w => md w) k /\
            runSync (detailCont matchId k) w (eventTime ev) = (w', s').
Proof.
  unfold stepTask.
  destruct s as [v|e|p|due p|url key id kk], ev as [now|now out]; simpl; try done.
  - intros (k & -> & Hk) [= <-]. eauto.
  - intros (k & -> & Hk). destruct (due <=? now); [|done]. intros [= <-]. eauto.
  - intros (k & -> & Hk) [= <-]. eauto.
Qed.

Lemma detailReach_fetching matchId s :
  detailReach matchId s -> fetching matchId s \/ finished s.
Proof.
  induction 1 as [w now w' s Hrun|s w ev w' s' _ IH Hstep].
  - pose proof (getMatchDetails_invoke matchId w now) as Hinv.
    destruct (md w !! matchId) as [c|].
    + rewrite Hinv in Hrun. injection Hrun as <- <-. by right.
    + rewrite Hinv in Hrun.
      pose proof (detailCont_run matchId (fetchDetail matchId) w now
                    (preserves_fetchDetail _ matchId)) as H.
      rewrite Hrun in H. destruct s; simpl; tauto.
  - destruct IH as [Hf|Hf]; [|by rewrite stepTask_finished in Hstep].
    destruct (stepTask_fetching _ _ _ _ _ _ Hf Hstep) as (k & Hk & Hrun).
    pose proof (detailCont_run matchId k w (eventTime ev) Hk) as H.
    rewrite Hrun in H. destruct s'; simpl; tauto.
Qed.

(** What a step of a call of [getMatchDetails] does, in whatever state the
    rest of the service has left: either the call goes on fetching and the
    detail cache is untouched; or the fetch is complete and its record is
    stored under the match id and returned, whatever is stored there; or an
    exception was raised, the cache is untouched, and the call returns the
    cached record of that id when there is one (fresh or stale) and throws
    only when there is none. The [catch] block itself never writes, and a
    call that finds a cached record returns it without fetching. *)
Lemma getMatchDetails_steps matchId s w ev w' s' :
  detailReach matchId s ->
  stepTask s w ev = Some (w', s') ->
  (match s' with
   | SDone v =>
       (exists d, v = RDetail d /\
          md w' = <[matchId := DetailEntry d (eventTime ev)]> (md w)) \/
       (exists c, md w !! matchId = Some c /\ v = RDetail (de_data c) /\
          md w' = md w)
   | SFail e => md w !! matchId = None /\ md w' = md w
   | _ => detailReach matchId s' /\ md w' = md w
   end) /\
  (forall e w now,
     runSync (getMatchDetailsCatch matchId e) w now =
     (w, match md w !! matchId with
         | Some c => SDone (RDetail (de_data c))
         | None => SFail e
         end)) /\
  (forall c w now,
     md w !! matchId = Some c ->
     runSync (getMatchDetails matchId) w now = (w, SDone (RDetail (de_data c)))).
Proof.
  intros Hreach Hstep. split; [|split].
  - destruct (detailReach_fetching _ _ Hreach) as [Hf|Hf];
      [|by rewrite stepTask_finished in Hstep].
    destruct (stepTask_fetching _ _ _ _ _ _ Hf Hstep) as (k & Hk & Hrun).
    pose proof (detailCont_run matchId k w (eventTime ev) Hk) as H.
    rewrite Hrun in H.
    destruct s'; try done; (split; [by eapply reach_step | tauto]).
  - intros. apply getMatchDetailsCatch_run.
  - intros c w0 now Hc. pose proof (getMatchDetails_invoke matchId w0 now) as H.
    by rewrite Hc in H.
Qed.

End DetailFacts.

(** A connection reset at the match-info call, while another call has
    cached a record for m1 meanwhile: the call returns the cached record,
    and the state is as it was. *)
Example getMatchDetails_error_returns_cached :
  stepTask Samples.detailAtFetch Samples.cachedWorld
    (EvResponse 1000500 (HttpErr Samples.connectionReset))
  = Some (Samples.cachedWorld, SDone (RDetail Samples.knownDetail)).
Proof. vm_compute. reflexivity. Qed.

(** C7: against the claim, a fetch that fails with a failure status
    overwrites the record of a fetch that succeeded. Two calls for m1
    overlap on a cold cache; the first is answered with a success, stores
    its record and returns it; the second, which missed the cache while the
    first was fetching, is answered with the status failure, and its next
    step stores that payload in place of the record and returns it. From
    then on every call for m1 is served the failure payload from the cache,
    without a fetch. *)
Theorem getMatchDetails_failure_overwrites_record :
  exists before after good,
    sysRun Samples.parseDate (idleSystem (initWorld ["A"]%string) 0)
      MoreSamples.overlappingCalls = Some before /\
    sys_tasks before !! 0%nat
    = Some (GetMatchDetails "m1", SDone (RDetail good)) /\
    md_matchData good = MoreSamples.answered /\
    is_Some (md_enhanced good) /\
    matchDetails (cache (sys_world before)) !! "m1"%string
    = Some (DetailEntry good 1020300) /\
    sysStep Samples.parseDate before (Deliver 1 (EvWake 1030400)) = Some after /\
    sys_tasks after !! 1%nat
    = Some (GetMatchDetails "m1",
            SDone (RDetail (MatchDetail MoreSamples.failureAnswer None))) /\
    matchDetails (cache (sys_world after)) !! "m1"%string
    = Some (DetailEntry (MatchDetail MoreSamples.failureAnswer None) 1030400) /\
    forall now,
      runSync (getMatchDetails "m1") (sys_world after) now
      = (sys_world after,
         SDone (RDetail (MatchDetail MoreSamples.failureAnswer None))).
Proof.
  eexists _, _, _. split; [vm_compute; reflexivity|].
  split; [vm_compute; reflexivity|].
  split; [reflexivity|].
  split; [by eexists|].
  split; [vm_compute; reflexivity|].
  split; [vm_compute; reflexivity|].
  split; [vm_compute; reflexivity|].
  split; [vm_compute; reflexivity|].
  intros now.
  lazymatch goal with
  | |- runSync _ ?w _ = _ =>
      pose proof (getMatchDetails_invoke "m1" w now) as H;
      assert (Hc : matchDetails (cache w) !! "m1"%string
                   = Some (DetailEntry
                             (MatchDetail MoreSamples.failureAnswer None)
                             1030400))
        by (vm_compute; reflexivity)
  end.
  rewrite Hc in H. exact H.
Qed.

(** ** The current batting state *)

Section BattingFacts.

Import Enricher.

Lemma currentInningIndex_lt (scorecard : list inning) :
  scorecard <> [] -> (currentInningIndex scorecard < length scorecard)%nat.
Proof.
  intros Hne. unfold currentInningIndex.
  destruct (list_find _ scorecard) as [[i inn]|] eqn:Hfind.
  - apply list_find_Some in Hfind as (Hi & _). by eapply lookup_lt_Some.
  - destruct scorecard; simpl; [done | lia].
Qed.

(** The function returns a batting state for every scorecard with an
    inning, and [null] for the others. *)
Lemma organizeBattingData_is_Some scorecardData squad info :
  is_Some (organizeBattingData scorecardData squad info) <->
  inningsOf scorecardData <> [].
Proof.
  unfold organizeBattingData. split.
  - intros [bd Hbd] Hnil. rewrite Hnil in Hbd. done.
  - intros Hne. apply currentInningIndex_lt in Hne.
    apply lookup_lt_is_Some in Hne as [inn ->]. eauto.
Qed.

(** What the lists of the batting state are, in terms of the current
    inning. *)
Lemma organizeBattingData_lists scorecardData squad info bd :
  organizeBattingData scorecardData squad info = Some bd ->
  exists currentInning,
    inningsOf scorecardData !! currentInningIndex (inningsOf scorecardData)
      = Some currentInning /\
    currentBatsmen bd =
      take 2 (omap batsmanDataOf
                (List.filter (fun e => negb (isDismissed e))
                             (default [] (batting currentInning)))) /\
    dismissedBatsmen bd =
      take 5 (omap batsmanDataOf
                (List.filter isDismissed (default [] (batting currentInning)))) /\
    currentBowlers bd =
      List.filter (fun b => truthy (bo_name b))
        (map bowlerDataOf (take 2 (default [] (bowling currentInning)))).
Proof.
  unfold organizeBattingData.
  destruct (inningsOf scorecardData !! _) as [inn|] eqn:Hinn; [|done].
  intros [= <-]. exists inn. simpl. done.
Qed.

(** C10: the list of batters who are not dismissed, as returned in the
    batting state, is the first two of them in batting order; it never has
    more than two entries, and has two whenever two or more batters are
    in. *)
Theorem currentBatsmen_capped_at_two scorecardData squad info bd :
  organizeBattingData scorecardData squad info = Some bd ->
  exists currentInning,
    inningsOf scorecardData !! currentInningIndex (inningsOf scorecardData)
      = Some currentInning /\
    let notOut :=
      omap batsmanDataOf
        (List.filter (fun e => negb (isDismissed e))
                     (default [] (batting currentInning))) in
    currentBatsmen bd = take 2 notOut /\
    (length (currentBatsmen bd) <= 2)%nat /\
    ((2 <= length notOut)%nat -> length (currentBatsmen bd) = 2%nat).
Proof.
  intros Hbd.
  destruct (organizeBattingData_lists _ _ _ _ Hbd) as (inn & Hinn & Hcur & _).
  exists inn. split; [done|]. simpl. rewrite Hcur.
  split; [done|]. rewrite length_take. split; lia.
Qed.

Lemma currentBatsmen_capped_at_two_witness :
  exists bd,
    organizeBattingData (Samples.scorecardOf [Samples.threeIn]) None
                        Samples.bareInfo = Some bd /\
    map bd_name (currentBatsmen bd) = ["a1"; "a3"]%string.
Proof.
  destruct (organizeBattingData _ _ _) as [bd|] eqn:Hbd;
    [|vm_compute in Hbd; discriminate].
  exists bd. split; [reflexivity|].
  destruct (currentBatsmen_capped_at_two _ _ _ _ Hbd) as (inn & Hinn & Hcur & _).
  vm_compute in Hinn. injection Hinn as <-.
  rewrite Hcur. vm_compute. reflexivity.
Defined.

(** C9, at an inning with six dismissed batters b1 ... b6 (b6 the most
    recent): the list returned is b1 ... b5, the five oldest dismissals,
    oldest first. The most recent dismissal is not in it. *)
Theorem dismissedBatsmen_keeps_first_five :
  option_map (fun bd => map bd_name (dismissedBatsmen bd))
    (organizeBattingData (Samples.scorecardOf [Samples.sixOut]) None
                         Samples.bareInfo)
  = Some ["b1"; "b2"; "b3"; "b4"; "b5"]%string.
Proof. vm_compute. reflexivity. Qed.

(** The next batter is the first squad member, in list order, whose
    lower-cased name is not among the lower-cased names of the inning's
    batting list. *)
Lemma nextBatsmanOf_spec (batted : gset string) (teamSquad : list obj) name :
  nextBatsmanOf batted teamSquad = Some name <->
  exists before player after,
    teamSquad = before ++ player :: after /\
    nameOf player = Some name /\
    (JsString.toLowerCase name ∉ batted) /\
    Forall (fun p => match nameOf p with
                     | Some n => JsString.toLowerCase n ∈ batted
                     | None => True
                     end) before.
Proof.
  induction teamSquad as [|p rest IH]; simpl.
  - split; [done|]. intros (before & player & after & Heq & _).
    by destruct before.
  - destruct (nameOf p) as [n|] eqn:Hn.
    + case_bool_decide as Hin.
      * rewrite IH. split.
        -- intros (before & player & after & -> & H1 & H2 & H3).
           exists (p :: before), player, after. repeat split; try done.
           constructor; [by rewrite Hn | done].
        -- intros (before & player & after & Heq & H1 & H2 & H3).
           destruct before as [|p0 before]; simpl in Heq.
           ++ injection Heq as -> ->. rewrite Hn in H1. injection H1 as ->. done.
           ++ injection Heq as -> ->. inversion H3; subst.
              exists before, player, after. done.
      * split.
        -- intros [= ->]. exists [], p, rest. repeat split; try done.
        -- intros (before & player & after & Heq & H1 & H2 & H3).
           destruct before as [|p0 before]; simpl in Heq.
           ++ injection Heq as -> ->. congruence.
           ++ injection Heq as -> ->. inversion H3 as [|? ? Hp0 ?]; subst.
              rewrite Hn in Hp0. done.
    + rewrite IH. split.
      * intros (before & player & after & -> & H1 & H2 & H3).
        exists (p :: before), player, after. repeat split; try done.
        constructor; [by rewrite Hn | done].
      * intros (before & player & after & Heq & H1 & H2 & H3).
        destruct before as [|p0 before]; simpl in Heq.
        -- injection Heq as -> ->. congruence.
        -- injection Heq as -> ->. inversion H3; subst.
           exists before, player, after. done.
Qed.

End BattingFacts.

Lemma one_refresh_per_region_witness :
  exists s,
    sysRun Samples.parseDate (idleSystem (initWorld ["A"]%string) 0)
      [Invoke (UpdateCache Current) 1000000;
       Invoke (UpdateCache Current) 1000001] = Some s /\
    (isUpdating Current (cache (sys_world s)) = true <->
     exists i, refreshingAt Samples.parseDate s Current i).
Proof.
  eexists. split; [reflexivity|].
  apply (one_refresh_per_region Samples.parseDate (initWorld ["A"]%string) 0
           [Invoke (UpdateCache Current) 1000000;
            Invoke (UpdateCache Current) 1000001]);
    reflexivity.
Defined.

Lemma current_refresh_stores_live_matches_witness :
  exists w' s',
    refreshRun Samples.parseDate Current (initWorld ["A"]%string) 1000000
      ([EvWake 1000000] ++
       [EvResponse 1000500
          (HttpOk (Samples.successBody
                     [Samples.startedMatch; Samples.notStartedMatch]))])
    = Some (w', s') /\
    current (cache w') = Some [Samples.startedMatch].
Proof.
  destruct (refreshRun _ _ _ _ _) as [[w' s']|] eqn:Hrun;
    [|vm_compute in Hrun; discriminate].
  exists w', s'. split; [reflexivity|].
  destruct (current_refresh_stores_live_matches _ _ _ _ _ _ _ _ _ Hrun)
    as (kept & rest & Hc & _ & _ & _ & _ & Hex).
  rewrite Hc. f_equal.
  by apply (Hex Samples.startedMatch Samples.notStartedMatch).
Defined.

(** C4, as stated, fails: of three live matches that arrive in the order
    dated 100, with the date string TBA, dated 200, the refresh stores all
    three in that order, the older one before the more recent one. (The
    comparator returns [NaN] for every pair with the second match, which
    the sort takes as equal; the first and the last are never put in
    order.) *)
Lemma current_refresh_keeps_order_on_invalid_date :
  exists w' s',
    refreshRun Samples.parseDate Current (initWorld ["A"]%string) 1000000
      [EvWake 1000000;
       EvResponse 1000500
         (HttpOk (Samples.successBody
                    [Samples.olderMatch; Samples.undatedMatch;
                     Samples.newerMatch]))]
    = Some (w', s') /\
    current (cache w')
    = Some [Samples.olderMatch; Samples.undatedMatch; Samples.newerMatch] /\
    Stated.dateOf Samples.parseDate Samples.olderMatch = Some 100 /\
    Stated.dateOf Samples.parseDate Samples.undatedMatch = None /\
    Stated.dateOf Samples.parseDate Samples.newerMatch = Some 200.
Proof.
  eexists _, _. split; [vm_compute; reflexivity|].
  repeat split; vm_compute; reflexivity.
Qed.

Lemma upcoming_refresh_stores_not_started_witness :
  exists w' s',
    refreshRun Samples.parseDate Upcoming (initWorld ["A"]%string) 1000000
      ([EvWake 1000000] ++
       [EvResponse 1000500
          (HttpOk (Samples.successBody Samples.twentyFiveNotStarted))])
    = Some (w', s') /\
    upcoming (cache w') = Some (take 20 Samples.twentyFiveNotStarted).
Proof.
  destruct (refreshRun _ _ _ _ _) as [[w' s']|] eqn:Hrun;
    [|vm_compute in Hrun; discriminate].
  exists w', s'. split; [reflexivity|].
  destruct (upcoming_refresh_stores_not_started _ _ _ _ _ _ _ _ Hrun eq_refl)
    as (kept & Hc & _ & _ & _ & _ & _ & _ & Hex).
  rewrite Hc. f_equal. apply Hex; [|reflexivity].
  unfold Samples.twentyFiveNotStarted. apply Forall_forall.
  intros m Hm. apply list_elem_of_fmap in Hm as (i & -> & _). reflexivity.
Defined.

Lemma failed_refresh_keeps_cached_lists_witness :
  exists w' s',
    refreshRun Samples.parseDate Current Samples.staleWorld 5000000
      [EvWake 5000000; EvResponse 5000800 (HttpErr Samples.connectionReset)]
    = Some (w', s') /\
    runSync (getMatches Samples.parseDate Current) w' 5001000
    = (w', SDone (RList Samples.tenEntries)).
Proof.
  destruct (refreshRun _ _ _ _ _) as [[w' s']|] eqn:Hrun;
    [|vm_compute in Hrun; discriminate].
  exists w', s'. split; [reflexivity|].
  destruct (failed_refresh_keeps_cached_lists _ _ _ _ _ _ _ Hrun)
    as (_ & _ & Hget).
  - repeat constructor.
  - apply Hget. reflexivity.
Defined.

(** * Further properties

    The rest of the service: the loading of the keys, the selection and the
    rotation as such, the periodic update, the attempts of a refresh and
    what they do to the keys, the public queries, the detail fetch, the
    merge as a whole, the series list, and the housekeeping functions. *)

(** ** Loading the keys *)

Section KeyInitFacts.

Import KeyInit.

Lemma trimStart_shape s :
  trimStart s = EmptyString \/
  exists c s', trimStart s = String c s' /\ isWhiteSpace c = false.
Proof.
  induction s as [|c s IH]; simpl; [by left|].
  destruct (isWhiteSpace c) eqn:Hc; [done|]. right. eauto.
Qed.

Lemma trimEnd_head c s :
  isWhiteSpace c = false -> trimEnd (String c s) = String c (trimEnd s).
Proof. intros Hc. simpl. rewrite Hc. by destruct (trimEnd s). Qed.

Lemma trimEnd_idemp s : trimEnd (trimEnd s) = trimEnd s.
Proof.
  induction s as [|c s IH]; simpl; [done|].
  destruct (trimEnd s) as [|d u] eqn:Hu.
  - destruct (isWhiteSpace c) eqn:Hc; simpl; [done | by rewrite Hc].
  - change (trimEnd (String c (String d u))) with
      (match trimEnd (String d u) with
       | EmptyString => if isWhiteSpace c then EmptyString else String c EmptyString
       | t => String c t
       end).
    by rewrite IH.
Qed.

Lemma trim_idemp s : trim (trim s) = trim s.
Proof.
  unfold trim. destruct (trimStart_shape s) as [->|(c & s' & -> & Hc)]; [done|].
  rewrite (trimEnd_head _ _ Hc). simpl trimStart. rewrite Hc.
  by rewrite (trimEnd_head _ _ Hc), trimEnd_idemp.
Qed.

Lemma hasChar_trimStart c s : hasChar c (trimStart s) = true -> hasChar c s = true.
Proof.
  induction s as [|d s IH]; simpl; [done|].
  destruct (isWhiteSpace d); [|done].
  intros H. rewrite (IH H). apply orb_true_r.
Qed.

Lemma hasChar_trimEnd c s : hasChar c (trimEnd s) = true -> hasChar c s = true.
Proof.
  induction s as [|d s IH]; simpl; [done|].
  destruct (trimEnd s) as [|e u].
  - destruct (isWhiteSpace d); simpl; [done|].
    rewrite orb_false_r. intros ->. done.
  - simpl in *. intros [->|H]%orb_true_iff; [done|].
    rewrite (IH H). apply orb_true_r.
Qed.

Lemma hasChar_trim c s : hasChar c s = false -> hasChar c (trim s) = false.
Proof.
  intros Hs. destruct (hasChar c (trim s)) eqn:H; [|done].
  apply hasChar_trimEnd, hasChar_trimStart in H. congruence.
Qed.

Lemma split_not_nil sep s : split sep s <> [].
Proof.
  induction s as [|c s IH]; simpl; [done|].
  destruct (Ascii.eqb c sep); [done|]. by destruct (split sep s).
Qed.

Lemma split_pieces sep s :
  Forall (fun piece => hasChar sep piece = false) (split sep s).
Proof.
  induction s as [|c s IH]; simpl; [by repeat constructor|].
  destruct (Ascii.eqb c sep) eqn:Hc; [by constructor|].
  destruct (split sep s) as [|piece rest]; [by repeat constructor; simpl; rewrite Hc|].
  inversion IH; subst. constructor; [|done]. simpl. by rewrite Hc.
Qed.

Lemma split_whole sep s : hasChar sep s = false -> split sep s = [s].
Proof.
  induction s as [|c s IH]; simpl; [done|].
  intros [Hc Hs]%orb_false_iff. rewrite Hc, (IH Hs). done.
Qed.

Lemma split_app sep a b :
  hasChar sep a = false ->
  split sep (String.append a (String sep b)) = a :: split sep b.
Proof.
  induction a as [|c a IH]; simpl.
  - intros _. by rewrite Ascii.eqb_refl.
  - intros [Hc Ha]%orb_false_iff. by rewrite Hc, (IH Ha).
Qed.

Lemma split_concat sep keys :
  keys <> [] ->
  Forall (fun key => hasChar sep key = false) keys ->
  split sep (String.concat (String sep EmptyString) keys) = keys.
Proof.
  induction keys as [|key keys IH]; [done|]. intros _ Hall.
  inversion Hall as [|? ? Hkey Hkeys]; subst.
  destruct keys as [|key' keys]; [by apply split_whole|].
  change (String.concat (String sep EmptyString) (key :: key' :: keys)) with
    (String.append key
       (String sep (String.concat (String sep EmptyString) (key' :: keys)))).
  rewrite (split_app _ _ _ Hkey). f_equal. by apply IH.
Qed.

(** X1: every key that is loaded is clean: not empty, without a comma, without
    white space at either end. *)
Theorem parseKeys_clean keysString : Forall cleanKey (parseKeys keysString).
Proof.
  apply Forall_forall. intros key.
  unfold parseKeys. rewrite list_elem_of_In, filter_In, <- list_elem_of_In.
  intros [Hin Hlen]. apply list_elem_of_fmap in Hin as (piece & -> & Hin).
  repeat split.
  - intros Heq. rewrite Heq in Hlen. done.
  - apply hasChar_trim.
    pose proof (split_pieces "," keysString) as Hall.
    rewrite Forall_forall in Hall. by apply Hall.
  - apply trim_idemp.
Qed.

(** X2: round trip: clean keys joined by commas are loaded as they are, in
    their order. *)
Theorem parseKeys_join keys :
  Forall cleanKey keys -> parseKeys (String.concat "," keys) = keys.
Proof.
  intros Hall. unfold parseKeys.
  destruct keys as [|key keys]; [done|].
  rewrite split_concat; [|done|].
  2:{ eapply Forall_impl; [exact Hall|]. by intros k (_ & ? & _). }
  induction Hall as [|k ks (Hne & _ & Htrim) _ IH]; [done|].
  simpl. rewrite Htrim.
  replace (0 <? String.length k)%nat with true.
  - by rewrite IH.
  - symmetry. apply Nat.ltb_lt. destruct k; [done | simpl; lia].
Qed.

Lemma parseKeys_join_witness :
  parseKeys (String.concat "," ["k1"; "k-two"; "K 3"]%string)
  = ["k1"; "k-two"; "K 3"]%string.
Proof.
  apply (parseKeys_join ["k1"; "k-two"; "K 3"]%string).
  repeat constructor; vm_compute; congruence.
Defined.

Lemma resetLimits_lookup keys m k :
  resetLimits m keys !! k =
  if bool_decide (k ∈ keys) then Some (KeyInfo None) else m !! k.
Proof.
  unfold resetLimits. revert m.
  induction keys as [|key keys IH]; intros m.
  - case_bool_decide as Hin; [by apply elem_of_nil in Hin | done].
  - cbn [foldl]. rewrite IH.
    destruct (decide (k ∈ keys)) as [Hin|Hin].
    + rewrite !bool_decide_eq_true_2; [done | by right | done].
    + rewrite (bool_decide_eq_false_2 _ Hin).
      destruct (decide (k = key)) as [->|Hne].
      * rewrite bool_decide_eq_true_2 by left. apply lookup_insert_eq.
      * rewrite bool_decide_eq_false_2; [by apply lookup_insert_ne|].
        by intros [?|?]%elem_of_cons.
Qed.

Lemma initializeApiKeys_loads keysString :
  parseKeys keysString <> [] ->
  initializeApiKeys (Some keysString) atLoad
  = KeyState (initPool (parseKeys keysString)) true.
Proof.
  intros Hne. unfold initializeApiKeys. simpl.
  destruct (String.eqb keysString "") eqn:He.
  - apply String.eqb_eq in He. subst. done.
  - by destruct (parseKeys keysString).
Qed.

(** X3: at startup the pool is the one of the keys read from the environment,
    none of them blocked, the cursor on the first; and a further
    initialization changes nothing, whatever the environment says then. *)
Theorem initializeApiKeys_at_load keysString env' :
  parseKeys keysString <> [] ->
  initializeApiKeys (Some keysString) atLoad
    = KeyState (initPool (parseKeys keysString)) true /\
  initializeApiKeys env' (initializeApiKeys (Some keysString) atLoad)
    = initializeApiKeys (Some keysString) atLoad.
Proof.
  intros Hne. split; [by apply initializeApiKeys_loads|].
  by rewrite (initializeApiKeys_loads _ Hne).
Qed.

Lemma initializeApiKeys_at_load_witness :
  initializeApiKeys (Some " A, B ,,"%string) atLoad
    = KeyState (initPool ["A"; "B"]%string) true /\
  initializeApiKeys None (initializeApiKeys (Some " A, B ,,"%string) atLoad)
    = initializeApiKeys (Some " A, B ,,"%string) atLoad.
Proof.
  apply (initializeApiKeys_at_load " A, B ,,"%string None).
  vm_compute. congruence.
Defined.

(** X4: reinitialization lifts every cooldown: the keys it loads are all
    free at any time, the entries of other keys and the cursor are left
    as they are. *)
Theorem reinitializeApiKeys_unblocks keysString s :
  parseKeys keysString <> [] ->
  let s' := reinitializeApiKeys (Some keysString) s in
  keysInitialized s' = true /\
  apiKeys (kpool s') = parseKeys keysString /\
  currentKeyIndex (kpool s') = currentKeyIndex (kpool s) /\
  (forall k now, k ∈ apiKeys (kpool s') ->
     isBlocked (keyRateLimitMap (kpool s')) now k = false) /\
  (forall k, k ∉ apiKeys (kpool s') ->
     keyRateLimitMap (kpool s') !! k = keyRateLimitMap (kpool s) !! k).
Proof.
  intros Hne. unfold reinitializeApiKeys, initializeApiKeys. simpl.
  destruct (String.eqb keysString "") eqn:He.
  { apply String.eqb_eq in He. subst. done. }
  destruct (parseKeys keysString) as [|key keys] eqn:Hp; [done|].
  cbn [kpool apiKeys keyRateLimitMap currentKeyIndex keysInitialized].
  split; [done|]. split; [done|]. split; [done|]. split.
  - intros k now Hk. unfold isBlocked. rewrite resetLimits_lookup.
    by rewrite bool_decide_eq_true_2.
  - intros k Hk. rewrite resetLimits_lookup. by rewrite bool_decide_eq_false_2.
Qed.

Lemma reinitializeApiKeys_unblocks_witness :
  let s := KeyState (markKeyAsRateLimited (initPool ["A"; "B"]%string) "A" 1000) true in
  let s' := reinitializeApiKeys (Some "A,B"%string) s in
  keysInitialized s' = true /\
  apiKeys (kpool s') = parseKeys "A,B" /\
  currentKeyIndex (kpool s') = currentKeyIndex (kpool s) /\
  (forall k now, k ∈ apiKeys (kpool s') ->
     isBlocked (keyRateLimitMap (kpool s')) now k = false) /\
  (forall k, k ∉ apiKeys (kpool s') ->
     keyRateLimitMap (kpool s') !! k = keyRateLimitMap (kpool s) !! k).
Proof.
  apply (reinitializeApiKeys_unblocks "A,B"%string
           (KeyState (markKeyAsRateLimited (initPool ["A"; "B"]%string) "A" 1000) true)).
  vm_compute. congruence.
Defined.

(** X23: from startup on, whatever selections and markings follow, the cursor
    stays inside the key list and the list is the one that was loaded. *)
Theorem cursor_stays_inside keysString ops :
  parseKeys keysString <> [] ->
  let p := runOps (kpool (initializeApiKeys (Some keysString) atLoad)) ops in
  wf p /\ apiKeys p = parseKeys keysString.
Proof.
  intros Hne p. unfold p. rewrite (initializeApiKeys_loads _ Hne).
  cbn [kpool].
  destruct (wf_runOps ops (initPool (parseKeys keysString))) as [Hwf Hkeys].
  - done.
  - unfold wf. simpl. destruct (parseKeys keysString); [done | simpl; lia].
  - done.
Qed.

Lemma cursor_stays_inside_witness :
  let p := runOps (kpool (initializeApiKeys (Some "A, B"%string) atLoad))
                  [OpGet 10; OpMark "A"%string 20; OpGet 30;
                   OpMark "B"%string 40; OpGet 50] in
  wf p /\ apiKeys p = parseKeys "A, B".
Proof.
  apply (cursor_stays_inside "A, B"%string
           [OpGet 10; OpMark "A"%string 20; OpGet 30;
            OpMark "B"%string 40; OpGet 50]).
  vm_compute. congruence.
Defined.

End KeyInitFacts.

(** ** Selection and rotation *)

Section SelectionFacts.

Lemma isBlocked_later m now now' k :
  now <= now' -> isBlocked m now k = false -> isBlocked m now' k = false.
Proof.
  unfold isBlocked. intros Hle.
  destruct (m !! k) as [[[b|]]|]; [|done..].
  rewrite !andb_false_iff, !Z.ltb_ge. intros [?|?]; [by left | right; lia].
Qed.

Lemma pool_eta p : Pool (apiKeys p) (currentKeyIndex p) (keyRateLimitMap p) = p.
Proof. by destruct p. Qed.

Lemma getApiKey_cursor p now :
  wf p ->
  exists k, snd (getApiKey p now) = Some k /\
            apiKeys p !! currentKeyIndex (fst (getApiKey p now)) = Some k.
Proof.
  unfold wf, getApiKey. intros Hwf.
  destruct (apiKeys p) as [|k0 ks] eqn:Hks; [simpl in *; lia|].
  rewrite <- Hks in *.
  destruct (scanKeys _ _ _ _ _) as [idx [k|]] eqn:Hs; simpl.
  - apply scanKeys_found in Hs as [Hk _]. eauto.
  - apply scanKeys_none_all in Hs as [-> _]; [|done].
    destruct (lookup_lt_is_Some_2 _ _ Hwf) as [k Hk]. rewrite Hk. eauto.
Qed.

(** X5: the selection returns a configured key, the one its cursor rests on
    afterwards, and touches nothing but the cursor. *)
Theorem getApiKey_under_cursor p now :
  wf p ->
  exists k, snd (getApiKey p now) = Some k /\
            k ∈ apiKeys p /\
            apiKeys p !! currentKeyIndex (fst (getApiKey p now)) = Some k /\
            apiKeys (fst (getApiKey p now)) = apiKeys p /\
            keyRateLimitMap (fst (getApiKey p now)) = keyRateLimitMap p.
Proof.
  intros Hwf. destruct (getApiKey_cursor p now Hwf) as (k & Hk & Hcur).
  destruct (getApiKey_map p now) as [Hm Hkeys].
  exists k. split; [done|]. split; [|done].
  by apply list_elem_of_lookup_2 in Hcur.
Qed.

Lemma getApiKey_under_cursor_witness :
  let p := markKeyAsRateLimited (initPool ["A"; "B"]%string) "B" 1000 in
  exists k, snd (getApiKey p 2000) = Some k /\
            k ∈ apiKeys p /\
            apiKeys p !! currentKeyIndex (fst (getApiKey p 2000)) = Some k /\
            apiKeys (fst (getApiKey p 2000)) = apiKeys p /\
            keyRateLimitMap (fst (getApiKey p 2000)) = keyRateLimitMap p.
Proof.
  apply (getApiKey_under_cursor
           (markKeyAsRateLimited (initPool ["A"; "B"]%string) "B" 1000) 2000).
  unfold wf. simpl. lia.
Defined.

Lemma getApiKey_at_cursor p now k :
  apiKeys p !! currentKeyIndex p = Some k ->
  isBlocked (keyRateLimitMap p) now k = false ->
  getApiKey p now = (p, Some k).
Proof.
  intros Hcur Hfree. unfold getApiKey.
  destruct (apiKeys p) as [|k0 ks] eqn:Hks; [done|].
  cbn [length scanKeys]. rewrite Hcur, Hfree.
  by rewrite <- Hks, pool_eta.
Qed.

(** X6: the selection does not rotate on its own: asked again at the same
    instant it returns the same key and moves nothing; and a key that was
    free when it was returned is returned again at any later time, as long
    as no key is marked. *)
Theorem getApiKey_sticky p now k :
  wf p ->
  snd (getApiKey p now) = Some k ->
  let p1 := fst (getApiKey p now) in
  getApiKey p1 now = (p1, Some k) /\
  (isBlocked (keyRateLimitMap p) now k = false ->
   forall now', now <= now' -> getApiKey p1 now' = (p1, Some k)).
Proof.
  intros Hwf Hk p1.
  destruct (getApiKey_map p now) as [Hm Hkeys]. fold p1 in Hm, Hkeys.
  destruct (getApiKey_cursor p now Hwf) as (k' & Hk' & Hcur).
  rewrite Hk in Hk'. injection Hk' as <-. fold p1 in Hcur.
  rewrite <- Hkeys in Hcur.
  split.
  - destruct (isBlocked (keyRateLimitMap p) now k) eqn:Hb.
    2:{ apply getApiKey_at_cursor; [done | by rewrite Hm]. }
    (* the whole pool is blocked: the scan comes back to where it started *)
    clear Hm Hkeys Hcur. subst p1.
    assert (Hp1 : fst (getApiKey p now) = p).
    { unfold getApiKey in *. unfold wf in Hwf.
      destruct (apiKeys p) as [|k0 ks] eqn:Hks; [done|].
      destruct (scanKeys (k0 :: ks) _ _ _ _) as [idx [k1|]] eqn:Hs.
      - apply scanKeys_found in Hs as [_ Hnb]. simpl in Hk. congruence.
      - apply scanKeys_none_all in Hs as [-> _]; [|done].
        cbn [fst]. by rewrite <- Hks, pool_eta. }
    rewrite Hp1. by apply injective_projections.
  - intros Hfree now' Hle. apply getApiKey_at_cursor; [done|].
    rewrite Hm. by apply (isBlocked_later _ now).
Qed.

Lemma getApiKey_sticky_witness :
  let p := markKeyAsRateLimited (initPool ["A"; "B"]%string) "A" 1000 in
  let p1 := fst (getApiKey p 2000) in
  getApiKey p1 2000 = (p1, Some "B"%string) /\
  (isBlocked (keyRateLimitMap p) 2000 "B" = false ->
   forall now', 2000 <= now' -> getApiKey p1 now' = (p1, Some "B"%string)).
Proof.
  apply (getApiKey_sticky
           (markKeyAsRateLimited (initPool ["A"; "B"]%string) "A" 1000)
           2000 "B"%string).
  - unfold wf. simpl. lia.
  - vm_compute. reflexivity.
Defined.

(** X7: rotation: after the key in use is marked, the selection returns the key
    that follows the cursor in the list (going round at the end), if that
    one is free. *)
Theorem markKeyAsRateLimited_rotates p k now now' k' :
  apiKeys p !! ((currentKeyIndex p + 1) mod length (apiKeys p))%nat = Some k' ->
  k' <> k ->
  isBlocked (keyRateLimitMap p) now' k' = false ->
  snd (getApiKey (markKeyAsRateLimited p k now) now') = Some k'.
Proof.
  intros Hnext Hne Hfree.
  rewrite (getApiKey_at_cursor _ now' k'); [done | done |].
  unfold isBlocked in *. simpl. by rewrite lookup_insert_ne.
Qed.

Lemma markKeyAsRateLimited_rotates_witness :
  snd (getApiKey (markKeyAsRateLimited (initPool ["A"; "B"; "C"]%string) "A" 1000)
                 1001)
  = Some "B"%string.
Proof.
  apply (markKeyAsRateLimited_rotates (initPool ["A"; "B"; "C"]%string)
           "A"%string 1000 1001 "B"%string).
  - reflexivity.
  - congruence.
  - reflexivity.
Defined.

End SelectionFacts.

(** ** The periodic update *)

Section UpdaterFacts.

Import Updater.

Lemma allKeysBlocked_spec p now :
  allKeysBlocked p now = true <-> allBlocked p now.
Proof.
  unfold allKeysBlocked, allBlocked.
  rewrite forallb_forall, Forall_forall.
  split; intros H k Hk; apply H; by apply list_elem_of_In.
Qed.

Lemma allKeysBlocked_false p now :
  allKeysBlocked p now = false ->
  exists k, k ∈ apiKeys p /\ isBlocked (keyRateLimitMap p) now k = false.
Proof.
  unfold allKeysBlocked. intros Hall.
  apply not_true_iff_false in Hall. rewrite forallb_forall in Hall.
  destruct (List.find (fun k => negb (isBlocked (keyRateLimitMap p) now k))
              (apiKeys p)) as [k|] eqn:Hf.
  - apply find_some in Hf as [Hin Hb]. exists k.
    split; [by apply list_elem_of_In | by apply negb_true_iff].
  - exfalso. apply Hall. intros k Hk.
    apply (find_none _ _ Hf) in Hk. by apply negb_false_iff.
Qed.

(** X8: the three outcomes of a tick: it throws exactly when no key is
    configured; it skips exactly when keys are configured and all of them
    are blocked, and then reports at least one minute; it goes on exactly
    when some configured key is free. *)
Theorem periodicTick_outcome p now :
  match periodicTick p now with
  | TickTypeError => apiKeys p = []
  | TickSkip minutes => apiKeys p <> [] /\ allBlocked p now /\ 1 <= minutes
  | TickRefresh =>
      exists k, k ∈ apiKeys p /\ isBlocked (keyRateLimitMap p) now k = false
  end.
Proof.
  unfold periodicTick.
  destruct (allKeysBlocked p now) eqn:Hall; [|by apply allKeysBlocked_false].
  apply allKeysBlocked_spec in Hall. unfold allBlocked in *.
  destruct (apiKeys p) as [|k0 ks] eqn:Hks; [done|].
  inversion Hall as [|? ? Hk0 _]; subst. cbn [List.find]. rewrite Hk0.
  unfold isBlocked in Hk0.
  destruct (keyRateLimitMap p !! k0) as [[[b|]]|]; try done.
  apply andb_true_iff in Hk0 as [_ Hlt%Z.ltb_lt].
  split; [done|]. split; [done|].
  unfold remainingMinutes.
  assert ((now - b) / 60000 < 0); [|lia].
  apply Z.div_lt_upper_bound; lia.
Qed.

(** X9: a tick that goes on to the refreshes leaves them a free key: from then
    on the selection returns a key that is not blocked, until a key is
    marked. *)
Theorem periodicTick_refresh_finds_free_key p now now' :
  wf p ->
  periodicTick p now = TickRefresh ->
  now <= now' ->
  exists k, snd (getApiKey p now') = Some k /\
            isBlocked (keyRateLimitMap p) now' k = false.
Proof.
  intros Hwf Htick Hle.
  unfold periodicTick in Htick.
  destruct (allKeysBlocked p now) eqn:Hall.
  { destruct (List.find _ _) as [k0|]; [|done].
    by destruct (keyRateLimitMap p !! k0) as [[[b|]]|]. }
  destruct (allKeysBlocked_false p now Hall) as (k' & Hin & Hfree).
  apply (getApiKey_free_key p now' k'); [done | done |].
  by apply (isBlocked_later _ now).
Qed.

Lemma periodicTick_refresh_finds_free_key_witness :
  exists k,
    snd (getApiKey (markKeyAsRateLimited (initPool ["A"; "B"]%string) "A" 1000)
                   61000) = Some k /\
    isBlocked (keyRateLimitMap
                 (markKeyAsRateLimited (initPool ["A"; "B"]%string) "A" 1000))
              61000 k = false.
Proof.
  apply (periodicTick_refresh_finds_free_key
           (markKeyAsRateLimited (initPool ["A"; "B"]%string) "A" 1000)
           60000 61000).
  - unfold wf. simpl. lia.
  - vm_compute. reflexivity.
  - lia.
Defined.

End UpdaterFacts.

(** ** Clearing and inspecting the cache *)

Section HousekeepingFacts.

Context (parseDate : string -> option Z).

Lemma flagGuards_spec s r :
  flagGuards parseDate s r ->
  (forall i j,
     refreshingAt parseDate s r i -> refreshingAt parseDate s r j -> i = j) /\
  (isUpdating r (cache (sys_world s)) = true <->
   exists i, refreshingAt parseDate s r i).
Proof.
  unfold flagGuards. destruct (isUpdating r (cache (sys_world s))).
  - intros (i0 & Hi0 & Huniq). split; [|split; eauto].
    intros i j Hi Hj. by rewrite (Huniq i Hi), (Huniq j Hj).
  - intros Hnone. split.
    + intros i j Hi. by destruct (Hnone i).
    + split; [done|]. intros [i Hi]. by destruct (Hnone i).
Qed.

(** X19: [clearCache] empties the two lists and the details and leaves the key
    pool and the throttle's stamp alone; and it may run at any moment,
    between the steps of any tasks: the busy flags stay, so that in every
    state the service reaches afterwards there is still at most one task
    REFRESHING each region, and the flag of the region is set exactly while
    there is one. *)
Theorem clearCache_keeps_guards w t acts1 s1 acts2 s2 :
  isUpdatingCurrent (cache w) = false ->
  isUpdatingUpcoming (cache w) = false ->
  sysRun parseDate (idleSystem w t) acts1 = Some s1 ->
  let cleared := System (clearCache (sys_world s1)) (sys_clock s1)
                        (sys_tasks s1) (sys_calls s1) in
  sysRun parseDate cleared acts2 = Some s2 ->
  (forall r, regionData r (cache (sys_world cleared)) = None) /\
  matchDetails (cache (sys_world cleared)) = ∅ /\
  keys (sys_world cleared) = keys (sys_world s1) /\
  lastApiCallTime (sys_world cleared) = lastApiCallTime (sys_world s1) /\
  flags (cache (sys_world cleared)) = flags (cache (sys_world s1)) /\
  forall r,
    (forall i j,
       refreshingAt parseDate s2 r i -> refreshingAt parseDate s2 r j -> i = j) /\
    (isUpdating r (cache (sys_world s2)) = true <->
     exists i, refreshingAt parseDate s2 r i).
Proof.
  intros Hc Hu Hrun1 cleared Hrun2.
  split; [by intros []|]. do 4 (split; [done|]).
  intros r. apply flagGuards_spec.
  assert (Hinv1 : sysInv parseDate s1).
  { eapply sysRun_inv; [|exact Hrun1]. by apply idleSystem_inv. }
  assert (Hinv : sysInv parseDate cleared).
  { destruct Hinv1 as [Htasks Hflags]. split; [done|].
    intros r'. specialize (Hflags r').
    unfold flagGuards, refreshingAt in *. by destruct r'. }
  by destruct (sysRun_inv _ _ _ _ Hinv Hrun2) as [_ H].
Qed.

Import Status.

(** X20: the status reports [isUpdating] exactly while some task is REFRESHING
    one of the regions, in every state the service reaches. *)
Theorem getCacheStatus_isUpdating w t acts s series now :
  isUpdatingCurrent (cache w) = false ->
  isUpdatingUpcoming (cache w) = false ->
  sysRun parseDate (idleSystem w t) acts = Some s ->
  st_isUpdating (getCacheStatus (sys_world s) series now) = true <->
  exists r i, refreshingAt parseDate s r i.
Proof.
  intros Hc0 Hu0 Hrun.
  assert (Hinv : sysInv parseDate s).
  { eapply sysRun_inv; [|exact Hrun]. by apply idleSystem_inv. }
  destruct Hinv as [_ Hflags]. cbn [getCacheStatus st_isUpdating].
  destruct (flagGuards_spec _ _ (Hflags Current)) as [_ Hc].
  destruct (flagGuards_spec _ _ (Hflags Upcoming)) as [_ Hu].
  cbn [isUpdating] in Hc, Hu.
  rewrite orb_true_iff, Hc, Hu. split.
  - intros [[i Hi]|[i Hi]]; eauto.
  - intros ([] & i & Hi); eauto.
Qed.

End HousekeepingFacts.

Lemma clearCache_keeps_guards_witness :
  exists s1 s2,
    let cleared := System (clearCache (sys_world s1)) (sys_clock s1)
                          (sys_tasks s1) (sys_calls s1) in
    (forall r, regionData r (cache (sys_world cleared)) = None) /\
    matchDetails (cache (sys_world cleared)) = ∅ /\
    keys (sys_world cleared) = keys (sys_world s1) /\
    lastApiCallTime (sys_world cleared) = lastApiCallTime (sys_world s1) /\
    flags (cache (sys_world cleared)) = flags (cache (sys_world s1)) /\
    forall r,
      (forall i j,
         refreshingAt Samples.parseDate s2 r i ->
         refreshingAt Samples.parseDate s2 r j -> i = j) /\
      (isUpdating r (cache (sys_world s2)) = true <->
       exists i, refreshingAt Samples.parseDate s2 r i).
Proof.
  eexists _, _.
  apply (clearCache_keeps_guards Samples.parseDate Samples.staleWorld 2000
           [Invoke (UpdateCache Current) 1000000] _
           [Invoke (UpdateCache Current) 1000001] _);
    reflexivity.
Defined.

Lemma getCacheStatus_isUpdating_witness :
  exists s,
    Status.st_isUpdating
      (Status.getCacheStatus (sys_world s) (SeriesCache None None) 1000001)
    = true <->
    exists r i, refreshingAt Samples.parseDate s r i.
Proof.
  eexists.
  apply (getCacheStatus_isUpdating Samples.parseDate Samples.staleWorld 2000
           [Invoke (UpdateCache Current) 1000000] _);
    reflexivity.
Defined.

Section StatusFacts.

Import Status.

Lemma truthy_isBlockedValue m now k :
  truthy (isBlockedValue m now k) = isBlocked m now k.
Proof.
  unfold isBlockedValue, isBlocked.
  destruct (m !! k) as [[[b|]]|]; [|done..].
  by destruct (b =? 0).
Qed.

(** X21: the status after a selection: the entry at [currentIndex] is the only
    one marked current; it shows the key that was returned, cut after ten
    characters, and it is reported blocked exactly when the selection would
    skip it. *)
Theorem getCacheStatus_current_key w series now k :
  wf (keys w) ->
  snd (getApiKey (keys w) now) = Some k ->
  let st := getCacheStatus (setKeys (fst (getApiKey (keys w) now)) w) series now in
  (exists ks, st_keys st !! st_currentIndex st = Some ks /\
              ks_isCurrent ks = true /\
              ks_key ks = mask k /\
              truthy (ks_isBlocked ks) = isBlocked (keyRateLimitMap (keys w)) now k) /\
  (forall j ks, st_keys st !! j = Some ks -> ks_isCurrent ks = true ->
                j = st_currentIndex st) /\
  length (st_keys st) = st_total st.
Proof.
  intros Hwf Hk.
  destruct (getApiKey_cursor _ now Hwf) as (k' & Hk' & Hcur).
  rewrite Hk in Hk'. injection Hk' as <-.
  destruct (getApiKey_map (keys w) now) as [Hm Hkeys].
  cbn [getCacheStatus st_keys st_currentIndex st_total setKeys keys].
  rewrite Hkeys. split; [|split].
  - eexists. rewrite list_lookup_imap, Hcur. split; [reflexivity|].
    cbn [keyStatusOf ks_isCurrent ks_key ks_isBlocked].
    split; [by apply bool_decide_eq_true_2|]. split; [done|].
    by rewrite truthy_isBlockedValue, Hm.
  - intros j ks. rewrite list_lookup_imap.
    destruct (apiKeys (keys w) !! j) as [kj|]; [|done].
    intros [= <-]. cbn [keyStatusOf ks_isCurrent].
    by intros ?%bool_decide_eq_true_1.
  - by rewrite length_imap.
Qed.

Lemma getCacheStatus_current_key_witness :
  let w := initWorld ["0123456789abcdef"; "B"]%string in
  let st := getCacheStatus (setKeys (fst (getApiKey (keys w) 5)) w)
                           (SeriesCache None None) 5 in
  (exists ks, st_keys st !! st_currentIndex st = Some ks /\
              ks_isCurrent ks = true /\
              ks_key ks = mask "0123456789abcdef" /\
              truthy (ks_isBlocked ks)
              = isBlocked (keyRateLimitMap (keys w)) 5 "0123456789abcdef") /\
  (forall j ks, st_keys st !! j = Some ks -> ks_isCurrent ks = true ->
                j = st_currentIndex st) /\
  length (st_keys st) = st_total st.
Proof.
  apply (getCacheStatus_current_key
           (initWorld ["0123456789abcdef"; "B"]%string)
           (SeriesCache None None) 5 "0123456789abcdef"%string).
  - unfold wf. simpl. lia.
  - vm_compute. reflexivity.
Defined.

End StatusFacts.

(** ** Throttled error logging *)

Section ErrorLogFacts.

Import ErrorLog.

(** Whatever is logged for a key comes more than five minutes after the
    time the table holds for it. *)
Lemma logged_after_table calls lastLogged key t0 t :
  lastLogged !! key = Some t0 ->
  (key, t) ∈ logged calls lastLogged ->
  300000 < t - t0.
Proof.
  revert lastLogged t0. induction calls as [|c calls IH]; intros st t0 Hst.
  - by intros ?%elem_of_nil.
  - cbn [logged]. unfold shouldLog.
    destruct (isConnectionReset (lc_error c)); [by apply IH|].
    destruct (300000 <? lc_now c - default 0 (st !! lc_key c)) eqn:Hlt;
      [|by apply IH].
    apply Z.ltb_lt in Hlt. cbn [app].
    intros [[= -> ->]|Hin]%elem_of_cons.
    + rewrite Hst in Hlt. simpl in Hlt. lia.
    + destruct (decide (lc_key c = key)) as [Heq|Hne].
      * rewrite Heq, Hst in Hlt. simpl in Hlt.
        assert (300000 < t - lc_now c); [|lia].
        eapply IH; [|exact Hin]. rewrite Heq. apply lookup_insert_eq.
      * eapply IH; [|exact Hin]. by rewrite lookup_insert_ne.
Qed.

(** X22: the same key is told to log at most once in five minutes: any two
    calls of a sequence that are told to log for one key are more than
    300000 ms apart, whatever the errors, the other keys and the table at
    the start. Connection resets are never logged and leave the table
    alone: a sequence logs what it logs without them. *)
Theorem shouldLog_once_in_five_minutes calls lastLogged :
  (forall i j key t1 t2,
     (i < j)%nat ->
     logged calls lastLogged !! i = Some (key, t1) ->
     logged calls lastLogged !! j = Some (key, t2) ->
     300000 < t2 - t1) /\
  logged calls lastLogged
  = logged (List.filter (fun c => negb (isConnectionReset (lc_error c))) calls)
           lastLogged.
Proof.
  split.
  - revert lastLogged. induction calls as [|c calls IH]; intros st i j key t1 t2 Hij.
    + cbn [logged]. by rewrite lookup_nil.
    + cbn [logged]. unfold shouldLog.
      destruct (isConnectionReset (lc_error c)); [by apply IH|].
      destruct (300000 <? lc_now c - default 0 (st !! lc_key c)) eqn:Hlt;
        [|by apply IH].
      cbn [app]. destruct i as [|i], j as [|j]; try lia.
      * intros [= -> ->] Hj. simpl in Hj. apply list_elem_of_lookup_2 in Hj.
        eapply logged_after_table; [|exact Hj]. apply lookup_insert_eq.
      * simpl. apply IH. lia.
  - revert lastLogged. induction calls as [|c calls IH]; intros st; [done|].
    cbn [List.filter].
    destruct (isConnectionReset (lc_error c)) eqn:Hr;
      cbn [negb logged]; unfold shouldLog; rewrite Hr.
    + apply IH.
    + destruct (300000 <? _); cbn [app]; by rewrite IH.
Qed.

End ErrorLogFacts.

(** ** The throttle, one caller at a time *)

Section ThrottleAlone.

Import Throttle.

(** X10: a caller that goes through the throttle with nobody else at it. It
    waits exactly when fewer than ten seconds have passed since the stamp
    it found, and then for one timer; it comes out at the clock reading of
    its call when it does not wait, else at the reading at which its timer
    fires, which is never less than ten seconds after the stamp it found;
    and it leaves the stamp set to the reading at which it comes out, with
    nothing else changed. *)
Theorem throttleApiCall_alone_spacing w now w1 s1 evs w' :
  runSync throttleApiCall w now = (w1, s1) ->
  runTask s1 w1 evs = Some (w', SDone tt) ->
  let out := default now (last (map eventTime evs)) in
  w' = setLastApiCallTime out w /\
  lastApiCallTime w + THROTTLE_DELAY <= out /\
  (if now - lastApiCallTime w <? THROTTLE_DELAY
   then exists t, evs = [EvWake t]
   else evs = []).
Proof.
  intros Hrun. pose proof (throttleApiCall_run w now) as H. rewrite Hrun in H.
  destruct s1 as [[]| | |due k|]; try done.
  - destruct H as [Hle ->]. destruct evs as [|ev evs]; [|done].
    intros [= <-]. simpl.
    destruct (now - lastApiCallTime w <? THROTTLE_DELAY) eqn:Hwait;
      [apply Z.ltb_lt in Hwait; lia|].
    repeat split; lia.
  - destruct H as (-> & Hnow & -> & Hk).
    destruct (now - lastApiCallTime w <? THROTTLE_DELAY) eqn:Hwait;
      [|apply Z.ltb_ge in Hwait; lia].
    destruct evs as [|[t|t out] evs]; [done| |done].
    cbn [runTask]. unfold stepTask. cbn [resume eventTime].
    destruct (lastApiCallTime w + THROTTLE_DELAY <=? t) eqn:Hdue; [|done].
    apply Z.leb_le in Hdue.
    rewrite Hk. destruct evs as [|ev evs]; [|done].
    intros [= <-]. simpl. repeat split; [lia|eauto].
Qed.

Lemma throttleApiCall_alone_spacing_witness :
  let w := setLastApiCallTime 100000 (initWorld ["A"]%string) in
  fst (runSync throttleApiCall w 105000) = w /\
  runTask (snd (runSync throttleApiCall w 105000)) w [EvWake 110000]
  = Some (setLastApiCallTime 110000 w, SDone tt) /\
  lastApiCallTime w + THROTTLE_DELAY <= 110000.
Proof.
  intros w. split; [reflexivity|]. split; [reflexivity|].
  apply (throttleApiCall_alone_spacing w 105000 w
           (snd (runSync throttleApiCall w 105000))
           [EvWake 110000] (setLastApiCallTime 110000 w)).
  - reflexivity.
  - reflexivity.
Defined.

End ThrottleAlone.

(** ** The attempts of a refresh *)

Section AttemptFacts.

Context (parseDate : string -> option Z).

Abbreviation matchesCall := (fun c : upstreamCall => uc_url c = "/matches"%string).

Ltac settle m :=
  split; [by cbn|]; split; [done|]; split; [by repeat constructor|];
  exists m; split; [constructor | cbn; intros; lia].

(** One step of a refresh, whatever the state it finds: where it stands
    next, that it spends at most one call of those it has left, and that
    the list of keys is never touched. *)
Lemma attempts_step r n s m w ev w' s' :
  attempts parseDate r n s m ->
  stepTask s w ev = Some (w', s') ->
  apiKeys (keys w') = apiKeys (keys w) /\
  s' <> SDone RUndefined /\
  Forall matchesCall (issued s' (eventTime ev)) /\
  exists m',
    attempts parseDate r n s' m' /\
    (length (apiKeys (keys w)) = n ->
     (length (issued s' (eventTime ev)) + m' <= m)%nat).
Proof.
  intros Hs. unfold stepTask.
  destruct Hs as [due| |fuel apiKey lastError|due fuel apiKey lastError| | |];
    destruct ev as [now|now out]; cbn [resume eventTime]; try done.
  - (* the throttle's timer fires *)
    destruct (due <=? now); [|done].
    unfold atGate. rewrite runSync_guarded. cbn. intros [= <- <-].
    settle n.
  - (* past the throttle: a key is chosen and the first attempt issued *)
    unfold pastGate. rewrite runSync_guarded.
    unfold fetchAndStore. cbn.
    destruct (getApiKey_map (keys w) now) as [_ Hkeys].
    destruct (KeyPool.getApiKey (keys w) now) as [p' [k|]]; cbn in Hkeys |- *.
    + destruct (length (KeyPool.apiKeys p')) as [|fuel] eqn:Hlen; cbn.
      * intros [= <- <-]. settle 0%nat.
      * intros [= <- <-]. rewrite Hkeys in Hlen. settle fuel.
    + intros [= <- <-]. settle 0%nat.
  - (* the outcome of an attempt *)
    unfold onResponse, mbind, prog_bind. rewrite runSync_guarded.
    rewrite runSync_bind. destruct out as [body|e]; cbn.
    + unfold processResponse.
      destruct (successMatches body) as [allMatches|]; cbn.
      * intros [= <- <-]. settle 0%nat.
      * destruct (failureIsRateLimited body); cbn;
          intros [= <- <-]; settle 0%nat.
    + destruct (isRateLimitedError e) eqn:He; cbn.
      * destruct (getApiKey_map
                    (KeyPool.markKeyAsRateLimited (keys w) apiKey now) now)
          as [_ Hkeys].
        destruct (KeyPool.getApiKey _ now) as [p' [k|]]; cbn in Hkeys |- *.
        -- intros [= <- <-]. settle fuel.
        -- intros [= <- <-]. settle 0%nat.
      * rewrite He. intros [= <- <-]. settle 0%nat.
  - (* the pause before the next attempt is over *)
    destruct (due <=? now); [|done].
    unfold nextAttempt, mbind, prog_bind. rewrite runSync_guarded, runSync_bind.
    destruct fuel as [|fuel]; cbn.
    + destruct (isRateLimitedError _); intros [= <- <-]; settle 0%nat.
    + intros [= <- <-]. settle fuel.
Qed.

Lemma attempts_invoke r w now :
  let '(w1, s1) := runSync (updateMatchesCache parseDate r) w now in
  apiKeys (keys w1) = apiKeys (keys w) /\
  issued s1 now = [] /\
  (isUpdating r (cache w) = false -> s1 <> SDone RUndefined) /\
  exists m, attempts parseDate r (length (apiKeys (keys w))) s1 m /\
            (m <= length (apiKeys (keys w)))%nat.
Proof.
  rewrite updateMatchesCache_invoke.
  destruct (isUpdating r (cache w)).
  - repeat split; [done|]. exists 0%nat. split; [constructor | lia].
  - destruct (Throttle.waitTime _ _);
      (repeat split; [done|]); eexists; (split; [constructor | lia]).
Qed.

Lemma taskCalls_bounded r n evs s w m calls :
  attempts parseDate r n s m ->
  length (apiKeys (keys w)) = n ->
  taskCalls s w evs = Some calls ->
  (length calls <= m)%nat /\ Forall matchesCall calls.
Proof.
  revert s w m calls. induction evs as [|ev evs IH]; intros s w m calls Hs Hn.
  - intros [= <-]. split; [simpl; lia | constructor].
  - cbn [taskCalls].
    destruct (stepTask s w ev) as [[w1 s1]|] eqn:Hstep; [|done].
    destruct (attempts_step _ _ _ _ _ _ _ _ Hs Hstep)
      as (Hkeys & _ & Hurl & m1 & Hs1 & Hle).
    destruct (taskCalls s1 w1 evs) as [calls1|] eqn:Hrest; [|done].
    intros [= <-].
    destruct (IH s1 w1 m1 calls1 Hs1) as [Hlen Hall]; [by rewrite Hkeys | done|].
    split.
    + rewrite length_app. specialize (Hle Hn). lia.
    + by apply Forall_app.
Qed.

(** X11: a refresh issues at most one upstream call for each configured key,
    all of them to the matches endpoint; with no key configured it issues
    none. *)
Theorem refresh_calls_bounded r w now evs calls :
  refreshCalls parseDate r w now evs = Some calls ->
  (length calls <= length (apiKeys (keys w)))%nat /\
  Forall matchesCall calls.
Proof.
  unfold refreshCalls. pose proof (attempts_invoke r w now) as H.
  destruct (runSync (updateMatchesCache parseDate r) w now) as [w1 s1].
  destruct H as (Hkeys & Hnone & _ & m & Hs & Hm).
  rewrite Hnone. cbn [app].
  destruct (taskCalls s1 w1 evs) as [calls1|] eqn:Hcalls; [|done].
  intros [= <-].
  destruct (taskCalls_bounded _ _ _ _ _ _ _ Hs (f_equal length Hkeys) Hcalls).
  split; [lia | done].
Qed.

Lemma attempts_reaches r n s m s' :
  attempts parseDate r n s m ->
  reaches s s' ->
  s' = s \/ (s' <> SDone RUndefined /\ exists m', attempts parseDate r n s' m').
Proof.
  intros Hs Hreach. induction Hreach as [|s1 w ev w' s2 _ IH Hstep]; [by left|].
  right. destruct IH as [->|[_ [m1 Hs1]]].
  - destruct (attempts_step _ _ _ _ _ _ _ _ Hs Hstep) as (_ & ? & _ & m' & ? & _).
    eauto.
  - destruct (attempts_step _ _ _ _ _ _ _ _ Hs1 Hstep) as (_ & ? & _ & m' & ? & _).
    eauto.
Qed.

(** X12: how a refresh can end, among whatever other tasks: with [undefined],
    and only when the region was busy at the call; with a list; or with the
    [ReferenceError] of its [catch] block, the only error it ever throws. *)
Theorem updateMatchesCache_outcomes r w now w1 s1 s' :
  runSync (updateMatchesCache parseDate r) w now = (w1, s1) ->
  reaches s1 s' ->
  finished s' ->
  (s' = SDone RUndefined /\ isUpdating r (cache w) = true) \/
  (exists l, s' = SDone (RList l)) \/
  s' = SFail referenceError.
Proof.
  intros Hrun Hreach Hfin. pose proof (attempts_invoke r w now) as H.
  rewrite Hrun in H. destruct H as (_ & _ & Hbusy & m & Hs & _).
  assert (Hend : forall m', attempts parseDate r (length (apiKeys (keys w))) s' m' ->
            s' <> SDone RUndefined ->
            (exists l, s' = SDone (RList l)) \/ s' = SFail referenceError).
  { intros m' Hs' Hne. destruct Hs'; simpl in Hfin; try done; eauto. }
  destruct (attempts_reaches _ _ _ _ _ Hs Hreach) as [->|[Hne [m' Hs']]].
  - destruct (isUpdating r (cache w)) eqn:Hb.
    + destruct Hs; simpl in Hfin; try done; eauto.
    + right. eapply Hend; [exact Hs | by apply Hbusy].
  - right. by eapply Hend.
Qed.

(** X15: the public queries never throw and never return [undefined]: however a
    call of [getCurrentMatches] or [getUpcomingMatches] goes, among whatever
    other tasks, it ends with a list. *)
Theorem getMatches_returns_list r w now w1 s1 s' :
  runSync (getMatches parseDate r) w now = (w1, s1) ->
  reaches s1 s' ->
  finished s' ->
  exists l, s' = SDone (RList l).
Proof.
  intros Hrun Hreach Hfin.
  set (G := fun s : susp retval =>
    (exists core m, attempts parseDate r 0 core m /\ ~ finished core /\
                    s = onDemandSusp core) \/
    (exists l, s = STick (Ret (RList l))) \/
    (exists l, s = SDone (RList l))).
  assert (Hcore : forall core m, attempts parseDate r 0 core m -> G (onDemandSusp core)).
  { intros core m Hcore. destruct Hcore; cbn [onDemandSusp orEmpty];
      try (left; eexists _, _; split; [econstructor|]; split; [simpl; tauto | done]).
    - right. left. eauto.
    - right. left. eauto.
    - right. right. eauto. }
  assert (Hstart : G s1).
  { rewrite getMatches_invoke in Hrun.
    assert (Hod : runSync (onDemand (updateMatchesCache parseDate r)) w now
                  = (w1, s1) -> G s1).
    { rewrite runSync_onDemand. pose proof (attempts_invoke r w now) as H.
      destruct (runSync (updateMatchesCache parseDate r) w now) as [w2 s2].
      destruct H as (_ & _ & _ & m & Hs & _). intros [= <- <-].
      destruct Hs; cbn [onDemandSusp orEmpty];
        try (left; eexists _, _; split; [econstructor|]; split; [simpl; tauto | done]).
      - right. left. eauto.
      - right. left. eauto.
      - right. right. eauto. }
    destruct (regionData r (cache w)) as [[|m0 l]|]; [by apply Hod| |by apply Hod].
    injection Hrun as <- <-. right. right. eauto. }
  assert (HG : G s').
  { clear Hfin Hrun. induction Hreach as [|s2 w2 ev w3 s3 _ IH Hstep]; [done|].
    destruct IH as [(core & m & Hc & Hnf & ->)|[[l ->]|[l ->]]].
    - rewrite stepTask_onDemandSusp in Hstep by done.
      destruct (stepTask core w2 ev) as [[w4 core']|] eqn:Hcs; [|done].
      injection Hstep as <- <-.
      destruct (attempts_step _ _ _ _ _ _ _ _ Hc Hcs) as (_ & _ & _ & m' & Hc' & _).
      by eapply Hcore.
    - destruct ev as [t|t out]; [|done]. injection Hstep as <- <-.
      right. right. eauto.
    - by destruct ev. }
  destruct HG as [(core & m & Hc & Hnf & ->)|[[l ->]|[l ->]]]; [|done|eauto].
  by destruct core; simpl in Hfin, Hnf.
Qed.

End AttemptFacts.

Lemma runTask_reaches {R} (s : susp R) w evs w' s' :
  runTask s w evs = Some (w', s') -> reaches s s'.
Proof.
  intros Hrun. assert (Hgen : forall s0, reaches s0 s -> reaches s0 s').
  { revert s w Hrun. induction evs as [|ev evs IH]; intros s w; simpl.
    - by intros [= <- <-].
    - destruct (stepTask s w ev) as [[w1 s1]|] eqn:Hstep; [|done].
      intros Hrun s0 Hs0. eapply IH; [exact Hrun|]. by eapply reaches_step. }
  apply Hgen. constructor.
Qed.

Lemma refresh_calls_bounded_witness :
  exists calls,
    refreshCalls Samples.parseDate Current (initWorld ["A"; "B"]%string) 1000000
      [EvWake 1000000;
       EvResponse 1000100
         (HttpErr (JsError (Some "Request failed with status code 429")
                           None (Some 429) None));
       EvWake 1001100;
       EvResponse 1001200 (HttpOk (Samples.successBody []))]
    = Some calls /\
    ((length calls <= length (apiKeys (keys (initWorld ["A"; "B"]%string))))%nat /\
     Forall (fun c => uc_url c = "/matches"%string) calls).
Proof.
  eexists. split; [reflexivity|].
  apply (refresh_calls_bounded Samples.parseDate Current
           (initWorld ["A"; "B"]%string) 1000000
           [EvWake 1000000;
            EvResponse 1000100
              (HttpErr (JsError (Some "Request failed with status code 429")
                                None (Some 429) None));
            EvWake 1001100;
            EvResponse 1001200 (HttpOk (Samples.successBody []))]).
  reflexivity.
Defined.

Lemma updateMatchesCache_outcomes_witness :
  (@SFail retval referenceError = SDone RUndefined /\
   isUpdating Current (cache Samples.staleWorld) = true) \/
  (exists l, @SFail retval referenceError = SDone (RList l)) \/
  @SFail retval referenceError = SFail referenceError.
Proof.
  apply (updateMatchesCache_outcomes Samples.parseDate Current
           Samples.staleWorld 1000000
           (fst (runSync (updateMatchesCache Samples.parseDate Current)
                         Samples.staleWorld 1000000))
           (snd (runSync (updateMatchesCache Samples.parseDate Current)
                         Samples.staleWorld 1000000))).
  - reflexivity.
  - eapply (runTask_reaches _
              (fst (runSync (updateMatchesCache Samples.parseDate Current)
                            Samples.staleWorld 1000000))
              [EvWake 1000000;
               EvResponse 1000100
                 (HttpErr (JsError (Some "Request failed with status code 429")
                                   None (Some 429) None));
               EvWake 1001100]).
    reflexivity.
  - exact I.
Defined.

Lemma getMatches_returns_list_witness :
  exists l, SDone (RList []) = SDone (RList l).
Proof.
  apply (getMatches_returns_list Samples.parseDate Current
           (initWorld ["A"]%string) 1000000
           (fst (runSync (getMatches Samples.parseDate Current)
                         (initWorld ["A"]%string) 1000000))
           (snd (runSync (getMatches Samples.parseDate Current)
                         (initWorld ["A"]%string) 1000000))).
  - reflexivity.
  - eapply (runTask_reaches _
              (fst (runSync (getMatches Samples.parseDate Current)
                            (initWorld ["A"]%string) 1000000))
              [EvWake 1000000;
               EvResponse 1000100 (HttpErr Samples.connectionReset);
               EvWake 1000100]).
    reflexivity.
  - exact I.
Defined.

(** ** What blocks a key *)

Section BlockingFacts.

Context (parseDate : string -> option Z).

Lemma failure_not_success body :
  failureIsRateLimited body = true -> successMatches body = None.
Proof.
  unfold failureIsRateLimited, successMatches.
  destruct body as [|p|p|p|p]; try done. cbn [bodyStatus].
  intros [Hs%bool_decide_eq_true_1 _]%andb_true_iff.
  destruct (decide (status p = JStr "success")) as [Heq|]; [|done].
  rewrite Heq in Hs. done.
Qed.

(** X14: a refresh blocks a key exactly on the evidence of a rate limit, and the
    key it blocks is the one the failed call was made with: it is blocked
    for sixteen minutes from the moment the outcome arrives. Any other
    outcome leaves the key pool as it is. *)
Theorem refresh_blocks_key_on_evidence r n s m url apiKey id k w t out w' s' :
  attempts parseDate r n s m ->
  s = SHttp url apiKey id k ->
  stepTask s w (EvResponse t out) = Some (w', s') ->
  if rateLimitEvidence out
  then keyRateLimitMap (keys w') !! apiKey
       = Some (KeyInfo (Some (t + BLOCK_DURATION))) /\
       forall key, key <> apiKey ->
         keyRateLimitMap (keys w') !! key = keyRateLimitMap (keys w) !! key
  else keys w' = keys w.
Proof.
  intros Hs Heq. unfold stepTask.
  destruct Hs as [due| |fuel apiKey' lastError|due fuel apiKey' lastError| | |];
    try done.
  injection Heq as <- <- <- <-. cbn [resume eventTime].
  unfold onResponse, mbind, prog_bind. rewrite runSync_guarded.
  rewrite runSync_bind. destruct out as [body|e]; cbn [rateLimitEvidence]; cbn.
  - unfold processResponse.
    destruct (failureIsRateLimited body) eqn:Hf.
    + rewrite (failure_not_success _ Hf). cbn. intros [= <- <-]. cbn.
      split; [apply lookup_insert_eq|]. intros key Hne. by apply lookup_insert_ne.
    + destruct (successMatches body); cbn; by intros [= <- <-].
  - destruct (isRateLimitedError e) eqn:He; cbn.
    + destruct (getApiKey_map
                  (KeyPool.markKeyAsRateLimited (keys w) apiKey' t) t) as [Hm _].
      destruct (KeyPool.getApiKey _ t) as [p' [k'|]]; cbn in Hm |- *;
        intros [= <- <-]; cbn; rewrite Hm;
        (split; [apply lookup_insert_eq|]); intros key Hne;
        by apply lookup_insert_ne.
    + rewrite He. by intros [= <- <-].
Qed.

End BlockingFacts.

Lemma refresh_blocks_key_on_evidence_witness :
  exists w' s',
    stepTask (SHttp "/matches" "A" None
                (onResponse Samples.parseDate Current 0 "A" None))
             Samples.staleWorld
             (EvResponse 1000100
                (HttpOk (BodyMatches
                           (Payload (JStr "failure")
                                    (JStr "hits today exceeded hits limit") None))))
    = Some (w', s') /\
    (keyRateLimitMap (keys w') !! "A"%string
     = Some (KeyInfo (Some (1000100 + BLOCK_DURATION))) /\
     forall key, key <> "A"%string ->
       keyRateLimitMap (keys w') !! key
       = keyRateLimitMap (keys Samples.staleWorld) !! key).
Proof.
  eexists _, _. split; [reflexivity|].
  eapply (refresh_blocks_key_on_evidence Samples.parseDate Current 1 _ 0%nat
           "/matches"%string "A"%string None _ Samples.staleWorld 1000100
           (HttpOk (BodyMatches
                      (Payload (JStr "failure")
                               (JStr "hits today exceeded hits limit") None)))).
  - apply (att_fetch Samples.parseDate Current 1 0 "A"%string None).
  - reflexivity.
  - reflexivity.
Defined.

(** ** A refresh that meets rate limits only *)

Section ExhaustFacts.

Context (parseDate : string -> option Z).

(** An attempt fails with a rate-limit error: the key is marked, the next
    one is taken and the refresh pauses for a second. *)
Lemma stepTask_attempt_rate_limited r fuel apiKey lastError w t e :
  isRateLimitedError e = true ->
  stepTask (SHttp "/matches" apiKey None
              (onResponse parseDate r fuel apiKey lastError))
           w (EvResponse t (HttpErr e)) =
  Some (match KeyPool.getApiKey
                (KeyPool.markKeyAsRateLimited (keys w) apiKey t) t with
        | (p', Some k) =>
            (setKeys p' w,
             STimer (t + 1000) (nextAttempt parseDate r fuel k (Some e)))
        | (p', None) =>
            (setFlag r false (setKeys p' w), SFail referenceError)
        end).
Proof.
  intros He. unfold stepTask. cbn [resume eventTime].
  unfold onResponse, mbind, prog_bind. rewrite runSync_guarded, runSync_bind.
  cbn. rewrite He. cbn.
  by destruct (KeyPool.getApiKey _ t) as [p' [k|]].
Qed.

(** The pause is over: the next attempt is issued, or, when none is left,
    the last error is thrown into the [catch] block. *)
Lemma stepTask_pause_over r fuel apiKey e due w t :
  isRateLimitedError e = true ->
  stepTask (STimer due (nextAttempt parseDate r fuel apiKey (Some e)))
           w (EvWake t) =
  if due <=? t then
    Some (match fuel with
          | O => (setFlag r false w, SFail referenceError)
          | S fuel' =>
              (w, SHttp "/matches" apiKey None
                    (onResponse parseDate r fuel' apiKey (Some e)))
          end)
  else None.
Proof.
  intros He. unfold stepTask. cbn [resume eventTime].
  destruct (due <=? t); [|done].
  unfold nextAttempt, mbind, prog_bind. rewrite runSync_guarded, runSync_bind.
  destruct fuel as [|fuel]; cbn; [by rewrite He | done].
Qed.

(** From an attempt with [fuel] more to come: when this attempt and all
    that follow fail with rate-limit errors, the refresh ends in its
    [catch] block, which throws. *)
Lemma attempts_exhausted r fuel errs w apiKey lastError w' s' :
  length errs = S fuel ->
  Forall rateLimited errs ->
  runTask (SHttp "/matches" apiKey None
             (onResponse parseDate r fuel apiKey lastError))
          w (failedAttempts errs) = Some (w', s') ->
  s' = SFail referenceError /\ cache w' = setUpdating r false (cache w).
Proof.
  revert errs w apiKey lastError.
  induction fuel as [|fuel IH]; intros errs w apiKey lastError Hlen Hall;
    destruct errs as [|[[t e] t'] errs]; try done;
    inversion Hall as [|? ? He Hall']; subst; unfold rateLimited in He;
    cbn [fst snd] in He;
    cbn [failedAttempts flat_map app runTask];
    rewrite (stepTask_attempt_rate_limited _ _ _ _ _ _ _ He);
    (destruct (KeyPool.getApiKey _ t) as [p' [k|]]; [|done]);
    rewrite (stepTask_pause_over _ _ _ _ _ _ _ He);
    (destruct (t + 1000 <=? t'); [|done]).
  - destruct errs; [|done]. by intros [= <- <-].
  - intros Hrun. apply IH in Hrun as [-> ->]; [done| |done].
    simpl in Hlen. lia.
Qed.

(** The throttle's timer fires; and, a turn of the queue later, a key is
    chosen and the first attempt issued. *)
Lemma stepTask_gate_timer r due w t :
  stepTask (STimer due (atGate parseDate r)) w (EvWake t) =
  if due <=? t
  then Some (setLastApiCallTime t w, STick (pastGate parseDate r))
  else None.
Proof.
  unfold stepTask. cbn [resume eventTime]. destruct (due <=? t); [|done].
  unfold atGate. rewrite runSync_guarded. reflexivity.
Qed.

Lemma stepTask_gate_tick r w t :
  stepTask (STick (pastGate parseDate r)) w (EvWake t) =
  Some (match KeyPool.getApiKey (keys w) t with
        | (p', Some k) =>
            match length (apiKeys p') with
            | O => (setFlag r false (setKeys p' w),
                    SDone (RList (default [] (regionData r (cache w)))))
            | S fuel =>
                (setKeys p' w,
                 SHttp "/matches" k None (onResponse parseDate r fuel k None))
            end
        | (p', None) =>
            (setFlag r false (setKeys p' w),
             SDone (RList (default [] (regionData r (cache w)))))
        end).
Proof.
  unfold stepTask. cbn [resume eventTime].
  unfold pastGate. rewrite runSync_guarded. unfold fetchAndStore. cbn.
  destruct (KeyPool.getApiKey (keys w) t) as [p' [k|]]; cbn; [|done].
  by destruct (length (KeyPool.apiKeys p')).
Qed.

(** Where a refresh stands while nothing but timers and turns of the queue
    have woken it. *)
Lemma refresh_before_response r w0 evs s w w' s' :
  (s = STick (pastGate parseDate r) \/
   exists due, s = STimer due (atGate parseDate r)) ->
  cache w = setUpdating r true (cache w0) ->
  apiKeys (keys w) = apiKeys (keys w0) ->
  forallb isWake evs = true ->
  runTask s w evs = Some (w', s') ->
  finished s' \/
  (cache w' = setUpdating r true (cache w0) /\
   (s' = STick (pastGate parseDate r) \/
    (exists due, s' = STimer due (atGate parseDate r)) \/
    exists fuel apiKey lastError,
      s' = SHttp "/matches" apiKey None
             (onResponse parseDate r fuel apiKey lastError) /\
      S fuel = length (apiKeys (keys w0)))).
Proof.
  assert (Hend : forall (s1 : susp retval) w1 evs1,
            finished s1 -> runTask s1 w1 evs1 = Some (w', s') -> finished s').
  { intros s1 w1 [|ev evs1] Hfin; cbn [runTask].
    - by intros [= <- <-].
    - by rewrite stepTask_finished. }
  revert s w. induction evs as [|[t|t out] evs IH]; intros s w Hs Hc Hk Hw;
    [| |done]; cbn [runTask].
  - intros [= <- <-]. right. split; [done|].
    destruct Hs as [->|[due ->]]; [by left | right; left; eauto].
  - cbn [forallb isWake andb] in Hw.
    destruct Hs as [->|[due ->]].
    + rewrite stepTask_gate_tick.
      destruct (getApiKey_map (keys w) t) as [_ Hkeys].
      destruct (KeyPool.getApiKey (keys w) t) as [p' [k|]]; cbn [fst] in Hkeys.
      * destruct (length (KeyPool.apiKeys p')) as [|fuel] eqn:Hlen.
        -- intros Hrun. left. eapply Hend; [|exact Hrun]. done.
        -- destruct evs as [|[t2|t2 out] evs]; [| done | done].
           cbn [runTask]. intros [= <- <-]. right. split; [done|].
           right. right. eexists _, _, _. split; [reflexivity|].
           by rewrite <- Hk, <- Hkeys.
      * intros Hrun. left. eapply Hend; [|exact Hrun]. done.
    + rewrite stepTask_gate_timer. destruct (due <=? t); [|done].
      apply IH; [by left | done | done | done].
Qed.

(** X13: when every attempt of a refresh, one for each configured key, fails
    with an error that is classified as a rate limit, the refresh does not
    return the cached list: its [catch] block reads [apiKey], a variable of
    the [try] block, and the call ends with that [ReferenceError]. The busy
    flag is cleared and the cached lists are as before. *)
Theorem refresh_rate_limited_throws r w now evs0 errs w' s' :
  forallb isWake evs0 = true ->
  errs <> [] ->
  length errs = length (apiKeys (keys w)) ->
  Forall rateLimited errs ->
  refreshRun parseDate r w now (evs0 ++ failedAttempts errs) = Some (w', s') ->
  s' = SFail referenceError /\
  isUpdating r (cache w') = false /\
  forall r', regionData r' (cache w') = regionData r' (cache w).
Proof.
  intros Hwakes Hne Hlen Hall. unfold refreshRun.
  rewrite updateMatchesCache_invoke.
  assert (Hfirst : exists x errs', errs = x :: errs')
    by (destruct errs; [done | eauto]).
  destruct Hfirst as ([[t e] t'] & errs' & Herrs).
  assert (Hstuck : forall (s : susp retval) w1 w2 s2,
            (finished s \/ s = STick (pastGate parseDate r) \/
             exists due, s = STimer due (atGate parseDate r)) ->
            runTask s w1 (failedAttempts errs) = Some (w2, s2) -> False).
  { intros s w1 w2 s2 Hs. rewrite Herrs. cbn [failedAttempts flat_map app runTask].
    destruct Hs as [Hs|[->|[due ->]]]; [|done..].
    by rewrite stepTask_finished. }
  assert (Hgo : forall s w1,
            (s = STick (pastGate parseDate r) \/
             exists due, s = STimer due (atGate parseDate r)) ->
            cache w1 = setUpdating r true (cache w) ->
            apiKeys (keys w1) = apiKeys (keys w) ->
            runTask s w1 (evs0 ++ failedAttempts errs) = Some (w', s') ->
            s' = SFail referenceError /\
            isUpdating r (cache w') = false /\
            forall r', regionData r' (cache w') = regionData r' (cache w)).
  { intros s w1 Hs Hc Hk. rewrite runTask_app.
    destruct (runTask s w1 evs0) as [[w2 s2]|] eqn:Hrun0; [|done].
    destruct (refresh_before_response _ _ _ _ _ _ _ Hs Hc Hk Hwakes Hrun0)
      as [Hfin|[Hc2 [->|[[due ->]|(fuel & apiKey & lastError & -> & Hfuel)]]]].
    - intros Hrun. exfalso. eapply Hstuck; [|exact Hrun]. by left.
    - intros Hrun. exfalso. eapply Hstuck; [|exact Hrun]. right. by left.
    - intros Hrun. exfalso. eapply Hstuck; [|exact Hrun]. right. right. eauto.
    - intros Hrun.
      apply attempts_exhausted in Hrun as [-> Hc']; [|lia|done].
      split; [done|]. rewrite Hc', Hc2. split; [by destruct r|].
      by intros []; destruct r. }
  destruct (isUpdating r (cache w)).
  - intros Hrun. exfalso. destruct evs0 as [|ev evs0].
    + eapply Hstuck; [|exact Hrun]. by left.
    + done.
  - destruct (Throttle.waitTime _ _); apply Hgo; eauto.
Qed.

End ExhaustFacts.

Lemma refresh_rate_limited_throws_witness :
  exists w' s',
    refreshRun Samples.parseDate Current Samples.staleWorld 1000000
      ([EvWake 1000000] ++
       failedAttempts
         [(1000100, JsError (Some "Request failed with status code 429")
                            None (Some 429) None, 1001100)])
    = Some (w', s') /\
    (s' = SFail referenceError /\
     isUpdating Current (cache w') = false /\
     forall r', regionData r' (cache w') = regionData r' (cache Samples.staleWorld)).
Proof.
  eexists _, _. split; [reflexivity|].
  apply (refresh_rate_limited_throws Samples.parseDate Current
           Samples.staleWorld 1000000 [EvWake 1000000]
           [(1000100, JsError (Some "Request failed with status code 429")
                              None (Some 429) None, 1001100)]).
  - reflexivity.
  - congruence.
  - reflexivity.
  - repeat constructor.
  - reflexivity.
Defined.

(** ** The merged players, as a whole *)

Section MergeWhole.

Import Enricher.

Lemma nameOf_lookup (o : obj) name :
  nameOf o = Some name -> o !! "name"%string = Some (JStr name).
Proof.
  unfold nameOf, prop. destruct (o !! "name"%string) as [[| | | |s]|]; try done.
  simpl. destruct (String.eqb s ""); [done|]. by intros [= ->].
Qed.

Lemma nameOf_spread existing player name :
  nameOf player = Some name -> nameOf (spread existing player) = Some name.
Proof.
  intros Hn. pose proof (nameOf_lookup _ _ Hn) as Hl.
  unfold nameOf, prop, spread in *.
  by rewrite (lookup_union_Some_l _ _ _ _ Hl), Hl in *.
Qed.

Lemma nameOf_image v (o : obj) : nameOf (<["image"%string := v]> o) = nameOf o.
Proof. unfold nameOf, prop. by rewrite lookup_insert_ne. Qed.

Lemma mapSet_wellKeyed key value m :
  wellKeyed m ->
  keyOf value = Some key \/ keyOf value = None ->
  wellKeyed (mapSet key value m).
Proof.
  intros (Hnd & Hdom & Hkeys) Hv. unfold mapSet. split; [|split]; simpl.
  - destruct (entries m !! key) eqn:Hk; [done|].
    apply NoDup_app. split; [done|]. split; [|apply NoDup_singleton].
    intros k Hin ->%list_elem_of_singleton.
    apply Hdom in Hin as [? Hin]. congruence.
  - intros k. destruct (decide (k = key)) as [->|Hne].
    + rewrite lookup_insert_eq. split; [by eauto|]. intros _.
      destruct (entries m !! key) eqn:Hk.
      * apply Hdom. by rewrite Hk.
      * apply elem_of_app. right. by apply list_elem_of_singleton.
    + rewrite lookup_insert_ne by done. rewrite <- Hdom.
      destruct (entries m !! key); [done|].
      rewrite elem_of_app, list_elem_of_singleton. tauto.
  - intros k o. destruct (decide (k = key)) as [->|Hne].
    + rewrite lookup_insert_eq. by intros [= <-].
    + rewrite lookup_insert_ne by done. apply Hkeys.
Qed.

Lemma mapSet_hasKey key value m k :
  hasKey m k \/ k = key -> hasKey (mapSet key value m) k.
Proof.
  unfold hasKey, mapSet. simpl. destruct (decide (k = key)) as [->|Hne].
  - rewrite lookup_insert_eq. by eauto.
  - rewrite lookup_insert_ne by done. by intros [?|?].
Qed.

Lemma addSquadPlayer_kept m player :
  wellKeyed m ->
  wellKeyed (addSquadPlayer m player) /\
  (forall k, hasKey m k \/ keyOf player = Some k ->
             hasKey (addSquadPlayer m player) k).
Proof.
  intros Hm. unfold addSquadPlayer, keyOf.
  destruct (nameOf player) as [name|] eqn:Hn; simpl.
  - split.
    + apply mapSet_wellKeyed; [done|]. left. unfold keyOf. by rewrite Hn.
    + intros k [?|[= <-]]; apply mapSet_hasKey; auto.
  - split; [done|]. by intros k [?|?].
Qed.

Lemma addScorecardPlayer_kept m player :
  wellKeyed m ->
  wellKeyed (addScorecardPlayer m player) /\
  (forall k, hasKey m k \/ keyOf player = Some k ->
             hasKey (addScorecardPlayer m player) k).
Proof.
  intros Hm. unfold addScorecardPlayer, keyOf.
  destruct (nameOf player) as [name|] eqn:Hn; simpl.
  - destruct (entries m !! JsString.toLowerCase name) as [existing|]; split.
    + apply mapSet_wellKeyed; [done|]. left. unfold keyOf.
      by rewrite nameOf_image, (nameOf_spread _ _ _ Hn).
    + intros k [?|[= <-]]; apply mapSet_hasKey; auto.
    + apply mapSet_wellKeyed; [done|]. left. unfold keyOf. by rewrite Hn.
    + intros k [?|[= <-]]; apply mapSet_hasKey; auto.
  - split; [done|]. by intros k [?|?].
Qed.

Lemma addScorePlayer_kept m player :
  wellKeyed m ->
  wellKeyed (addScorePlayer m player) /\
  (forall k, hasKey m k \/ keyOf player = Some k ->
             hasKey (addScorePlayer m player) k).
Proof.
  intros Hm. unfold addScorePlayer, keyOf.
  destruct (nameOf player) as [name|] eqn:Hn; simpl.
  - destruct (entries m !! JsString.toLowerCase name) as [existing|]; split.
    + apply mapSet_wellKeyed; [done|]. left. unfold keyOf.
      by rewrite (nameOf_spread _ _ _ Hn).
    + intros k [?|[= <-]]; apply mapSet_hasKey; auto.
    + apply mapSet_wellKeyed; [done|]. left. unfold keyOf. by rewrite Hn.
    + intros k [?|[= <-]]; apply mapSet_hasKey; auto.
  - split; [done|]. by intros k [?|?].
Qed.

Lemma addMatchDataPlayer_kept m player :
  wellKeyed m ->
  wellKeyed (addMatchDataPlayer m player) /\
  (forall k, hasKey m k \/ itemKey player = Some k ->
             hasKey (addMatchDataPlayer m player) k).
Proof.
  intros Hm. unfold addMatchDataPlayer, itemKey.
  destruct (matchDataPlayerName player) as [| | | |playerName] eqn:Hname;
    try (split; [done | by intros k [?|?]]).
  destruct (negb (String.eqb playerName "") &&
            negb (String.eqb playerName "Unknown Player")) eqn:Hok;
    [|split; [done | by intros k [?|?]]].
  destruct (entries m !! JsString.toLowerCase playerName) as [existing|] eqn:Hk.
  - split; [done|]. intros k [?|[= <-]]; [done|]. unfold hasKey. by rewrite Hk.
  - split; [|intros k [?|[= <-]]; apply mapSet_hasKey; auto].
    apply mapSet_wellKeyed; [done|].
    apply andb_true_iff in Hok as [Hne _]. apply negb_true_iff in Hne.
    destruct player as [s|o]; cbn [matchDataPlayerName] in Hname.
    + injection Hname as ->. left. unfold keyOf, nameOf, prop, object. simpl.
      rewrite lookup_insert_eq. simpl. by rewrite Hne.
    + (* an object: its own name, if it has one, is the name it is keyed by *)
      unfold keyOf, nameOf.
      destruct (prop o "name") as [| | | |s] eqn:Hp; simpl; auto.
      destruct (String.eqb s "") eqn:Hs; simpl; [by right|]. left.
      unfold orVal in Hname. cbn [truthy] in Hname.
      rewrite Hs in Hname. cbn [negb truthy] in Hname. rewrite Hs in Hname.
      cbn [negb] in Hname. by injection Hname as ->.
Qed.

Lemma pass_kept {A} (add : playerMap -> A -> playerMap) (key : A -> option string)
    (players : list A) m :
  (forall m p, wellKeyed m ->
     wellKeyed (add m p) /\
     forall k, hasKey m k \/ key p = Some k -> hasKey (add m p) k) ->
  wellKeyed m ->
  wellKeyed (foldl add m players) /\
  (forall k, hasKey m k \/ (exists p, p ∈ players /\ key p = Some k) ->
             hasKey (foldl add m players) k).
Proof.
  intros Hadd. revert m. induction players as [|p players IH]; intros m Hm; simpl.
  - split; [done|]. intros k [?|(p & Hp & _)]; [done|]. by apply elem_of_nil in Hp.
  - destruct (Hadd m p Hm) as [Hm1 Hk1].
    destruct (IH _ Hm1) as [Hm2 Hk2]. split; [done|].
    intros k [?|(p' & [->|Hp]%elem_of_cons & Hkey)]; apply Hk2; eauto.
Qed.

Lemma omap_own_key_sublist (g : string -> option string) (l : list string) :
  (forall k, k ∈ l -> g k = Some k \/ g k = None) ->
  omap g l `sublist_of` l.
Proof.
  induction l as [|k l IH]; intros Hg; simpl; [done|].
  assert (IH' : omap g l `sublist_of` l).
  { apply IH. intros k' Hk'. apply Hg. by right. }
  destruct (Hg k) as [-> | ->]; [by left| |].
  - by apply sublist_skip.
  - by apply sublist_cons.
Qed.

Lemma omap_twice {A B C} (f : A -> option B) (g : B -> option C) (l : list A) :
  omap g (omap f l) = omap (fun a => f a ≫= g) l.
Proof.
  induction l as [|a l IH]; csimpl; [done|].
  destruct (f a) as [b|]; csimpl; [|done].
  destruct (g b); by rewrite IH.
Qed.

Lemma mergePlayers_wellKeyed sq sc sco md :
  wellKeyed (mergePlayers sq sc sco md) /\
  forall k,
    (exists p, p ∈ sq ++ sc ++ sco /\ keyOf p = Some k) \/
    (exists item, item ∈ md /\ itemKey item = Some k) ->
    hasKey (mergePlayers sq sc sco md) k.
Proof.
  unfold mergePlayers.
  assert (H0 : wellKeyed emptyMap).
  { split; [constructor|]. split.
    - intros key. simpl. rewrite lookup_empty. split; [by intros ?%elem_of_nil|].
      by intros [? ?].
    - intros key o. simpl. by rewrite lookup_empty. }
  destruct (pass_kept addSquadPlayer keyOf sq _ addSquadPlayer_kept H0) as [H1 K1].
  destruct (pass_kept addScorecardPlayer keyOf sc _ addScorecardPlayer_kept H1)
    as [H2 K2].
  destruct (pass_kept addScorePlayer keyOf sco _ addScorePlayer_kept H2) as [H3 K3].
  destruct (pass_kept addMatchDataPlayer itemKey md _ addMatchDataPlayer_kept H3)
    as [H4 K4].
  split; [done|].
  intros k [(p & Hp & Hk)|Hitem]; [|by apply K4; right].
  apply K4. left.
  rewrite !elem_of_app in Hp. destruct Hp as [Hp|[Hp|Hp]].
  - apply K3. left. apply K2. left. apply K1. right. eauto.
  - apply K3. left. apply K2. right. eauto.
  - apply K3. right. eauto.
Qed.

(** X18: the merged list holds each player once: no two of its players have the
    same name up to the case of the letters, whatever the four sources
    hold; and no player is lost: every name of any of the four sources is
    the key of one player of the list. *)
Theorem mergePlayers_one_player_per_name sq sc sco md :
  let m := mergePlayers sq sc sco md in
  NoDup (omap keyOf (mapValues m)) /\
  length (mapValues m) = length (order m) /\
  forall k,
    (exists p, p ∈ sq ++ sc ++ sco /\ keyOf p = Some k) \/
    (exists item, item ∈ md /\ itemKey item = Some k) ->
    exists i o, order m !! i = Some k /\ mapValues m !! i = Some o /\
                (keyOf o = Some k \/ keyOf o = None).
Proof.
  intros m. destruct (mergePlayers_wellKeyed sq sc sco md) as [Hwk Hcov].
  fold m in Hwk, Hcov. destruct Hwk as (Hnd & Hdom & Hkeys).
  assert (Hvalues : mapValues m = omap (fun key => entries m !! key) (order m))
    by done.
  assert (Htotal : forall i k, order m !! i = Some k ->
            exists o, entries m !! k = Some o /\ mapValues m !! i = Some o).
  { rewrite Hvalues. clear Hvalues Hnd Hcov.
    assert (Hall : forall k, k ∈ order m -> is_Some (entries m !! k))
      by (intros k; apply Hdom).
    clear Hdom. induction (order m) as [|k0 l IH]; intros i k; [done|].
    destruct (Hall k0) as [o0 Ho0]; [by left|]. simpl. rewrite Ho0.
    destruct i as [|i]; simpl.
    - intros [= <-]. eauto.
    - apply IH. intros k' Hk'. apply Hall. by right. }
  split; [|split].
  - rewrite Hvalues, omap_twice. (* keys that stand for themselves *)
    eapply sublist_NoDup; [exact Hnd|]. apply omap_own_key_sublist.
    intros k Hk. destruct (entries m !! k) as [o|] eqn:Ho; simpl; [|by right].
    by apply Hkeys.
  - rewrite Hvalues. clear Hvalues Htotal Hnd Hcov.
    assert (Hall : forall k, k ∈ order m -> is_Some (entries m !! k))
      by (intros k; apply Hdom).
    clear Hdom. induction (order m) as [|k0 l IH]; [done|].
    destruct (Hall k0) as [o0 Ho0]; [by left|]. simpl. rewrite Ho0. simpl.
    f_equal. apply IH. intros k' Hk'. apply Hall. by right.
  - intros k Hk. apply Hcov in Hk. apply Hdom in Hk.
    apply list_elem_of_lookup_1 in Hk as [i Hi].
    destruct (Htotal i k Hi) as (o & Ho & Hv).
    exists i, o. split; [done|]. split; [done|]. by apply Hkeys.
Qed.

End MergeWhole.

(** ** The two regions *)

Section RegionsApart.

Context (parseDate : string -> option Z).

(** X16: no match is classified into both regions: what a Current refresh keeps
    of an upstream list has started, what an Upcoming refresh keeps of any
    list has not. A match that has started and ended without a score is
    kept by neither. *)
Theorem regions_disjoint allMatches allMatches' m :
  m ∈ sortedLive parseDate allMatches ->
  (m ∉ upcomingMatches allMatches') /\
  (isTrue (matchStarted m) && isTrue (matchEnded m) && negb (hasScore m)) = false.
Proof.
  intros Hm. apply (sortedLive_facts parseDate) in Hm as [_ Hlive].
  unfold isLiveOrCompletedWithScore in Hlive. split.
  - intros Hup. apply upcomingMatches_facts in Hup as [_ Hns].
    rewrite Hns in Hlive. done.
  - destruct (matchStarted m) as [[]|], (matchEnded m) as [[]|], (hasScore m); done.
Qed.

End RegionsApart.

Lemma regions_disjoint_witness :
  (Samples.startedMatch
     ∉ upcomingMatches [Samples.startedMatch; Samples.notStartedMatch]) /\
  (isTrue (matchStarted Samples.startedMatch) &&
   isTrue (matchEnded Samples.startedMatch) &&
   negb (hasScore Samples.startedMatch)) = false.
Proof.
  apply (regions_disjoint Samples.parseDate
           [Samples.startedMatch; Samples.notStartedMatch]
           [Samples.startedMatch; Samples.notStartedMatch]
           Samples.startedMatch).
  vm_compute. left.
Defined.

(** ** The detail fetch *)

Section DetailPipeline.

Abbreviation md w := (matchDetails (cache w)).

Lemma ends_mono {R} (P P' : R -> Prop) (Q Q' : jsError -> Prop) (p : prog R) :
  (forall r, P r -> P' r) -> (forall e, Q e -> Q' e) ->
  ends P Q p -> ends P' Q' p.
Proof. intros HP HQ. induction p; simpl; auto. Qed.

Lemma ends_bind {A B} (P' : A -> Prop) (P : B -> Prop) (Q : jsError -> Prop)
    (p : prog A) (f : A -> prog B) :
  ends P' Q p -> (forall a, P' a -> ends P Q (f a)) -> ends P Q (bind p f).
Proof. intros Hp Hf. induction p; simpl in *; auto. Qed.

(** A [try] whose handler always returns never throws. *)
Lemma neverThrows_tryCatch {A} (p : prog A) (h : jsError -> prog A) :
  (forall e, neverThrows (h e)) -> neverThrows (tryCatch p h).
Proof. unfold neverThrows. intros Hh. induction p; simpl; auto. Qed.

Lemma ends_runSync {R} (P : R -> Prop) (Q : jsError -> Prop) (p : prog R) w now :
  ends P Q p -> endsFrom P Q (snd (runSync p w now)).
Proof.
  revert w. induction p as [r|e|X f k IH|k IH|ms k IH|url key id k IH];
    intros w; simpl; auto.
  intros Hk. destruct (f w now) as [w' x]. by apply IH.
Qed.

(** The squad and scorecard steps are never fatal. *)
Lemma fetchSquad_neverThrows apiKey matchId info :
  neverThrows (fetchSquad apiKey matchId info).
Proof.
  unfold fetchSquad. destruct (truthy _); [|done].
  by apply neverThrows_tryCatch.
Qed.

Lemma fetchScorecard_neverThrows apiKey matchId url :
  neverThrows (fetchScorecard apiKey matchId url).
Proof. unfold fetchScorecard. by apply neverThrows_tryCatch. Qed.

(** From the match-info payload on: the squad and scorecard steps are never
    fatal; then the debug log throws when the payload is a success with an
    empty [score] array; else the record is the payload, enhanced exactly
    when the payload is a success with data. *)
Lemma afterInfo_ends apiKey matchId p :
  ends (fun d => emptyScore p = false /\ recordOf p d)
       (fun e => emptyScore p = true /\ e = substringError)
       (afterInfo apiKey matchId (BodyInfo p)).
Proof.
  unfold afterInfo, recordOf, emptyScore. cbn [asMatchData].
  case_bool_decide as Hs; destruct (decide (status p = JStr "success"));
    try done; destruct (pdata p) as [info|] eqn:Hp; try by simpl.
  unfold mbind, prog_bind.
  eapply ends_bind.
  { eapply ends_mono; [| |apply fetchSquad_neverThrows]; [intros; exact I|done]. }
  intros squad _.
  eapply ends_bind.
  { eapply ends_mono; [| |apply fetchScorecard_neverThrows];
      [intros; exact I|done]. }
  intros scorecard1 _.
  eapply (ends_bind (fun _ => True)).
  { destruct scorecard1; [done|].
    eapply ends_mono; [| |apply fetchScorecard_neverThrows];
      [intros; exact I|done]. }
  intros scorecardData _. unfold scoreSample.
  destruct (mi_score info) as [[|x l]|]; simpl; eauto.
Qed.

(** One synchronous run of a call that is past the match-info answer: it
    is still suspended; or its fetch is complete and the record is stored
    and returned; or the fetch has thrown, nothing is stored, and the
    [catch] block returns the cached record or throws the error again. *)
Lemma detailCont_ends_run matchId P Q k w now :
  preserves (fun w => md w) k ->
  ends P Q k ->
  match runSync (detailCont matchId k) w now with
  | (w', SDone v) =>
      (exists d, v = RDetail d /\ P d /\
                 md w' = <[matchId := DetailEntry d now]> (md w)) \/
      (exists e c, Q e /\ md w !! matchId = Some c /\
                   v = RDetail (de_data c) /\ md w' = md w)
  | (w', SFail e) => Q e /\ md w !! matchId = None /\ md w' = md w
  | (w', s') => enhancing matchId P Q s' /\ md w' = md w
  end.
Proof.
  intros Hk He. unfold detailCont. rewrite runSync_tryCatch, runSync_bind.
  pose proof (preserves_runSync _ k w now Hk) as [H1 H2].
  pose proof (ends_runSync P Q k w now He) as H3.
  destruct (runSync k w now) as [w1 [d|e|k'|due k'|url key id k']];
    simpl in H1, H2, H3.
  - cbn. left. exists d. split; [done|]. split; [done|]. by rewrite H1.
  - rewrite getMatchDetailsCatch_run. rewrite H1.
    destruct (md w !! matchId) as [c|] eqn:Hc; [|done]. right. eauto 6.
  - split; [|done]. simpl. eauto.
  - split; [|done]. simpl. eauto.
  - split; [|done]. simpl. eauto.
Qed.

Lemma stepTask_enhancing matchId P Q s w ev w' s' :
  enhancing matchId P Q s ->
  stepTask s w ev = Some (w', s') ->
  exists k, preserves (fun w => md w) k /\ ends P Q k /\
            runSync (detailCont matchId k) w (eventTime ev) = (w', s').
Proof.
  unfold stepTask.
  destruct s as [v|e|p|due p|url key id kk], ev as [now|now out]; simpl; try done.
  - intros (k & -> & Hk & He) [= <-]. eauto.
  - intros (k & -> & Hk & He). destruct (due <=? now); [|done].
    intros [= <-]. eauto.
  - intros (k & -> & Hk) [= <-]. exists (k out). by destruct (Hk out).
Qed.

Lemma enhancing_reaches matchId P Q s s' :
  enhancing matchId P Q s -> reaches s s' ->
  enhancing matchId P Q s' \/ finished s'.
Proof.
  intros Hs. induction 1 as [|s1 w ev w' s2 _ IH Hstep]; [by left|].
  destruct IH as [IH|IH]; [|by rewrite stepTask_finished in Hstep].
  destruct (stepTask_enhancing _ _ _ _ _ _ _ _ IH Hstep) as (k & Hk & He & Hrun).
  pose proof (detailCont_ends_run matchId P Q k w (eventTime ev) Hk He) as H.
  rewrite Hrun in H. destruct s2; simpl; tauto.
Qed.

(** [fetchDetail], cut at the throttle and at the match-info response. *)
Lemma fetchDetail_parts matchId :
  fetchDetail matchId = (awaitCall throttleApiCall ;; afterThrottle matchId).
Proof. reflexivity. Qed.

(** The call on a miss: suspended at the throttle or just past it. *)
Lemma getMatchDetails_starts matchId w now :
  matchDetails (cache w) !! matchId = None ->
  fetchingInfo matchId (snd (runSync (getMatchDetails matchId) w now)).
Proof.
  intros Hmiss. pose proof (getMatchDetails_invoke matchId w now) as H.
  rewrite Hmiss in H. rewrite H. unfold detailCont, fetchDetail.
  cbn. destruct (Throttle.waitTime _ _); cbn; constructor.
Qed.

(** One step before the answer: the call is still at one of the points, or
    it has ended. *)
Lemma fetchingInfo_step matchId s w ev w' s' :
  fetchingInfo matchId s ->
  isAnswer ev = false ->
  stepTask s w ev = Some (w', s') ->
  fetchingInfo matchId s' \/ finished s'.
Proof.
  intros Hs Hev. unfold stepTask.
  destruct Hs as [due| |fuel apiKey key lastError|due fuel apiKey key lastError];
    destruct ev as [t|t [body|e]]; cbn [resume eventTime]; try done.
  - destruct (due <=? t); [|done].
    unfold infoGate, detailCont. cbn. intros [= <- <-]. left. apply InfoGateTick.
  - unfold infoPastGate, detailCont, afterThrottle. cbn.
    destruct (KeyPool.getApiKey (keys w) t) as [p' [k|]]; cbn.
    + destruct (length (KeyPool.apiKeys p')) as [|fuel]; cbn.
      * destruct (matchDetails (cache w) !! matchId);
          intros [= <- <-]; by right.
      * intros [= <- <-]. left. apply (InfoFetch matchId fuel k k None).
    + destruct (matchDetails (cache w) !! matchId);
        intros [= <- <-]; by right.
  - unfold infoResponse, detailCont, awaitCall, mbind, prog_bind.
    rewrite runSync_tryCatch, !runSync_bind. cbn.
    destruct (isRateLimitedError e); cbn.
    + destruct (KeyPool.getApiKey _ t) as [p' [k|]]; cbn.
      * intros [= <- <-]. left.
        apply (InfoBackoff matchId _ fuel apiKey k (Some e)).
      * destruct (matchDetails (cache w) !! matchId);
          intros [= <- <-]; by right.
    + destruct (matchDetails (cache w) !! matchId);
        intros [= <- <-]; by right.
  - destruct (due <=? t); [|done].
    unfold infoNextAttempt, detailCont, awaitCall, mbind, prog_bind.
    rewrite runSync_tryCatch, !runSync_bind.
    destruct fuel as [|fuel]; cbn.
    + destruct (matchDetails (cache w) !! matchId);
        intros [= <- <-]; by right.
    + intros [= <- <-]. left. apply (InfoFetch matchId fuel apiKey key lastError).
Qed.

(** The answer arrives: one turn of the queue later the call goes on with
    the payload. *)
Lemma fetchingInfo_answer matchId s w t body w' s' :
  fetchingInfo matchId s ->
  stepTask s w (EvResponse t (HttpOk body)) = Some (w', s') ->
  exists apiKey, s' = STick (detailCont matchId (afterInfo apiKey matchId body)).
Proof.
  intros Hs. unfold stepTask.
  destruct Hs as [due| |fuel apiKey key lastError|due fuel apiKey key lastError];
    cbn [resume eventTime]; try done.
  unfold infoResponse, detailCont, awaitCall, mbind, prog_bind.
  rewrite runSync_tryCatch, !runSync_bind. cbn.
  intros [= <- <-]. by exists apiKey.
Qed.

Lemma fetchingInfo_run matchId evs s w w' s' :
  fetchingInfo matchId s \/ finished s ->
  forallb (fun ev => negb (isAnswer ev)) evs = true ->
  runTask s w evs = Some (w', s') ->
  fetchingInfo matchId s' \/ finished s'.
Proof.
  revert s w. induction evs as [|ev evs IH]; intros s w Hs Hevs; cbn [runTask].
  - by intros [= <- <-].
  - cbn [forallb] in Hevs. apply andb_true_iff in Hevs as [Hev Hevs].
    apply negb_true_iff in Hev.
    destruct Hs as [Hs|Hs]; [|by rewrite stepTask_finished].
    destruct (stepTask s w ev) as [[w1 s1]|] eqn:Hstep; [|done].
    apply IH; [|done]. by eapply fetchingInfo_step.
Qed.

(** X17: how a call on a miss ends once the match-info endpoint has answered
    with the payload [p], whatever becomes of the squad and scorecard calls
    and whatever the other tasks do to the state between its steps. When
    [p] is a success with data whose [score] is an empty array, the step
    that ends the call stores nothing, and the call returns the record
    another call has cached for the id by then, or, when there is none,
    throws the TypeError of the debug log. For every other payload the step
    that ends the call stores the record under the id and returns it: the
    payload, with the added fields exactly when it is a success with
    data. *)
Theorem getMatchDetails_after_answer
    matchId w now w0 s0 evs w1 s1 t p w2 s2 s wl ev w' s' :
  matchDetails (cache w) !! matchId = None ->
  runSync (getMatchDetails matchId) w now = (w0, s0) ->
  forallb (fun ev => negb (isAnswer ev)) evs = true ->
  runTask s0 w0 evs = Some (w1, s1) ->
  stepTask s1 w1 (EvResponse t (HttpOk (BodyInfo p))) = Some (w2, s2) ->
  reaches s2 s ->
  stepTask s wl ev = Some (w', s') ->
  finished s' ->
  if emptyScore p
  then
    matchDetails (cache w') = matchDetails (cache wl) /\
    s' = match matchDetails (cache wl) !! matchId with
         | Some c => SDone (RDetail (de_data c))
         | None => SFail substringError
         end
  else
    exists d,
      s' = SDone (RDetail d) /\ recordOf p d /\
      matchDetails (cache w') =
      <[matchId := DetailEntry d (eventTime ev)]> (matchDetails (cache wl)).
Proof.
  intros Hmiss Hcall Hevs Hrun Hanswer Hreach Hstep Hfin.
  pose proof (getMatchDetails_starts matchId w now Hmiss) as Hs0.
  rewrite Hcall in Hs0. simpl in Hs0.
  destruct (fetchingInfo_run _ _ _ _ _ _ (or_introl Hs0) Hevs Hrun) as [Hs1|Hs1];
    [|by rewrite stepTask_finished in Hanswer].
  destruct (fetchingInfo_answer _ _ _ _ _ _ _ Hs1 Hanswer) as [apiKey ->].
  set (P := fun d => emptyScore p = false /\ recordOf p d).
  set (Q := fun e => emptyScore p = true /\ e = substringError).
  assert (Hs2 : enhancing matchId P Q
                  (STick (detailCont matchId
                            (afterInfo apiKey matchId (BodyInfo p))))).
  { simpl. eexists. split; [reflexivity|]. split.
    - apply (preserves_afterInfo (fun c => matchDetails c)).
    - apply afterInfo_ends. }
  destruct (enhancing_reaches _ _ _ _ _ Hs2 Hreach) as [Hs|Hs];
    [|by rewrite stepTask_finished in Hstep].
  destruct (stepTask_enhancing _ _ _ _ _ _ _ _ Hs Hstep) as (k & Hk & He & Hlast).
  pose proof (detailCont_ends_run matchId P Q k wl (eventTime ev) Hk He) as H.
  rewrite Hlast in H. unfold P, Q in H.
  destruct s' as [v|e| | |]; simpl in Hfin; try done.
  - destruct H as [(d & -> & [Hp Hd] & Hmd)|(e & c & [Hp ->] & Hc & -> & Hmd)].
    + rewrite Hp. eauto.
    + rewrite Hp, Hc. done.
  - destruct H as ([Hp ->] & Hc & Hmd). rewrite Hp, Hc. done.
Qed.

End DetailPipeline.

Lemma getMatchDetails_after_answer_witness :
  snd MoreSamples.emptyScoreEnd = SFail substringError /\
  matchDetails (cache (fst MoreSamples.emptyScoreEnd)) = ∅.
Proof.
  pose proof
    (getMatchDetails_after_answer "m1" (initWorld ["A"]%string) 1000000
       (fst MoreSamples.detailCall) (snd MoreSamples.detailCall)
       [EvWake 1000000]
       (fst MoreSamples.detailAsked) (snd MoreSamples.detailAsked)
       1000500 MoreSamples.emptyScoreAnswer
       (fst MoreSamples.emptyScoreAnswered) (snd MoreSamples.emptyScoreAnswered)
       (snd MoreSamples.emptyScoreLast) (fst MoreSamples.emptyScoreLast)
       (EvResponse 1020300 (HttpErr Samples.connectionReset))
       (fst MoreSamples.emptyScoreEnd) (snd MoreSamples.emptyScoreEnd)) as H.
  destruct H as [Hmd Hs'].
  - reflexivity.
  - reflexivity.
  - reflexivity.
  - reflexivity.
  - reflexivity.
  - apply (runTask_reaches _ (fst MoreSamples.emptyScoreAnswered)
             (removelast MoreSamples.afterAnswer)
             (fst MoreSamples.emptyScoreLast)).
    reflexivity.
  - reflexivity.
  - vm_compute. exact I.
  - split; [exact Hs'|]. rewrite Hmd. reflexivity.
Defined.

(** ** The series list *)

Section SeriesFacts.

Import Series.

Lemma srunSync_bind {A B} (p : sprog A) (f : A -> sprog B) st now :
  srunSync (sbind p f) st now =
  match srunSync p st now with
  | (st', SsDone a) => srunSync (f a) st' now
  | (st', SsFail e) => (st', SsFail e)
  | (st', SsTick k) => (st', SsTick (sbind k f))
  | (st', SsTimer due k) => (st', SsTimer due (sbind k f))
  | (st', SsHttp url key id k) =>
      (st', SsHttp url key id (fun out => sbind (k out) f))
  end.
Proof.
  revert st. induction p as [a|e|X g k IH|k IH|ms k IH|url key id k IH];
    intros st; cbn; try reflexivity.
  destruct (g st now) as [st' x]. apply IH.
Qed.

Lemma srunSync_tryCatch {A} (p : sprog A) (h : jsError -> sprog A) st now :
  srunSync (stryCatch p h) st now =
  match srunSync p st now with
  | (st', SsDone a) => (st', SsDone a)
  | (st', SsFail e) => srunSync (h e) st' now
  | (st', SsTick k) => (st', SsTick (stryCatch k h))
  | (st', SsTimer due k) => (st', SsTimer due (stryCatch k h))
  | (st', SsHttp url key id k) =>
      (st', SsHttp url key id (fun out => stryCatch (k out) h))
  end.
Proof.
  revert st. induction p as [a|e|X g k IH|k IH|ms k IH|url key id k IH];
    intros st; cbn; try reflexivity.
  destruct (g st now) as [st' x]. apply IH.
Qed.

Lemma keepsSeries_lift {R} (p : prog R) : keepsSeries (lift p).
Proof.
  induction p as [a|e|X g k IH|k IH|ms k IH|url key id k IH]; simpl; auto.
  split; [|done]. intros st now. by destruct (g (fst st) now).
Qed.

Lemma keepsSeries_bind {A B} (p : sprog A) (f : A -> sprog B) :
  keepsSeries p -> (forall a, keepsSeries (f a)) -> keepsSeries (sbind p f).
Proof.
  intros Hp Hf.
  induction p as [a|e|X g k IH|k IH|ms k IH|url key id k IH]; simpl in *; auto.
  destruct Hp as [Hg Hk]. split; auto.
Qed.

Lemma keepsSeries_fetchSeries : keepsSeries fetchSeries.
Proof.
  unfold fetchSeries, mbind, sprog_bind.
  apply keepsSeries_bind; [apply keepsSeries_lift|]. intros _.
  apply keepsSeries_bind; [apply keepsSeries_lift|]. intros [apiKey|]; [|done].
  apply keepsSeries_bind; [apply keepsSeries_lift|]. intros n.
  apply keepsSeries_bind; [apply keepsSeries_lift|].
  by intros [[? [body|]] ?].
Qed.

Lemma keepsSeries_run {R} (p : sprog R) st now :
  keepsSeries p ->
  snd (fst (srunSync p st now)) = snd st /\
  match snd (srunSync p st now) with
  | SsDone _ | SsFail _ => True
  | SsTick k | SsTimer _ k => keepsSeries k
  | SsHttp _ _ _ k => forall out, keepsSeries (k out)
  end.
Proof.
  revert st. induction p as [a|e|X g k IH|k IH|ms k IH|url key id k IH];
    intros st; simpl; auto.
  intros [Hg Hk]. specialize (Hg st now). destruct (g st now) as [st' x].
  simpl in Hg. rewrite <- Hg. by apply IH.
Qed.

(** One synchronous run of a call that is still fetching. *)
Lemma seriesCont_run k st now :
  keepsSeries k ->
  match srunSync (seriesCont k) st now with
  | (st', SsDone v) =>
      storedAt (snd st') v now \/
      (snd st' = snd st /\
       (sc_data (snd st) = Some v \/ bodyStatus v <> JStr "success"))
  | (st', SsFail e) => sc_data (snd st) = None /\ snd st' = snd st
  | (st', s') => seriesFetching s' /\ snd st' = snd st
  end.
Proof.
  intros Hk. unfold seriesCont. rewrite srunSync_tryCatch, srunSync_bind.
  pose proof (keepsSeries_run k st now Hk) as [H1 H2].
  destruct (srunSync k st now) as [st1 [body|e|k'|due k'|url key id k']];
    simpl in H1, H2.
  - unfold storeAndReturn.
    assert (Hcatch : forall e,
              match srunSync (seriesCatch e) st1 now with
              | (st', SsDone v) =>
                  storedAt (snd st') v now \/
                  (snd st' = snd st /\
                   (sc_data (snd st) = Some v \/ bodyStatus v <> JStr "success"))
              | (st', SsFail e) => sc_data (snd st) = None /\ snd st' = snd st
              | (st', s') => seriesFetching s' /\ snd st' = snd st
              end).
    { intros e. cbn. rewrite H1. destruct (sc_data (snd st)); cbn; auto. }
    destruct body as [|p|p|p|p]; [apply Hcatch|..];
      (destruct (decide (_ = JStr "success")) as [Hs|Hs]; cbn;
       [left; by split | right; auto]).
  - cbn. rewrite H1. destruct (sc_data (snd st)); cbn; auto.
  - split; [|done]. simpl. eauto.
  - split; [|done]. simpl. eauto.
  - split; [|done]. simpl. eauto.
Qed.

Lemma getSeriesList_invoke st now :
  match freshSeries (snd st) now with
  | Some data => srunSync getSeriesList st now = (st, SsDone data)
  | None => srunSync getSeriesList st now = srunSync (seriesCont fetchSeries) st now
  end.
Proof.
  unfold getSeriesList, seriesCont. cbn [stryCatch srunSync].
  by destruct (freshSeries (snd st) now).
Qed.



(** X24: the series list is served from its cache only while the cached answer
    is younger than five minutes: a call that finds such an answer returns
    it at once and changes nothing; any other call, also one that finds an
    older answer, goes to the throttle and the endpoint first. *)
Theorem getSeriesList_cache_duration st now :
  match freshSeries (snd st) now with
  | Some data =>
      sc_data (snd st) = Some data /\
      (exists t, sc_timestamp (snd st) = Some t /\ now - t < CACHE_DURATION) /\
      srunSync getSeriesList st now = (st, SsDone data)
  | None =>
      seriesFetching (snd (srunSync getSeriesList st now)) /\
      snd (fst (srunSync getSeriesList st now)) = snd st
  end.
Proof.
  pose proof (getSeriesList_invoke st now) as Hinv.
  destruct (freshSeries (snd st) now) as [data|] eqn:Hfresh.
  - unfold freshSeries in Hfresh.
    destruct (sc_data (snd st)) as [d|]; [|done].
    destruct (sc_timestamp (snd st)) as [t|]; [|done].
    destruct (negb (t =? 0) && (now - t <? CACHE_DURATION)) eqn:Hc; [|done].
    injection Hfresh as ->. apply andb_true_iff in Hc as [_ Hlt%Z.ltb_lt].
    split; [done|]. split; [eauto | done].
  - rewrite Hinv.
    pose proof (seriesCont_run fetchSeries st now keepsSeries_fetchSeries) as H.
    unfold seriesCont, fetchSeries, mbind, sprog_bind in *.
    rewrite srunSync_tryCatch, !srunSync_bind in *.
    cbn in *. destruct (Throttle.waitTime _ _); cbn in *; tauto.
Qed.


End SeriesFacts.

